(** * Infinite canvas: the spatial-streaming engine of [scene.tsx]

    A shallow embedding of [src/infinite-canvas/scene.tsx] and the
    properties of its placement generator, texture cache, media planes,
    chunk renderer and camera controller.

    Number model.  A JavaScript [number] that holds an integer (chunk
    coordinates, hashes, media indices) is a [Z]; the 32-bit wrap-around of
    the bit operators is written out.  Every other [number] is an exact
    rational [Q]: [+ - * /] are the field operations and [Math.floor],
    [Math.abs], [Math.max], [Math.min] are [Qfloor], [Qabs], [Qmax], [Qmin].
    IEEE-754 rounding is outside this model.  [Math.sin] and [Math.sqrt]
    have no rational counterpart and are parameters of the definitions that
    call them. *)

From Stdlib Require Import QArith Qabs Qminmax Qround Lqa Lia ZArith Ascii String.
From stdpp Require Import gmap strings pretty list.

Open Scope Q_scope.

(** ** Numbers as the code uses them *)

Module JS.

(** [ToInt32]: the value of [v | 0] for an integer-valued [v]. *)
Definition toInt32 (v : Z) : Z :=
  ((v + 2 ^ 31) mod 2 ^ 32 - 2 ^ 31)%Z.

(** [a << n] on an int32 operand. *)
Definition shl32 (a : Z) (n : Z) : Z := toInt32 (Z.shiftl (toInt32 a) n).

(** [String(n)] for an integer [n]: decimal digits, a leading [-] when
    negative, no leading zeros. *)
Definition numberToString (n : Z) : string := pretty n.

(** [str.charCodeAt(i)] for every [i] in order. *)
Definition charCodes (str : string) : list Z :=
  (fun c => Z.of_nat (Ascii.nat_of_ascii c)) <$> String.list_ascii_of_string str.

(** [a % b] on integers: [NaN] (here [None]) when the divisor is zero,
    otherwise the remainder with the sign of the dividend. *)
Definition rem (a b : Z) : option Z :=
  if (b =? 0)%Z then None else Some (Z.rem a b).

(** [arr[i]] where [i] is the result of [%]: [undefined] (here [None])
    for [NaN], a negative index or an index past the end. *)
Definition index {A} (arr : list A) (i : option Z) : option A :=
  match i with
  | None => None
  | Some i => if (i <? 0)%Z then None else arr !! Z.to_nat i
  end.

(** [x || y] on numbers: [x] unless it is falsy (zero). *)
Definition orNum (x y : Z) : Z := if (x =? 0)%Z then y else x.

End JS.

(** ** Data model *)

Inductive MediaType := image | video.

Record MediaItem := { url : string; type : MediaType }.

Record Vector3 := { x : Q; y : Q; z : Q }.

Record ChunkData :=
  { key : string; cx : Z; cy : Z; cz : Z; visibility : Q }.

Record PlaneData :=
  { id : string; position : Vector3; scale : Vector3; mediaIndex : Z }.

(** ** Constants *)

Definition CHUNK_SIZE : Q := 110.
Definition ITEMS_PER_CHUNK : nat := 5.
Definition RENDER_DISTANCE : Z := 2.
Definition CHUNK_FADE_MARGIN : Z := 1.
Definition MAX_VELOCITY : Q := 3.2.
Definition VISIBILITY_LERP : Q := 0.18.
Definition DEPTH_FADE_START : Q := 140.
Definition DEPTH_FADE_END : Q := 260.
Definition MAX_DIST : Z := (RENDER_DISTANCE + CHUNK_FADE_MARGIN)%Z.

Record Offset := { dx : Z; dy : Z; dz : Z; dist : Z }.

(** The integers [lo, lo+1, ..., hi] of a [for] loop. *)
Definition range (lo hi : Z) : list Z :=
  (fun i => (lo + Z.of_nat i)%Z) <$> seq 0 (Z.to_nat (hi - lo + 1)).

Definition CHUNK_OFFSETS : list Offset :=
  x ← range (- MAX_DIST) MAX_DIST;
  y ← range (- MAX_DIST) MAX_DIST;
  z ← range (- MAX_DIST) MAX_DIST;
  let d := Z.max (Z.max (Z.abs x) (Z.abs y)) (Z.abs z) in
  if (d >? MAX_DIST)%Z then [] else [ {| dx := x; dy := y; dz := z; dist := d |} ].

(** ** Pure helpers *)

Definition hashString (str : string) : Z :=
  Z.abs (fold_left (fun h c => JS.toInt32 (JS.shl32 h 5 - h + c)%Z)
                   (JS.charCodes str) 0%Z).

Definition clamp (v min max : Q) : Q := Qmax min (Qmin max v).

Definition lerp (a b t : Q) : Q := a + (b - a) * t.

(** The template literal [`${cx},${cy},${cz}`], used as hash input and as
    chunk key. *)
Definition chunkKey (cx cy cz : Z) : string :=
  JS.numberToString cx +:+ "," +:+ JS.numberToString cy +:+ ","
  +:+ JS.numberToString cz.

Section Generator.

(** [Math.sin], on the arguments the generator passes to it. *)
Variable Math_sin : Q -> Q.

Definition seededRandom (seed : Q) : Q :=
  let x := Math_sin (seed * 9999) * 10000 in
  x - inject_Z (Qfloor x).

Definition generatePlane (cx cy cz mediaCount : Z) (seed : Z) (i : nat) : PlaneData :=
  let s := (seed + Z.of_nat i * 1000)%Z in
  let r := fun n : Z => seededRandom (inject_Z (s + n)) in
  let size := 12 + r 4%Z * 8 in
  {| id := JS.numberToString cx +:+ "-" +:+ JS.numberToString cy +:+ "-"
           +:+ JS.numberToString cz +:+ "-" +:+ JS.numberToString (Z.of_nat i);
     position := {| x := inject_Z cx * CHUNK_SIZE + r 0%Z * CHUNK_SIZE;
                    y := inject_Z cy * CHUNK_SIZE + r 1%Z * CHUNK_SIZE;
                    z := inject_Z cz * CHUNK_SIZE + r 2%Z * CHUNK_SIZE |};
     scale := {| x := size; y := size; z := 1 |};
     mediaIndex := Qfloor (r 5%Z * inject_Z mediaCount) |}.

Definition generateChunkPlanes (cx cy cz mediaCount : Z) : list PlaneData :=
  let seed := hashString (chunkKey cx cy cz) in
  generatePlane cx cy cz mediaCount seed <$> seq 0 ITEMS_PER_CHUNK.

End Generator.

(** ** Media texture cache

    [textureCache] and [videoElements] are module-level maps.  Objects
    created by the host ([THREE.Texture], [<video>] elements) are records
    carrying the allocation number [instance] that stands for their
    identity; the store counts allocations and logs every
    [TextureLoader.load] and every [document.createElement("video")]. *)

Inductive TextureFilter := LinearFilter | LinearMipmapLinearFilter.

Record VideoElement :=
  { video_instance : nat; src : string; crossOrigin : string;
    loop : bool; muted : bool; playsInline : bool; autoplay : bool }.

Inductive TextureSource :=
| LoadedImage (from : string)        (* [new TextureLoader().load(url)] *)
| VideoFrames (el : VideoElement).   (* [new VideoTexture(video)] *)

Record Texture :=
  { instance : nat; source : TextureSource;
    minFilter : TextureFilter; magFilter : TextureFilter;
    generateMipmaps : bool; anisotropy : Z }.

Record Store :=
  { textureCache : gmap string Texture;
    videoElements : gmap string VideoElement;
    allocated : nat;
    imageLoads : list string;
    videosCreated : list string }.

Definition emptyStore : Store :=
  {| textureCache := ∅; videoElements := ∅; allocated := 0;
     imageLoads := []; videosCreated := [] |}.

Definition getTexture (item : MediaItem) (st : Store) : option Texture * Store :=
  match textureCache st !! url item with
  | Some cachedTexture => (Some cachedTexture, st)
  | None =>
    match type item with
    | video =>
      let '(el, st) :=
        match videoElements st !! url item with
        | Some el => (el, st)
        | None =>
          let el :=
            {| video_instance := allocated st; src := url item;
               crossOrigin := "anonymous"; loop := true; muted := true;
               playsInline := true; autoplay := true |} in
          (el,
           {| textureCache := textureCache st;
              videoElements := <[url item := el]> (videoElements st);
              allocated := S (allocated st);
              imageLoads := imageLoads st;
              videosCreated := videosCreated st ++ [url item] |})
        end in
      let texture :=
        {| instance := allocated st; source := VideoFrames el;
           minFilter := LinearFilter; magFilter := LinearFilter;
           generateMipmaps := false; anisotropy := 1 |} in
      (Some texture,
       {| textureCache := <[url item := texture]> (textureCache st);
          videoElements := videoElements st;
          allocated := S (allocated st);
          imageLoads := imageLoads st;
          videosCreated := videosCreated st |})
    | image =>
      let texture :=
        {| instance := allocated st; source := LoadedImage (url item);
           minFilter := LinearMipmapLinearFilter; magFilter := LinearFilter;
           generateMipmaps := true; anisotropy := 4 |} in
      (Some texture,
       {| textureCache := <[url item := texture]> (textureCache st);
          videoElements := videoElements st;
          allocated := S (allocated st);
          imageLoads := imageLoads st ++ [url item];
          videosCreated := videosCreated st |})
    end
  end.

(** A process lifetime: the calls of [getTexture] in the order they
    happen, starting from some store; the textures returned, in order. *)
Fixpoint getTextures (calls : list MediaItem) (st : Store)
  : list (option Texture) * Store :=
  match calls with
  | [] => ([], st)
  | item :: calls =>
    let '(t, st) := getTexture item st in
    let '(ts, st) := getTextures calls st in
    (t :: ts, st)
  end.

(** Underlying loads started for [u]. *)
Definition loadsOf (u : string) (st : Store) : nat :=
  length (filter (fun v => v = u) (imageLoads st))
  + length (filter (fun v => v = u) (videosCreated st)).

(** ** Media plane

    What [MediaPlane] reads of a texture when it computes [displayScale]:
    [texture.image], a media element or nothing.  The host assigns that
    field: nothing while a [TextureLoader] texture is loading, the image
    once it has loaded, the [<video>] element of a video texture. *)

Inductive MediaElement :=
| HTMLImageElement (naturalWidth width naturalHeight height : Z) (complete : bool)
| HTMLVideoElement (videoWidth videoHeight : Z)
| OtherElement.

Record TextureState := { texture : Texture; texture_image : option MediaElement }.

(** [undefined] is [None]. *)
Definition getMediaDimensions (media : option MediaElement) : option Z * option Z :=
  let width :=
    match media with
    | Some (HTMLVideoElement videoWidth _) => Some videoWidth
    | Some (HTMLImageElement naturalWidth width _ _ _) => Some (JS.orNum naturalWidth width)
    | _ => None
    end in
  let height :=
    match media with
    | Some (HTMLVideoElement _ videoHeight) => Some videoHeight
    | Some (HTMLImageElement _ _ naturalHeight height _) => Some (JS.orNum naturalHeight height)
    | _ => None
    end in
  (width, height).

(** The callback passed to the [useMemo] that defines [displayScale]: what
    one computation yields from the [texture.image] of that moment.  The
    memoised value the component displays is [displayScale], below. *)
Definition displayScaleCallback (scale : Vector3) (texture : option TextureState) : Vector3 :=
  match texture with
  | None => scale
  | Some texture =>
    let mediaEl := texture_image texture in
    match getMediaDimensions mediaEl with
    | (Some naturalWidth, Some naturalHeight) =>
      if ((naturalWidth =? 0) || (naturalHeight =? 0))%Z then scale
      else
        let q := inject_Z naturalWidth / inject_Z naturalHeight in
        let aspect := if Qeq_bool q 0 then 1 else q in
        {| x := y scale * aspect; y := y scale; z := 1 |}
    | _ => scale
    end
  end.

(** ** Chunk renderer and scene root *)

Record MediaPlaneProps :=
  { plane_key : string; plane_position : Vector3; plane_scale : Vector3;
    media : MediaItem; plane_visibility : Q }.

(** The children of the [<group>]: one entry per plane, [None] for [null]. *)
Definition Chunk (Math_sin : Q -> Q) (cx cy cz : Z) (media : list MediaItem)
    (visibility : Q) : list (option MediaPlaneProps) :=
  let planes := generateChunkPlanes Math_sin cx cy cz (Z.of_nat (length media)) in
  (fun plane =>
     match JS.index media (JS.rem (mediaIndex plane) (Z.of_nat (length media))) with
     | None => None
     | Some mediaItem =>
       Some {| plane_key := id plane; plane_position := position plane;
               plane_scale := scale plane; media := mediaItem;
               plane_visibility := visibility |}
     end) <$> planes.

(** ** Memoised values

    [React.useMemo(callback, deps)] keeps, for a component instance, the
    dependencies of its last computation and the value it computed.  A
    render returns the kept value when every dependency is the kept one
    under [Object.is] (the same number, the same object) and runs the
    callback otherwise; the first render always runs it.  An object stands
    in [deps] by its identity. *)

Record Memo (D A : Type) := { memo_deps : D; memo_value : A }.

Arguments memo_deps {D A} _.
Arguments memo_value {D A} _.

Definition useMemo {D A : Type} `{EqDecision D} (callback : unit -> A) (deps : D)
    (cell : option (Memo D A)) : A * Memo D A :=
  match cell with
  | Some kept =>
    if decide (memo_deps kept = deps) then (memo_value kept, kept)
    else
      let value := callback tt in
      (value, {| memo_deps := deps; memo_value := value |})
  | None =>
    let value := callback tt in
    (value, {| memo_deps := deps; memo_value := value |})
  end.

(** The [planes] of a [Chunk]: the one call site of [generateChunkPlanes],
    memoised on [[cx, cy, cz, media.length]]. *)
Definition Chunk_planes (Math_sin : Q -> Q) (cx cy cz : Z) (media : list MediaItem)
    (cell : option (Memo (Z * Z * Z * Z) (list PlaneData)))
  : list PlaneData * Memo (Z * Z * Z * Z) (list PlaneData) :=
  useMemo (fun _ => generateChunkPlanes Math_sin cx cy cz (Z.of_nat (length media)))
          (cx, cy, cz, Z.of_nat (length media)) cell.

(** The memo cell of a [Chunk] instance after it has rendered with each of
    the given props in turn ([cx], [cy], [cz] and [media]). *)
Fixpoint Chunk_rendered (Math_sin : Q -> Q) (history : list (Z * Z * Z * list MediaItem))
    (cell : option (Memo (Z * Z * Z * Z) (list PlaneData)))
  : option (Memo (Z * Z * Z * Z) (list PlaneData)) :=
  match history with
  | [] => cell
  | (cx, cy, cz, media) :: history =>
    Chunk_rendered Math_sin history (Some (Chunk_planes Math_sin cx cy cz media cell).2)
  end.

(** The cell holds what [generateChunkPlanes] returns for the dependencies
    it was computed for. *)
Definition planesKept (Math_sin : Q -> Q)
    (cell : option (Memo (Z * Z * Z * Z) (list PlaneData))) : Prop :=
  match cell with
  | Some kept =>
    let '(cx, cy, cz, mediaCount) := memo_deps kept in
    memo_value kept = generateChunkPlanes Math_sin cx cy cz mediaCount
  | None => True
  end.

Record Scene :=
  { camera_start : Vector3; fov : Q; near : Q; far : Q;
    controller_media : list MediaItem }.

Definition InfiniteCanvasScene (media : list MediaItem) : option Scene :=
  if (length media =? 0)%nat then None
  else Some {| camera_start := {| x := 0; y := 0; z := 50 |};
               fov := 60; near := 1; far := 500;
               controller_media := media |}.

(** ** Camera and input controller

    The refs and the state of [SceneController], together with the camera
    position it moves.  The frame counter of the FPS readout (the first
    lines of the [useFrame] callback) reads and writes only [frames] and
    [lastTime] and is left out. *)

Record Touch := { clientX : Q; clientY : Q }.

Record Controller :=
  { camera : Vector3;
    chunks : list ChunkData;
    lastChunkKey : string;
    velocity : Vector3;
    targetVel : Vector3;
    scrollAccum : Q;
    keys : gset string;
    isDragging : bool;
    lastMouse : Q * Q;
    lastTouches : list Touch;
    lastTouchDist : Q;
    cursor : string }.

Definition upd_camera (f : Vector3 -> Vector3) (s : Controller) : Controller :=
  {| camera := f (camera s); chunks := chunks s; lastChunkKey := lastChunkKey s;
     velocity := velocity s; targetVel := targetVel s; scrollAccum := scrollAccum s;
     keys := keys s; isDragging := isDragging s; lastMouse := lastMouse s;
     lastTouches := lastTouches s; lastTouchDist := lastTouchDist s;
     cursor := cursor s |}.

Definition upd_chunks (f : list ChunkData -> list ChunkData) (s : Controller) : Controller :=
  {| camera := camera s; chunks := f (chunks s); lastChunkKey := lastChunkKey s;
     velocity := velocity s; targetVel := targetVel s; scrollAccum := scrollAccum s;
     keys := keys s; isDragging := isDragging s; lastMouse := lastMouse s;
     lastTouches := lastTouches s; lastTouchDist := lastTouchDist s;
     cursor := cursor s |}.

Definition set_lastChunkKey (k : string) (s : Controller) : Controller :=
  {| camera := camera s; chunks := chunks s; lastChunkKey := k;
     velocity := velocity s; targetVel := targetVel s; scrollAccum := scrollAccum s;
     keys := keys s; isDragging := isDragging s; lastMouse := lastMouse s;
     lastTouches := lastTouches s; lastTouchDist := lastTouchDist s;
     cursor := cursor s |}.

Definition upd_velocity (f : Vector3 -> Vector3) (s : Controller) : Controller :=
  {| camera := camera s; chunks := chunks s; lastChunkKey := lastChunkKey s;
     velocity := f (velocity s); targetVel := targetVel s; scrollAccum := scrollAccum s;
     keys := keys s; isDragging := isDragging s; lastMouse := lastMouse s;
     lastTouches := lastTouches s; lastTouchDist := lastTouchDist s;
     cursor := cursor s |}.

Definition upd_targetVel (f : Vector3 -> Vector3) (s : Controller) : Controller :=
  {| camera := camera s; chunks := chunks s; lastChunkKey := lastChunkKey s;
     velocity := velocity s; targetVel := f (targetVel s); scrollAccum := scrollAccum s;
     keys := keys s; isDragging := isDragging s; lastMouse := lastMouse s;
     lastTouches := lastTouches s; lastTouchDist := lastTouchDist s;
     cursor := cursor s |}.

Definition upd_scrollAccum (f : Q -> Q) (s : Controller) : Controller :=
  {| camera := camera s; chunks := chunks s; lastChunkKey := lastChunkKey s;
     velocity := velocity s; targetVel := targetVel s; scrollAccum := f (scrollAccum s);
     keys := keys s; isDragging := isDragging s; lastMouse := lastMouse s;
     lastTouches := lastTouches s; lastTouchDist := lastTouchDist s;
     cursor := cursor s |}.

Definition upd_keys (f : gset string -> gset string) (s : Controller) : Controller :=
  {| camera := camera s; chunks := chunks s; lastChunkKey := lastChunkKey s;
     velocity := velocity s; targetVel := targetVel s; scrollAccum := scrollAccum s;
     keys := f (keys s); isDragging := isDragging s; lastMouse := lastMouse s;
     lastTouches := lastTouches s; lastTouchDist := lastTouchDist s;
     cursor := cursor s |}.

Definition set_isDragging (b : bool) (s : Controller) : Controller :=
  {| camera := camera s; chunks := chunks s; lastChunkKey := lastChunkKey s;
     velocity := velocity s; targetVel := targetVel s; scrollAccum := scrollAccum s;
     keys := keys s; isDragging := b; lastMouse := lastMouse s;
     lastTouches := lastTouches s; lastTouchDist := lastTouchDist s;
     cursor := cursor s |}.

Definition set_lastMouse (m : Q * Q) (s : Controller) : Controller :=
  {| camera := camera s; chunks := chunks s; lastChunkKey := lastChunkKey s;
     velocity := velocity s; targetVel := targetVel s; scrollAccum := scrollAccum s;
     keys := keys s; isDragging := isDragging s; lastMouse := m;
     lastTouches := lastTouches s; lastTouchDist := lastTouchDist s;
     cursor := cursor s |}.

Definition set_lastTouches (t : list Touch) (s : Controller) : Controller :=
  {| camera := camera s; chunks := chunks s; lastChunkKey := lastChunkKey s;
     velocity := velocity s; targetVel := targetVel s; scrollAccum := scrollAccum s;
     keys := keys s; isDragging := isDragging s; lastMouse := lastMouse s;
     lastTouches := t; lastTouchDist := lastTouchDist s;
     cursor := cursor s |}.

Definition set_lastTouchDist (d : Q) (s : Controller) : Controller :=
  {| camera := camera s; chunks := chunks s; lastChunkKey := lastChunkKey s;
     velocity := velocity s; targetVel := targetVel s; scrollAccum := scrollAccum s;
     keys := keys s; isDragging := isDragging s; lastMouse := lastMouse s;
     lastTouches := lastTouches s; lastTouchDist := d;
     cursor := cursor s |}.

Definition set_cursor (c : string) (s : Controller) : Controller :=
  {| camera := camera s; chunks := chunks s; lastChunkKey := lastChunkKey s;
     velocity := velocity s; targetVel := targetVel s; scrollAccum := scrollAccum s;
     keys := keys s; isDragging := isDragging s; lastMouse := lastMouse s;
     lastTouches := lastTouches s; lastTouchDist := lastTouchDist s;
     cursor := c |}.

(** [v.x += d], [v.y += d], [v.z += d]. *)
Definition addX (d : Q) (v : Vector3) : Vector3 := {| x := x v + d; y := y v; z := z v |}.
Definition addY (d : Q) (v : Vector3) : Vector3 := {| x := x v; y := y v + d; z := z v |}.
Definition addZ (d : Q) (v : Vector3) : Vector3 := {| x := x v; y := y v; z := z v + d |}.
(** [v.x -= d], [v.y -= d], [v.z -= d]. *)
Definition subX (d : Q) (v : Vector3) : Vector3 := {| x := x v - d; y := y v; z := z v |}.
Definition subY (d : Q) (v : Vector3) : Vector3 := {| x := x v; y := y v - d; z := z v |}.
Definition subZ (d : Q) (v : Vector3) : Vector3 := {| x := x v; y := y v; z := z v - d |}.
(** [v.x = f(v.x)] and likewise. *)
Definition mapX (f : Q -> Q) (v : Vector3) : Vector3 := {| x := f (x v); y := y v; z := z v |}.
Definition mapY (f : Q -> Q) (v : Vector3) : Vector3 := {| x := x v; y := f (y v); z := z v |}.
Definition mapZ (f : Q -> Q) (v : Vector3) : Vector3 := {| x := x v; y := y v; z := f (z v) |}.

Definition Qltb (a b : Q) : bool := negb (Qle_bool b a).

(** [Set.prototype.has]. *)
Definition has (k : gset string) (key : string) : bool := bool_decide (key ∈ k).

(** [String.prototype.toLowerCase] for key names made of ASCII characters,
    which every key the controller tests for is: [A]-[Z] go to [a]-[z] and
    every other byte stays.  The method also maps cased letters outside
    ASCII; statements about what a key name is stored as are made for
    [isASCII] names. *)
Definition toLowerCase_char (c : ascii) : ascii :=
  let n := Ascii.nat_of_ascii c in
  if ((65 <=? n) && (n <=? 90))%nat then Ascii.ascii_of_nat (n + 32) else c.

Fixpoint toLowerCase (s : string) : string :=
  match s with
  | EmptyString => EmptyString
  | String c s => String (toLowerCase_char c) (toLowerCase s)
  end.

(** The two fade gates of a chunk, as both the per-frame update and the
    initial-chunks effect write them. *)
Definition gridTargetOf (offset : Offset) : Q :=
  if (dist offset <=? RENDER_DISTANCE)%Z then 1
  else Qmax 0 (1 - (inject_Z (dist offset) - inject_Z RENDER_DISTANCE)
                   / Qmax (inject_Z CHUNK_FADE_MARGIN) 0.0001).

Definition depthTargetOf (absDepth : Q) : Q :=
  let depthLinear :=
    if Qle_bool absDepth DEPTH_FADE_START then 1
    else Qmax 0 (1 - (absDepth - DEPTH_FADE_START)
                     / Qmax (DEPTH_FADE_END - DEPTH_FADE_START) 0.0001) in
  depthLinear * depthLinear.

(** [prevMap]: the previous chunks by key, later entries overwriting
    earlier ones as [Map.prototype.set] does. *)
Definition prevMapOf (prev : list ChunkData) : gmap string ChunkData :=
  foldl (fun m c => <[key c := c]> m) ∅ prev.

(** The updater passed to [setChunks] in the [useFrame] callback; [cx],
    [cy], [cz] and [cameraZ] are what it closes over. *)
Definition nextChunks (cx cy cz : Z) (cameraZ : Q) (prev : list ChunkData)
  : list ChunkData :=
  let prevMap := prevMapOf prev in
  omap (fun offset =>
    let gridTarget := gridTargetOf offset in
    let chunkCenterZ := (inject_Z (cz + dz offset) + 0.5) * CHUNK_SIZE in
    let absDepth := Qabs (chunkCenterZ - cameraZ) in
    let depthTarget := depthTargetOf absDepth in
    let targetVisibility := Qmin gridTarget depthTarget in
    let keyChunk := chunkKey (cx + dx offset) (cy + dy offset) (cz + dz offset) in
    let prevChunk := prevMap !! keyChunk in
    let currentVisibility := default 0 (visibility <$> prevChunk) in
    let visibility := lerp currentVisibility targetVisibility VISIBILITY_LERP in
    if Qltb visibility 0.01 && Qeq_bool targetVisibility 0 then None
    else Some {| key := keyChunk; cx := (cx + dx offset)%Z; cy := (cy + dy offset)%Z;
                 cz := (cz + dz offset)%Z; visibility := visibility |})
    CHUNK_OFFSETS.

(** The array the mount effect passes to [setChunks]. *)
Definition initialChunks : list ChunkData :=
  (fun offset =>
    let gridTarget := gridTargetOf offset in
    let chunkCenterZ := (inject_Z (dz offset) + 0.5) * CHUNK_SIZE in
    let absDepth := Qabs chunkCenterZ in
    let depthTarget := depthTargetOf absDepth in
    let easedVisibility := Qmin gridTarget depthTarget in
    {| key := chunkKey (dx offset) (dy offset) (dz offset);
       cx := dx offset; cy := dy offset; cz := dz offset;
       visibility := easedVisibility |}) <$> CHUNK_OFFSETS.

(** The [useFrame] callback from [const k = keys.current] to the decay of
    [targetVel]. *)
Definition useFrame_motion (s : Controller) : Controller :=
  let k := keys s in
  let speed := 0.18 in
  let s := if has k "w" || has k "arrowup" then upd_targetVel (subZ speed) s else s in
  let s := if has k "s" || has k "arrowdown" then upd_targetVel (addZ speed) s else s in
  let s := if has k "a" || has k "arrowleft" then upd_targetVel (subX speed) s else s in
  let s := if has k "d" || has k "arrowright" then upd_targetVel (addX speed) s else s in
  let s := if has k "q" then upd_targetVel (subY speed) s else s in
  let s := if has k "e" then upd_targetVel (addY speed) s else s in
  let s := if has k " " then upd_targetVel (subZ (speed * 1.5)) s else s in
  let s := upd_targetVel (addZ (scrollAccum s)) s in
  let s := upd_scrollAccum (fun a => a * 0.8) s in
  let s := upd_targetVel (mapX (fun v => clamp v (- MAX_VELOCITY) MAX_VELOCITY)) s in
  let s := upd_targetVel (mapY (fun v => clamp v (- MAX_VELOCITY) MAX_VELOCITY)) s in
  let s := upd_targetVel (mapZ (fun v => clamp v (- MAX_VELOCITY) MAX_VELOCITY)) s in
  let s := upd_velocity (mapX (fun v => lerp v (x (targetVel s)) 0.16)) s in
  let s := upd_velocity (mapY (fun v => lerp v (y (targetVel s)) 0.16)) s in
  let s := upd_velocity (mapZ (fun v => lerp v (z (targetVel s)) 0.16)) s in
  let s := upd_camera (addX (x (velocity s))) s in
  let s := upd_camera (addY (y (velocity s))) s in
  let s := upd_camera (addZ (z (velocity s))) s in
  let s := upd_targetVel (mapX (fun v => v * 0.9)) s in
  let s := upd_targetVel (mapY (fun v => v * 0.9)) s in
  let s := upd_targetVel (mapZ (fun v => v * 0.9)) s in
  s.

(** The same statements in two parts: the seven key tests, and the
    integration that follows them. *)
Definition applyKeyboard (s : Controller) : Controller :=
  let k := keys s in
  let speed := 0.18 in
  let s := if has k "w" || has k "arrowup" then upd_targetVel (subZ speed) s else s in
  let s := if has k "s" || has k "arrowdown" then upd_targetVel (addZ speed) s else s in
  let s := if has k "a" || has k "arrowleft" then upd_targetVel (subX speed) s else s in
  let s := if has k "d" || has k "arrowright" then upd_targetVel (addX speed) s else s in
  let s := if has k "q" then upd_targetVel (subY speed) s else s in
  let s := if has k "e" then upd_targetVel (addY speed) s else s in
  let s := if has k " " then upd_targetVel (subZ (speed * 1.5)) s else s in
  s.

Definition integrate (s : Controller) : Controller :=
  let s := upd_targetVel (addZ (scrollAccum s)) s in
  let s := upd_scrollAccum (fun a => a * 0.8) s in
  let s := upd_targetVel (mapX (fun v => clamp v (- MAX_VELOCITY) MAX_VELOCITY)) s in
  let s := upd_targetVel (mapY (fun v => clamp v (- MAX_VELOCITY) MAX_VELOCITY)) s in
  let s := upd_targetVel (mapZ (fun v => clamp v (- MAX_VELOCITY) MAX_VELOCITY)) s in
  let s := upd_velocity (mapX (fun v => lerp v (x (targetVel s)) 0.16)) s in
  let s := upd_velocity (mapY (fun v => lerp v (y (targetVel s)) 0.16)) s in
  let s := upd_velocity (mapZ (fun v => lerp v (z (targetVel s)) 0.16)) s in
  let s := upd_camera (addX (x (velocity s))) s in
  let s := upd_camera (addY (y (velocity s))) s in
  let s := upd_camera (addZ (z (velocity s))) s in
  let s := upd_targetVel (mapX (fun v => v * 0.9)) s in
  let s := upd_targetVel (mapY (fun v => v * 0.9)) s in
  let s := upd_targetVel (mapZ (fun v => v * 0.9)) s in
  s.

(** The rest of the callback: the camera's chunk and the chunk update. *)
Definition useFrame_chunks (s : Controller) : Controller :=
  let cx := Qfloor (x (camera s) / CHUNK_SIZE) in
  let cy := Qfloor (y (camera s) / CHUNK_SIZE) in
  let cz := Qfloor (z (camera s) / CHUNK_SIZE) in
  let key := chunkKey cx cy cz in
  let s := if bool_decide (key ≠ lastChunkKey s) then set_lastChunkKey key s else s in
  upd_chunks (nextChunks cx cy cz (z (camera s))) s.

Definition useFrame (s : Controller) : Controller :=
  useFrame_chunks (useFrame_motion s).

Section Input.

(** [Math.sqrt]. *)
Variable Math_sqrt : Q -> Q.

Definition getTouchDistance (touches : list Touch) : Q :=
  match touches with
  | firstTouch :: secondTouch :: _ =>
    let dx := clientX firstTouch - clientX secondTouch in
    let dy := clientY firstTouch - clientY secondTouch in
    Math_sqrt (dx * dx + dy * dy)
  | _ => 0
  end.

Definition onKeyDown (e_key : string) (s : Controller) : Controller :=
  upd_keys (fun k => {[ toLowerCase e_key ]} ∪ k) s.

Definition onKeyUp (e_key : string) (s : Controller) : Controller :=
  upd_keys (fun k => k ∖ {[ toLowerCase e_key ]}) s.

Definition onMouseDown (e_clientX e_clientY : Q) (s : Controller) : Controller :=
  let s := set_isDragging true s in
  let s := set_lastMouse (e_clientX, e_clientY) s in
  set_cursor "grabbing" s.

Definition onMouseUp (s : Controller) : Controller :=
  let s := set_isDragging false s in
  set_cursor "grab" s.

Definition onMouseMove (e_clientX e_clientY : Q) (s : Controller) : Controller :=
  if negb (isDragging s) then s
  else
    let s := upd_targetVel (subX ((e_clientX - fst (lastMouse s)) * 0.012)) s in
    let s := upd_targetVel (addY ((e_clientY - snd (lastMouse s)) * 0.012)) s in
    set_lastMouse (e_clientX, e_clientY) s.

Definition onWheel (e_deltaY : Q) (s : Controller) : Controller :=
  upd_scrollAccum (fun a => a + e_deltaY * 0.006) s.

Definition onTouchStart (e_touches : list Touch) (s : Controller) : Controller :=
  let s := set_lastTouches e_touches s in
  let s := set_lastTouchDist (getTouchDistance (lastTouches s)) s in
  set_cursor "grabbing" s.

Definition onTouchMove (e_touches : list Touch) (s : Controller) : Controller :=
  let touches := e_touches in
  match touches, lastTouches s with
  | [touch], lastTouch :: _ =>
    let s := upd_targetVel (subX ((clientX touch - clientX lastTouch) * 0.02)) s in
    let s := upd_targetVel (addY ((clientY touch - clientY lastTouch) * 0.02)) s in
    set_lastTouches touches s
  | _, _ =>
    let s :=
      if (length touches =? 2)%nat then
        let dist := getTouchDistance touches in
        let s :=
          if Qltb 0 (lastTouchDist s)
          then upd_scrollAccum (fun a => a + (lastTouchDist s - dist) * 0.006) s
          else s in
        set_lastTouchDist dist s
      else s in
    set_lastTouches touches s
  end.

Definition onTouchEnd (e_touches : list Touch) (s : Controller) : Controller :=
  let s := set_lastTouches e_touches s in
  let s := set_lastTouchDist (getTouchDistance (lastTouches s)) s in
  set_cursor "grab" s.

(** What can happen to a mounted controller: a device event or a frame. *)
Inductive Event :=
| KeyDown (key : string)
| KeyUp (key : string)
| MouseDown (clientX clientY : Q)
| MouseUp
| MouseMove (clientX clientY : Q)
| Wheel (deltaY : Q)
| TouchStart (touches : list Touch)
| TouchMove (touches : list Touch)
| TouchEnd (touches : list Touch)
| Frame.

Definition handle (e : Event) (s : Controller) : Controller :=
  match e with
  | KeyDown k => onKeyDown k s
  | KeyUp k => onKeyUp k s
  | MouseDown cx cy => onMouseDown cx cy s
  | MouseUp => onMouseUp s
  | MouseMove cx cy => onMouseMove cx cy s
  | Wheel d => onWheel d s
  | TouchStart t => onTouchStart t s
  | TouchMove t => onTouchMove t s
  | TouchEnd t => onTouchEnd t s
  | Frame => useFrame s
  end.

(** The controller after the events of a trace, oldest first. *)
Definition run (trace : list Event) (s : Controller) : Controller :=
  foldl (fun s e => handle e s) s trace.

End Input.

(** The controller once mounted: refs at their initial values, the camera
    where the [Canvas] puts it, the cursor and the chunks as the two mount
    effects leave them. *)
Definition mounted : Controller :=
  {| camera := {| x := 0; y := 0; z := 50 |};
     chunks := initialChunks;
     lastChunkKey := "";
     velocity := {| x := 0; y := 0; z := 0 |};
     targetVel := {| x := 0; y := 0; z := 0 |};
     scrollAccum := 0;
     keys := ∅;
     isDragging := false;
     lastMouse := (0, 0);
     lastTouches := [];
     lastTouchDist := 0;
     cursor := "grab" |}.

(** The states the controller can be in. *)
Inductive reachable (Math_sqrt : Q -> Q) : Controller -> Prop :=
| reachable_mounted : reachable Math_sqrt mounted
| reachable_step e s :
    reachable Math_sqrt s -> reachable Math_sqrt (handle Math_sqrt e s).

(** ** Predicates used in the statements *)

(** Where a placement lies and how large it is. *)
Definition inChunkCube (cx cy cz : Z) (p : Vector3) : Prop :=
  (inject_Z cx * CHUNK_SIZE <= x p < (inject_Z cx + 1) * CHUNK_SIZE)
  /\ (inject_Z cy * CHUNK_SIZE <= y p < (inject_Z cy + 1) * CHUNK_SIZE)
  /\ (inject_Z cz * CHUNK_SIZE <= z p < (inject_Z cz + 1) * CHUNK_SIZE).

Definition squareBase (s : Vector3) : Prop :=
  x s = y s /\ 12 <= x s <= 20 /\ z s = 1.

(** The natural dimensions a media element reports. *)
Definition naturalDimensions (media : option MediaElement) : option (Z * Z) :=
  match media with
  | Some (HTMLImageElement naturalWidth _ naturalHeight _ _) => Some (naturalWidth, naturalHeight)
  | Some (HTMLVideoElement videoWidth videoHeight) => Some (videoWidth, videoHeight)
  | _ => None
  end.

(** [getMediaDimensions] yields no usable width or no usable height. *)
Definition dimensionsUnavailable (media : option MediaElement) : Prop :=
  match getMediaDimensions media with
  | (Some width, Some height) => width = 0%Z \/ height = 0%Z
  | _ => True
  end.

Definition squareScale (H : Q) : Vector3 := {| x := H; y := H; z := 1 |}.

(** ** The per-frame integration as the specification lists it

    Six phases over the motion state, each written from the sentence that
    describes it; [useFrame_motion] above is the code. *)

Module IntegrationSpec.

Record Motion :=
  { target : Vector3; vel : Vector3; pos : Vector3; scroll : Q }.

Definition zero : Vector3 := {| x := 0; y := 0; z := 0 |}.

Definition vadd (a b : Vector3) : Vector3 :=
  {| x := x a + x b; y := y a + y b; z := z a + z b |}.

Definition vscale (c : Q) (a : Vector3) : Vector3 :=
  {| x := c * x a; y := c * y a; z := c * z a |}.

Definition speed : Q := 0.18.

(** Forward is the negative z direction, right is positive x, up is
    positive y. *)
Definition forward : Vector3 := {| x := 0; y := 0; z := -1 |}.
Definition right : Vector3 := {| x := 1; y := 0; z := 0 |}.
Definition up : Vector3 := {| x := 0; y := 1; z := 0 |}.

(** Key bindings: the keys that trigger a nudge and the nudge. *)
Definition bindings : list (list string * Vector3) :=
  [ (["w"; "arrowup"], vscale speed forward);
    (["s"; "arrowdown"], vscale (- speed) forward);
    (["a"; "arrowleft"], vscale (- speed) right);
    (["d"; "arrowright"], vscale speed right);
    (["q"], vscale (- speed) up);
    (["e"], vscale speed up);
    ([" "], vscale (1.5 * speed) forward) ]%string.

(** The sum of the nudges of all bindings with a held key. *)
Definition keyIncrement (held : gset string) : Vector3 :=
  foldr (fun b acc =>
           if existsb (fun key => bool_decide (key ∈ held)) b.1
           then vadd b.2 acc else acc)
        zero bindings.

(** (1) apply all active key contributions to target velocity *)
Definition applyKeys (held : gset string) (m : Motion) : Motion :=
  {| target := vadd (target m) (keyIncrement held);
     vel := vel m; pos := pos m; scroll := scroll m |}.

(** (2) fold the scroll accumulator into the forward axis, drain it by 0.8 *)
Definition foldScroll (m : Motion) : Motion :=
  {| target := {| x := x (target m); y := y (target m);
                  z := z (target m) + scroll m |};
     vel := vel m; pos := pos m; scroll := 0.8 * scroll m |}.

(** (3) clamp each target-velocity axis to [-3.2, 3.2] *)
Definition clampAxis (v : Q) : Q :=
  if Qle_bool v (-3.2) then -3.2 else if Qle_bool 3.2 v then 3.2 else v.

Definition clampTarget (m : Motion) : Motion :=
  {| target := {| x := clampAxis (x (target m)); y := clampAxis (y (target m));
                  z := clampAxis (z (target m)) |};
     vel := vel m; pos := pos m; scroll := scroll m |}.

(** (4) ease velocity toward target velocity with factor 0.16 *)
Definition ease (m : Motion) : Motion :=
  {| target := target m;
     vel := vadd (vscale 0.84 (vel m)) (vscale 0.16 (target m));
     pos := pos m; scroll := scroll m |}.

(** (5) add velocity to the camera position *)
Definition move (m : Motion) : Motion :=
  {| target := target m; vel := vel m; pos := vadd (pos m) (vel m);
     scroll := scroll m |}.

(** (6) decay target velocity by 0.9 *)
Definition decay (m : Motion) : Motion :=
  {| target := vscale 0.9 (target m); vel := vel m; pos := pos m;
     scroll := scroll m |}.

(** Two motion states with equal rationals in every field. *)
Definition veq (a b : Vector3) : Prop :=
  x a == x b /\ y a == y b /\ z a == z b.

Definition meq (a b : Motion) : Prop :=
  veq (target a) (target b) /\ veq (vel a) (vel b) /\ veq (pos a) (pos b)
  /\ scroll a == scroll b.

End IntegrationSpec.

(** The motion state of a controller. *)
Definition motionOf (s : Controller) : IntegrationSpec.Motion :=
  {| IntegrationSpec.target := targetVel s; IntegrationSpec.vel := velocity s;
     IntegrationSpec.pos := camera s; IntegrationSpec.scroll := scrollAccum s |}.

(** Every axis within [bound] of zero. *)
Definition within (bound : Q) (v : Vector3) : Prop :=
  Qabs (x v) <= bound /\ Qabs (y v) <= bound /\ Qabs (z v) <= bound.

(** The displacement between two positions. *)
Definition displacement (p q : Vector3) : Vector3 :=
  {| x := x q - x p; y := y q - y p; z := z q - z p |}.

(** A stand-in for [Math.sqrt] at concrete inputs: exact wherever the
    square root of its argument is rational. *)
Definition sqrt_exact (q : Q) : Q :=
  Z.sqrt (Qnum q * QDen q) # Qden q.

(** No key held, nothing left in the scroll accumulator, no target motion
    along the view axis. *)
Definition restingAlongZ (s : Controller) : Prop :=
  keys s = ∅ /\ scrollAccum s == 0 /\ z (targetVel s) == 0.

(** ** Chunks relative to the camera *)

(** The chunk that holds the camera, as the [useFrame] callback computes it. *)
Definition cameraChunk (p : Vector3) : Z * Z * Z :=
  (Qfloor (x p / CHUNK_SIZE), Qfloor (y p / CHUNK_SIZE), Qfloor (z p / CHUNK_SIZE)).

(** [Math.max(Math.abs(dx), Math.abs(dy), Math.abs(dz))]. *)
Definition chebyshev (a b c : Z) : Z := Z.max (Z.max (Z.abs a) (Z.abs b)) (Z.abs c).

(** The offset of a chunk from the camera's chunk. *)
Definition offsetTo (p : Vector3) (c : ChunkData) : Offset :=
  let '(ccx, ccy, ccz) := cameraChunk p in
  {| dx := cx c - ccx; dy := cy c - ccy; dz := cz c - ccz;
     dist := chebyshev (cx c - ccx) (cy c - ccy) (cz c - ccz) |}.

(** The target visibility of a chunk for a camera position: the minimum of
    the grid gate and the depth gate. *)
Definition chunkTarget (p : Vector3) (c : ChunkData) : Q :=
  Qmin (gridTargetOf (offsetTo p c))
       (depthTargetOf (Qabs ((inject_Z (cz c) + 0.5) * CHUNK_SIZE - z p))).

(** What the update computes for one offset: the target, and the entry it
    pushes unless the retirement test skips it. *)
Definition targetFor (ccz : Z) (cameraZ : Q) (offset : Offset) : Q :=
  Qmin (gridTargetOf offset)
       (depthTargetOf (Qabs ((inject_Z (ccz + dz offset) + 0.5) * CHUNK_SIZE - cameraZ))).

Definition entryFor (ccx ccy ccz : Z) (cameraZ : Q) (prev : list ChunkData)
    (offset : Offset) : ChunkData :=
  let keyChunk := chunkKey (ccx + dx offset) (ccy + dy offset) (ccz + dz offset) in
  {| key := keyChunk;
     cx := (ccx + dx offset)%Z; cy := (ccy + dy offset)%Z; cz := (ccz + dz offset)%Z;
     visibility :=
       lerp (default 0 (visibility <$> prevMapOf prev !! keyChunk))
            (targetFor ccz cameraZ offset) VISIBILITY_LERP |}.

(** The chunk of the active set with a given key. *)
Fixpoint findChunk (k : string) (active : list ChunkData) : option ChunkData :=
  match active with
  | [] => None
  | c :: active => if decide (key c = k) then Some c else findChunk k active
  end.

(** Its visibility, 0 for a chunk that is not in the set. *)
Definition prevVisibility (active : list ChunkData) (k : string) : Q :=
  match findChunk k active with
  | Some c => visibility c
  | None => 0
  end.

(** How far, along one axis, the camera coordinate [p] is inside the region
    where the chunk column [X] is three or more chunks away. *)
Definition axisDepth (X : Z) (p : Q) : Q :=
  Qmax (110 * (inject_Z X - 2) - p) (p - 110 * (inject_Z X + 3)).

Definition zoneDepth (p : Vector3) (c : ChunkData) : Q :=
  Qmax (Qmax (axisDepth (cx c) (x p)) (axisDepth (cy c) (y p)))
       (axisDepth (cz c) (z p)).

(** [0.82 ^ k]: what is left of a visibility after [k] frames of easing
    toward 0. *)
Fixpoint fade (k : nat) : Q :=
  match k with
  | O => 1
  | S k => 0.82 * fade k
  end.

(** A string without a comma. *)
Fixpoint noComma (s : string) : Prop :=
  match s with
  | EmptyString => True
  | String c s => c <> ","%char /\ noComma s
  end.

(** What holds of the active set in every state the controller reaches. *)
Record chunksInvariant (s : Controller) : Prop :=
  { keys_distinct : NoDup (key <$> chunks s);
    keys_match : Forall (fun c => key c = chunkKey (cx c) (cy c) (cz c)) (chunks s);
    visibility_unit : Forall (fun c => 0 <= visibility c <= 1) (chunks s);
    velocity_bounded : within MAX_VELOCITY (velocity s);
    faded_outside :
      Forall (fun c => forall k : nat,
                inject_Z (Z.of_nat k) * MAX_VELOCITY < zoneDepth (camera s) c ->
                visibility c <= fade k) (chunks s) }.

(** * Further definitions

    The rest of [scene.tsx]: [MediaPlane] as a component with its state
    and memo cell, the frame counter of the FPS readout, and the predicates
    of the further properties below. *)

(** ** Cache entries *)

(** A texture as [getTexture] builds it for the url [u]. *)
Definition builtFor (u : string) (t : Texture) : Prop :=
  match source t with
  | LoadedImage from =>
    from = u /\ minFilter t = LinearMipmapLinearFilter /\ magFilter t = LinearFilter
    /\ generateMipmaps t = true /\ anisotropy t = 4%Z
  | VideoFrames el =>
    src el = u /\ minFilter t = LinearFilter /\ magFilter t = LinearFilter
    /\ generateMipmaps t = false
  end.

(** A video element as [getTexture] creates it for the url [u]. *)
Definition createdFor (u : string) (el : VideoElement) : Prop :=
  src el = u /\ crossOrigin el = "anonymous"%string /\ loop el = true
  /\ muted el = true /\ playsInline el = true /\ autoplay el = true.

(** What holds of the two caches over a process lifetime. *)
Record cachesInvariant (st : Store) : Prop :=
  { textures_built :
      forall u t, textureCache st !! u = Some t -> builtFor u t;
    videos_created :
      forall u el, videoElements st !! u = Some el -> createdFor u el;
    videos_cached :
      forall u el, videoElements st !! u = Some el ->
        exists t, textureCache st !! u = Some t /\ source t = VideoFrames el;
    instances_allocated :
      forall u t, textureCache st !! u = Some t -> (instance t < allocated st)%nat;
    instances_distinct :
      forall u u' t t', textureCache st !! u = Some t -> textureCache st !! u' = Some t' ->
        instance t = instance t' -> u = u' }.

(** ** What [MediaPlane] decides when it mounts

    The media effect of [MediaPlane], after it has fetched the texture:
    from the media element it finds, the plane is marked ready at once,
    or it registers a one-shot listener, or neither. *)

Inductive Readiness :=
| markedReady
| awaits (event : string)
| neither.

Definition readinessOnMount (mediaEl : option MediaElement) : Readiness :=
  match mediaEl with
  | Some (HTMLImageElement naturalWidth _ naturalHeight _ complete) =>
    if complete && (0 <? naturalWidth)%Z && (0 <? naturalHeight)%Z
    then markedReady else awaits "load"
  | Some (HTMLVideoElement videoWidth videoHeight) =>
    if (0 <? videoWidth)%Z && (0 <? videoHeight)%Z
    then markedReady else awaits "loadedmetadata"
  | Some OtherElement => neither
  | None => markedReady
  end.

(** ** The media plane as a component

    The state of one [MediaPlane] instance between renders: the [texture]
    and [isReady] states, [readyRef], the memo cell of [displayScale] and
    the event the media effect is listening for, if any.  The host's
    [texture.image] fields are a map from the [instance] of a texture to
    the media element it holds at that moment. *)

Record MediaPlaneState :=
  { plane_texture : option Texture;
    isReady : bool;
    readyRef : bool;
    displayScale_cell : option (Memo (nat * option nat) Vector3);
    listening : option string }.

(** The [<mesh>] a render returns. *)
Record Mesh := { mesh_position : Vector3; mesh_scale : Vector3 }.

Definition textureState (images : gmap nat MediaElement) (t : Texture) : TextureState :=
  {| texture := t; texture_image := images !! instance t |}.

(** [displayScale]: memoised on [[scale, texture]], two objects.
    [scale_object] is the identity of the [scale] prop and a texture is
    identified by its [instance].  What [texture.image] holds is read by
    the callback and is no dependency. *)
Definition displayScale (scale_object : nat) (scale : Vector3) (texture : option Texture)
    (images : gmap nat MediaElement) (cell : option (Memo (nat * option nat) Vector3))
  : Vector3 * Memo (nat * option nat) Vector3 :=
  useMemo (fun _ => displayScaleCallback scale (textureState images <$> texture))
          (scale_object, instance <$> texture) cell.

(** The state of an instance before its first render. *)
Definition MediaPlane_first : MediaPlaneState :=
  {| plane_texture := None; isReady := false; readyRef := false;
     displayScale_cell := None; listening := None |}.

(** One render of the component body: the hooks, then the element
    returned, [None] for [null]. *)
Definition MediaPlane (scale_object : nat) (props : MediaPlaneProps)
    (images : gmap nat MediaElement) (s : MediaPlaneState)
  : option Mesh * MediaPlaneState :=
  let '(scale, cell) :=
    displayScale scale_object (plane_scale props) (plane_texture s) images
                 (displayScale_cell s) in
  let s :=
    {| plane_texture := plane_texture s; isReady := isReady s; readyRef := readyRef s;
       displayScale_cell := Some cell; listening := listening s |} in
  match plane_texture s with
  | Some _ =>
    if isReady s
    then (Some {| mesh_position := plane_position props; mesh_scale := scale |}, s)
    else (None, s)
  | None => (None, s)
  end.

(** The media effect, run after the first render: it fetches the texture,
    reads its [image] and decides on readiness.  [images] is what the
    textures hold once [getTexture] has returned. *)
Definition MediaPlane_mediaEffect (props : MediaPlaneProps) (images : gmap nat MediaElement)
    (st : Store) (s : MediaPlaneState) : MediaPlaneState * Store :=
  let '(tex, st) := getTexture (media props) st in
  let mediaEl := tex ≫= (fun t => images !! instance t) in
  let ready :=
    match readinessOnMount mediaEl with
    | markedReady => true
    | _ => false
    end in
  ({| plane_texture := tex; isReady := ready; readyRef := ready;
      displayScale_cell := displayScale_cell s;
      listening :=
        match readinessOnMount mediaEl with
        | awaits event => Some event
        | _ => None
        end |}, st).

(** The media element dispatches [event]: the one-shot listener, if it is
    the one registered, marks the plane ready. *)
Definition MediaPlane_onMediaEvent (event : string) (s : MediaPlaneState) : MediaPlaneState :=
  match listening s with
  | Some awaited =>
    if String.eqb awaited event
    then {| plane_texture := plane_texture s; isReady := true; readyRef := true;
            displayScale_cell := displayScale_cell s; listening := None |}
    else s
  | None => s
  end.

(** Mounting: the first render, the media effect, and the render its state
    updates cause, with no host event in between. *)
Definition MediaPlane_mount (scale_object : nat) (props : MediaPlaneProps)
    (images : gmap nat MediaElement) (st : Store) : MediaPlaneState * Store :=
  let s := (MediaPlane scale_object props images MediaPlane_first).2 in
  let '(s, st) := MediaPlane_mediaEffect props images st s in
  ((MediaPlane scale_object props images s).2, st).

(** Later renders of the instance, each with the props and the texture
    images of its moment; the elements returned, in order. *)
Fixpoint MediaPlane_renders (scale_object : nat)
    (renders : list (MediaPlaneProps * gmap nat MediaElement)) (s : MediaPlaneState)
  : list (option Mesh) :=
  match renders with
  | [] => []
  | (props, images) :: renders =>
    (MediaPlane scale_object props images s).1
    :: MediaPlane_renders scale_object renders (MediaPlane scale_object props images s).2
  end.

(** A plane of base size 15 for the image [a.jpg], and the texture images
    once that image has loaded as 200 by 100 into the first texture
    allocated. *)
Definition planeOfImage : MediaPlaneProps :=
  {| plane_key := "0-0-0-0"; plane_position := {| x := 10; y := 20; z := 30 |};
     plane_scale := {| x := 15; y := 15; z := 1 |};
     media := {| url := "a.jpg"; type := image |}; plane_visibility := 1 |}.

Definition imageLoaded : gmap nat MediaElement :=
  {[ 0%nat := HTMLImageElement 200 200 100 100 true ]}.

(** ** Key names *)

(** Every character of the key name is an ASCII character. *)
Fixpoint isASCII (s : string) : bool :=
  match s with
  | EmptyString => true
  | String c s => (Ascii.nat_of_ascii c <? 128)%nat && isASCII s
  end.

(** ** Traces and decay *)

(** [0.8 ^ n]: what is left of the scroll accumulator after [n] frames. *)
Fixpoint drained (n : nat) : Q :=
  match n with
  | O => 1
  | S n => 0.8 * drained n
  end.

(** The contact of a one-finger gesture at [(a, b)], and a two-finger
    gesture. *)
Definition finger (a b : Q) : Touch := {| clientX := a; clientY := b |}.

(** ** Coasting and rest *)

(** One axis over a frame without input: the target [t] becomes [t'] and
    the velocity [v] becomes [v']; neither changes sign and the target
    loses at least a tenth. *)
Definition coasts (t v t' v' : Q) : Prop :=
  Qabs t' <= 0.9 * Qabs t
  /\ (0 <= t -> 0 <= t')
  /\ (t <= 0 -> t' <= 0)
  /\ (0 <= t -> 0 <= v -> 0 <= v')
  /\ (t <= 0 -> v <= 0 -> v' <= 0).

(** No key held and nothing in motion. *)
Definition atRest (s : Controller) : Prop :=
  keys s = ∅ /\ scrollAccum s == 0
  /\ IntegrationSpec.veq (targetVel s) IntegrationSpec.zero
  /\ IntegrationSpec.veq (velocity s) IntegrationSpec.zero.

(** ** Frames with events in between *)

(** The controller after a sequence of frames, each preceded by the device
    events that arrived since the frame before. *)
Definition framesWithEvents (Math_sqrt : Q -> Q) (steps : list (list Event))
    (s : Controller) : Controller :=
  foldl (fun s events => useFrame (run Math_sqrt events s)) s steps.

(** The target visibility of the chunk [c] is 0 on every one of those
    frames. *)
Fixpoint zeroTargetAlong (Math_sqrt : Q -> Q) (c : ChunkData)
    (steps : list (list Event)) (s : Controller) : Prop :=
  match steps with
  | [] => True
  | events :: steps =>
    chunkTarget (camera (useFrame (run Math_sqrt events s))) c == 0
    /\ zeroTargetAlong Math_sqrt c steps (useFrame (run Math_sqrt events s))
  end.

(** The position the initial chunks are computed for. *)
Definition origin : Vector3 := {| x := 0; y := 0; z := 0 |}.

(** ** Frame counter of the FPS readout

    The first statements of the [useFrame] callback: [frames] and
    [lastTime] are refs, [now] is what [performance.now()] returns on this
    frame, and the value passed to [onFpsUpdate], if any, is returned. *)

Record FpsCounter := { frames : Z; lastTime : Q }.

(** [Math.round]: the nearest integer, halves upward. *)
Definition Math_round (v : Q) : Z := Qfloor (v + 0.5).

Definition useFrame_fps (now : Q) (c : FpsCounter) : option Z * FpsCounter :=
  let frames := (frames c + 1)%Z in
  if Qle_bool 400 (now - lastTime c) then
    let fps := Math_round (inject_Z frames / ((now - lastTime c) / 1000)) in
    (Some fps, {| frames := 0; lastTime := now |})
  else (None, {| frames := frames; lastTime := lastTime c |}).

(** The reports of a sequence of frames, given the clock reading of each. *)
Fixpoint fpsReports (nows : list Q) (c : FpsCounter) : list (option Z) :=
  match nows with
  | [] => []
  | now :: nows => (useFrame_fps now c).1 :: fpsReports nows (useFrame_fps now c).2
  end.

(** The clock readings of [n] frames that arrive every [d] milliseconds
    after [t0]. *)
Definition steadyClock (t0 d : Q) (n : nat) : list Q :=
  (fun i => t0 + inject_Z (Z.of_nat i) * d) <$> seq 1 n.

(** * Properties *)

(** ** Placement generator *)

Lemma seededRandom_unit (Math_sin : Q -> Q) (seed : Q) :
  0 <= seededRandom Math_sin seed < 1.
Proof.
  unfold seededRandom.
  set (v := Math_sin (seed * 9999) * 10000).
  pose proof (Qfloor_le v) as Hlo.
  pose proof (Qlt_floor v) as Hhi.
  rewrite inject_Z_plus in Hhi.
  change (inject_Z 1) with 1 in Hhi.
  split; lra.
Qed.

Lemma generateChunkPlanes_length (Math_sin : Q -> Q) (cx cy cz mediaCount : Z) :
  length (generateChunkPlanes Math_sin cx cy cz mediaCount) = ITEMS_PER_CHUNK.
Proof. unfold generateChunkPlanes. rewrite length_fmap. apply length_seq. Qed.

Lemma generatePlane_geometry (Math_sin : Q -> Q) (cx cy cz mediaCount seed : Z) (i : nat) :
  let p := generatePlane Math_sin cx cy cz mediaCount seed i in
  squareBase (scale p) /\ inChunkCube cx cy cz (position p).
Proof.
  cbv zeta. unfold squareBase, inChunkCube, generatePlane, CHUNK_SIZE. cbn [scale position x y z].
  set (s := (seed + Z.of_nat i * 1000)%Z).
  pose proof (seededRandom_unit Math_sin (inject_Z (s + 0))) as H0.
  pose proof (seededRandom_unit Math_sin (inject_Z (s + 1))) as H1.
  pose proof (seededRandom_unit Math_sin (inject_Z (s + 2))) as H2.
  pose proof (seededRandom_unit Math_sin (inject_Z (s + 4))) as H4.
  repeat split; try reflexivity; lra.
Qed.

(** C6. [generateChunkPlanes] returns exactly [ITEMS_PER_CHUNK] = 5
    placements; each has a square base size in [12, 20] and a position
    whose every axis lies in the half-open interval of its chunk,
    [c * CHUNK_SIZE <= p < (c + 1) * CHUNK_SIZE]. *)
Theorem generateChunkPlanes_geometry (Math_sin : Q -> Q) (cx cy cz mediaCount : Z) :
  length (generateChunkPlanes Math_sin cx cy cz mediaCount) = 5%nat
  /\ Forall (fun p => squareBase (scale p) /\ inChunkCube cx cy cz (position p))
            (generateChunkPlanes Math_sin cx cy cz mediaCount).
Proof.
  split; [apply generateChunkPlanes_length|].
  unfold generateChunkPlanes. apply Forall_fmap, Forall_forall.
  intros i _. apply generatePlane_geometry.
Qed.

Lemma Chunk_planes_kept (Math_sin : Q -> Q) (cx cy cz : Z) (media : list MediaItem)
    (cell : option (Memo (Z * Z * Z * Z) (list PlaneData))) :
  planesKept Math_sin cell ->
  (Chunk_planes Math_sin cx cy cz media cell).1
  = generateChunkPlanes Math_sin cx cy cz (Z.of_nat (length media))
  /\ planesKept Math_sin (Some (Chunk_planes Math_sin cx cy cz media cell).2).
Proof.
  intros Hkept. unfold Chunk_planes, useMemo.
  destruct cell as [[[[[a b] c] n] planes]|]; [|by split].
  cbn [memo_deps memo_value planesKept] in *.
  destruct (decide ((a, b, c, n) = (cx, cy, cz, Z.of_nat (length media)))) as [Heq|Hne].
  - injection Heq as -> -> -> ->. cbn [fst snd planesKept memo_deps memo_value]. by split.
  - by split.
Qed.

Lemma Chunk_rendered_kept (Math_sin : Q -> Q) (history : list (Z * Z * Z * list MediaItem))
    (cell : option (Memo (Z * Z * Z * Z) (list PlaneData))) :
  planesKept Math_sin cell -> planesKept Math_sin (Chunk_rendered Math_sin history cell).
Proof.
  revert cell. induction history as [|[[[cx cy] cz] media] history IH]; intros cell Hkept.
  - exact Hkept.
  - cbn [Chunk_rendered]. apply IH, Chunk_planes_kept, Hkept.
Qed.

(** C1. Placement generation is deterministic.  A [Chunk] takes its
    placements from [generateChunkPlanes] through a memo cell; whatever an
    instance has rendered before, and so whether the call is made afresh or
    its earlier result is reused, the placements for chunk coordinates
    [(cx, cy, cz)] and a media count are the list [generateChunkPlanes]
    returns for them, and two instances with different histories get the
    same list, entry by entry in the same order: same ids, same positions,
    same sizes, same media slot indices. *)
Theorem generateChunkPlanes_deterministic (Math_sin : Q -> Q) (cx cy cz : Z)
    (media media' : list MediaItem) (history history' : list (Z * Z * Z * list MediaItem)) :
  length media = length media' ->
  let first :=
    (Chunk_planes Math_sin cx cy cz media (Chunk_rendered Math_sin history None)).1 in
  let second :=
    (Chunk_planes Math_sin cx cy cz media' (Chunk_rendered Math_sin history' None)).1 in
  first = generateChunkPlanes Math_sin cx cy cz (Z.of_nat (length media))
  /\ first = second
  /\ forall i : nat,
       id <$> first !! i = id <$> second !! i
       /\ position <$> first !! i = position <$> second !! i
       /\ scale <$> first !! i = scale <$> second !! i
       /\ mediaIndex <$> first !! i = mediaIndex <$> second !! i.
Proof.
  intros Hlen first second.
  assert (first = generateChunkPlanes Math_sin cx cy cz (Z.of_nat (length media))) as Hfirst.
  { apply Chunk_planes_kept, Chunk_rendered_kept. exact I. }
  assert (second = generateChunkPlanes Math_sin cx cy cz (Z.of_nat (length media))) as Hsecond.
  { rewrite Hlen. apply Chunk_planes_kept, Chunk_rendered_kept. exact I. }
  split; [exact Hfirst|]. rewrite Hfirst, Hsecond. split; [reflexivity|].
  intros i. repeat split.
Qed.

Lemma generateChunkPlanes_deterministic_witness :
  (Chunk_planes (fun q => q) 3 (-1) 0
     [ {| url := "a.jpg"; type := image |}; {| url := "b.mp4"; type := video |} ]
     (Chunk_rendered (fun q => q)
        [ (3, -1, 0, [ {| url := "a.jpg"; type := image |} ]);
          (3, -1, 0, [ {| url := "a.jpg"; type := image |};
                       {| url := "b.mp4"; type := video |} ]);
          (4, -1, 0, [ {| url := "a.jpg"; type := image |} ]) ]%Z None)).1
  = (Chunk_planes (fun q => q) 3 (-1) 0
       [ {| url := "c.png"; type := image |}; {| url := "d.png"; type := image |} ]
       None).1.
Proof.
  exact (proj1 (proj2 (generateChunkPlanes_deterministic (fun q => q) 3 (-1) 0
                         [ {| url := "a.jpg"; type := image |};
                           {| url := "b.mp4"; type := video |} ]
                         [ {| url := "c.png"; type := image |};
                           {| url := "d.png"; type := image |} ]
                         [ (3, -1, 0, [ {| url := "a.jpg"; type := image |} ]);
                           (3, -1, 0, [ {| url := "a.jpg"; type := image |};
                                        {| url := "b.mp4"; type := video |} ]);
                           (4, -1, 0, [ {| url := "a.jpg"; type := image |} ]) ]%Z
                         [] eq_refl))).
Defined.

(** ** Texture cache *)

Lemma getTexture_returns (item : MediaItem) (st : Store) :
  exists t, (getTexture item st).1 = Some t
            /\ textureCache (getTexture item st).2 !! url item = Some t.
Proof.
  unfold getTexture.
  destruct (textureCache st !! url item) as [t|] eqn:Hc.
  - exists t. done.
  - destruct (type item).
    + eexists. cbn. split; [reflexivity|]. apply lookup_insert_eq.
    + destruct (videoElements st !! url item); eexists; cbn;
        (split; [reflexivity|]); apply lookup_insert_eq.
Qed.

Lemma getTexture_keeps (item : MediaItem) (st : Store) (u : string) (t : Texture) :
  textureCache st !! u = Some t ->
  textureCache (getTexture item st).2 !! u = Some t.
Proof.
  intros Hu. unfold getTexture.
  destruct (textureCache st !! url item) as [t'|] eqn:Hc; [done|].
  assert (url item <> u) as Hne by congruence.
  destruct (type item).
  - cbn. by rewrite lookup_insert_ne.
  - destruct (videoElements st !! url item); cbn; by rewrite lookup_insert_ne.
Qed.

Lemma getTexture_hit (item : MediaItem) (st : Store) (t : Texture) :
  textureCache st !! url item = Some t ->
  getTexture item st = (Some t, st).
Proof. intros Hc. unfold getTexture. by rewrite Hc. Qed.

Lemma getTextures_cons (item : MediaItem) (calls : list MediaItem) (st : Store) :
  getTextures (item :: calls) st
  = ((getTexture item st).1 :: (getTextures calls (getTexture item st).2).1,
     (getTextures calls (getTexture item st).2).2).
Proof.
  cbn. destruct (getTexture item st) as [t st1]. cbn.
  by destruct (getTextures calls st1).
Qed.

(** A cached texture is what every later request for its url gets. *)
Lemma getTextures_cached (calls : list MediaItem) (st : Store) (u : string) (t : Texture) :
  textureCache st !! u = Some t ->
  textureCache (getTextures calls st).2 !! u = Some t
  /\ forall j b, calls !! j = Some b -> url b = u ->
       (getTextures calls st).1 !! j = Some (Some t).
Proof.
  revert st. induction calls as [|item calls IH]; intros st Hu.
  - split; [done|]. intros j b Hj. by rewrite lookup_nil in Hj.
  - rewrite getTextures_cons. cbn [fst snd].
    pose proof (getTexture_keeps item st u t Hu) as Hk.
    destruct (IH _ Hk) as [IH1 IH2]. split; [done|].
    intros [|j] b Hj Hb; cbn in Hj |- *.
    + injection Hj as ->. subst u. by rewrite (getTexture_hit _ _ _ Hu).
    + by eapply IH2.
Qed.

Lemma getTextures_same_instance (calls : list MediaItem) (st : Store) :
  forall i j a b, calls !! i = Some a -> calls !! j = Some b -> url a = url b ->
    exists t, (getTextures calls st).1 !! i = Some (Some t)
              /\ (getTextures calls st).1 !! j = Some (Some t).
Proof.
  revert st. induction calls as [|item calls IH]; intros st i j a b Hi Hj Hab.
  - by rewrite lookup_nil in Hi.
  - rewrite getTextures_cons. cbn [fst].
    destruct (getTexture_returns item st) as (t & Hret & Hcache).
    pose proof (getTextures_cached calls _ _ _ Hcache) as [_ Hlater].
    destruct i as [|i], j as [|j]; cbn in Hi, Hj |- *.
    + exists t. by rewrite Hret.
    + injection Hi as ->. exists t. rewrite Hret. split; [done|].
      eapply Hlater; [done|]. by symmetry.
    + injection Hj as ->. exists t. rewrite Hret. split; [|done].
      by eapply Hlater.
    + by eapply IH.
Qed.

(** Loads only ever start for urls that end up cached. *)
Definition loadsTracked (st : Store) : Prop :=
  forall u, (loadsOf u st <= 1)%nat
            /\ (textureCache st !! u = None -> loadsOf u st = 0%nat).

Lemma getTexture_loadsTracked (item : MediaItem) (st : Store) :
  loadsTracked st -> loadsTracked (getTexture item st).2.
Proof.
  intros Hst u. destruct (Hst u) as [Hle Hzero].
  destruct (Hst (url item)) as [_ Hzero0].
  unfold getTexture.
  destruct (textureCache st !! url item) as [t'|] eqn:Hc; [done|].
  specialize (Hzero0 eq_refl).
  unfold loadsOf in *.
  destruct (type item); [|destruct (videoElements st !! url item) as [el|]];
    cbn [snd textureCache imageLoads videosCreated];
    rewrite ?filter_app, ?length_app, ?filter_cons, ?filter_nil;
    (destruct (decide (url item = u)) as [Heq|Hne];
     [subst u; rewrite lookup_insert_eq; cbn [length]; split; [lia|done]
     |rewrite lookup_insert_ne by done; cbn [length]; split; [lia|];
      intros H; specialize (Hzero H); lia]).
Qed.

Lemma getTextures_loadsTracked (calls : list MediaItem) (st : Store) :
  loadsTracked st -> loadsTracked (getTextures calls st).2.
Proof.
  revert st. induction calls as [|item calls IH]; intros st Hst; [done|].
  rewrite getTextures_cons. cbn [snd]. by apply IH, getTexture_loadsTracked.
Qed.

Lemma emptyStore_loadsTracked : loadsTracked emptyStore.
Proof. intros u. split; [cbn; lia|done]. Qed.

(** C4. Over a process lifetime (any sequence of [getTexture] calls from
    the empty caches), two calls whose items have the same url return the
    identical texture instance, and for every url at most one underlying
    load is ever started: [TextureLoader] loads and created video
    elements together number at most one. *)
Theorem getTexture_deduplicates (calls : list MediaItem) :
  (forall i j a b, calls !! i = Some a -> calls !! j = Some b -> url a = url b ->
     exists t, (getTextures calls emptyStore).1 !! i = Some (Some t)
               /\ (getTextures calls emptyStore).1 !! j = Some (Some t))
  /\ (forall u, (loadsOf u (getTextures calls emptyStore).2 <= 1)%nat).
Proof.
  split.
  - apply getTextures_same_instance.
  - intros u. apply (getTextures_loadsTracked calls emptyStore emptyStore_loadsTracked u).
Qed.

(** ** Media plane *)

Lemma getMediaDimensions_natural (media : option MediaElement) (w h : Z) :
  (0 < w)%Z -> (0 < h)%Z -> naturalDimensions media = Some (w, h) ->
  getMediaDimensions media = (Some w, Some h).
Proof.
  intros Hw Hh. unfold naturalDimensions, getMediaDimensions, JS.orNum.
  destruct media as [[nw wd nh ht c|vw vh|]|]; intros [= -> ->]; [|done].
  destruct (Z.eqb_spec w 0), (Z.eqb_spec h 0); (lia || done).
Qed.

Lemma displayScaleCallback_unavailable (scale : Vector3) (ts : TextureState) :
  dimensionsUnavailable (texture_image ts) ->
  displayScaleCallback scale (Some ts) = scale.
Proof.
  unfold dimensionsUnavailable, displayScaleCallback.
  destruct (getMediaDimensions (texture_image ts)) as [[width|] [height|]]; try done.
  intros [-> | ->]; [done|]. by rewrite orb_true_r.
Qed.

Lemma getTexture_first_image (item : MediaItem) (st : Store) :
  type item = image -> textureCache st !! url item = None ->
  exists t st', getTexture item st = (Some t, st') /\ instance t = allocated st.
Proof.
  intros Htype Hmiss. unfold getTexture. rewrite Hmiss, Htype. eexists _, _. by split.
Qed.

(** A render whose dependencies are the kept ones returns the kept scale,
    whatever the texture's image holds by then, and keeps the cell. *)
Lemma MediaPlane_keeps_scale (scale_object : nat) (props : MediaPlaneProps)
    (images : gmap nat MediaElement) (s : MediaPlaneState) (t : Texture) (kept : Vector3) :
  plane_texture s = Some t -> isReady s = true ->
  displayScale_cell s
  = Some {| memo_deps := (scale_object, Some (instance t)); memo_value := kept |} ->
  MediaPlane scale_object props images s
  = (Some {| mesh_position := plane_position props; mesh_scale := kept |}, s).
Proof.
  intros Htex Hready Hcell. unfold MediaPlane, displayScale, useMemo.
  rewrite Hcell, Htex. cbn [fmap option_fmap option_map memo_deps memo_value].
  destruct (decide ((scale_object, Some (instance t)) = (scale_object, Some (instance t))))
    as [_|Hne]; [|done].
  cbn [plane_texture isReady]. rewrite Hready. f_equal.
  destruct s; cbn in *. by subst.
Qed.

Lemma MediaPlane_renders_keep_scale (scale_object : nat)
    (later : list (MediaPlaneProps * gmap nat MediaElement)) (s : MediaPlaneState)
    (t : Texture) (kept : Vector3) :
  plane_texture s = Some t -> isReady s = true ->
  displayScale_cell s
  = Some {| memo_deps := (scale_object, Some (instance t)); memo_value := kept |} ->
  Forall2 (fun render out =>
             out = Some {| mesh_position := plane_position render.1; mesh_scale := kept |})
          later (MediaPlane_renders scale_object later s).
Proof.
  intros Htex Hready Hcell. induction later as [|[props images] later IH]; [constructor|].
  cbn [MediaPlane_renders].
  rewrite (MediaPlane_keeps_scale scale_object props images s t kept Htex Hready Hcell).
  constructor; [reflexivity|exact IH].
Qed.

Lemma MediaPlane_first_render (scale_object : nat) (props : MediaPlaneProps)
    (images : gmap nat MediaElement) :
  MediaPlane scale_object props images MediaPlane_first
  = (None,
     {| plane_texture := None; isReady := false; readyRef := false;
        displayScale_cell :=
          Some {| memo_deps := (scale_object, None); memo_value := plane_scale props |};
        listening := None |}).
Proof. reflexivity. Qed.

Lemma MediaPlane_mount_first_image (scale_object : nat) (props : MediaPlaneProps)
    (images : gmap nat MediaElement) (st : Store) :
  type (media props) = image ->
  textureCache st !! url (media props) = None ->
  images !! allocated st = None ->
  exists t,
    (getTexture (media props) st).1 = Some t
    /\ instance t = allocated st
    /\ (MediaPlane_mount scale_object props images st).1
       = {| plane_texture := Some t; isReady := true; readyRef := true;
            displayScale_cell :=
              Some {| memo_deps := (scale_object, Some (instance t));
                      memo_value := plane_scale props |};
            listening := None |}.
Proof.
  intros Htype Hmiss Himg.
  destruct (getTexture_first_image _ st Htype Hmiss) as (t & st' & Hget & Hinst).
  exists t. rewrite Hget. split; [reflexivity|]. split; [exact Hinst|].
  unfold MediaPlane_mount. rewrite MediaPlane_first_render. cbn [snd].
  unfold MediaPlane_mediaEffect. rewrite Hget.
  unfold mbind, option_bind. rewrite Hinst, Himg.
  cbn [readinessOnMount displayScale_cell fst snd].
  unfold MediaPlane, displayScale, useMemo.
  cbn [displayScale_cell plane_texture isReady readyRef listening fst snd
       fmap option_fmap option_map memo_deps memo_value].
  destruct (decide ((scale_object, None) = (scale_object, Some (instance t)))) as [Heq|_];
    [discriminate Heq|].
  cbn [fst snd]. unfold textureState. rewrite Hinst, Himg.
  reflexivity.
Qed.
Lemma aspect_differs (H : Q) (w h : Z) :
  (0 < h)%Z -> w <> h -> ~ H == 0 -> ~ H == H * inject_Z w / inject_Z h.
Proof.
  intros Hh Hwh HH Heq.
  assert (0 < inject_Z h) as Hqh by (change 0 with (inject_Z 0); rewrite <- Zlt_Qlt; lia).
  assert (H * inject_Z h == H * inject_Z w) as Hmul.
  { etransitivity; [apply (Qmult_comp _ _ Heq _ _ (Qeq_refl (inject_Z h)))|]. field. lra. }
  assert (H * (inject_Z h - inject_Z w) == 0) as Hzero.
  { transitivity (H * inject_Z h - H * inject_Z w); [ring|]. rewrite Hmul. ring. }
  apply Qmult_integral in Hzero as [Hzero|Hzero]; [by apply HH|].
  apply Hwh. symmetry. apply (inject_Z_injective h w). lra.
Qed.

(** C8. Aspect preservation fails for media that arrives after the plane
    has mounted.  A plane with base size [H] mounts for an image whose url
    is not cached yet, so that the new texture holds no image: the plane is
    marked ready at once and [displayScale] is memoised with the square
    scale.  On every later render with the same [scale] object, whatever
    the texture's image holds by then, the mesh has the scale [(H, H, 1)];
    when the image reports natural dimensions [(w, h)] with [w <> h] that
    is not [(H*w/h, H, 1)]. *)
Theorem displayScale_stale_after_load (H : Q) (scale_object : nat)
    (props : MediaPlaneProps) (st : Store) (images : gmap nat MediaElement)
    (later : list (MediaPlaneProps * gmap nat MediaElement)) :
  plane_scale props = squareScale H ->
  type (media props) = image ->
  textureCache st !! url (media props) = None ->
  images !! allocated st = None ->
  exists t,
    (getTexture (media props) st).1 = Some t
    /\ Forall2 (fun render out =>
                  out = Some {| mesh_position := plane_position render.1;
                                mesh_scale := squareScale H |}
                  /\ forall w h,
                       naturalDimensions (render.2 !! instance t) = Some (w, h) ->
                       (0 < w)%Z -> (0 < h)%Z -> w <> h -> ~ H == 0 ->
                       forall mesh, out = Some mesh ->
                         ~ x (mesh_scale mesh) == H * inject_Z w / inject_Z h)
               later
               (MediaPlane_renders scale_object later
                  (MediaPlane_mount scale_object props images st).1).
Proof.
  intros Hscale Htype Hmiss Himg.
  destruct (MediaPlane_mount_first_image scale_object props images st Htype Hmiss Himg)
    as (t & Hget & Hinst & Hmount).
  exists t. split; [exact Hget|].
  rewrite Hmount, Hscale.
  eapply Forall2_impl.
  - apply (MediaPlane_renders_keep_scale scale_object later _ t (squareScale H));
      reflexivity.
  - intros render out Hout. split; [exact Hout|].
    intros w h _ _ Hh Hwh HH mesh Hmesh. rewrite Hout in Hmesh.
    injection Hmesh as <-. cbn [mesh_scale squareScale x].
    by apply aspect_differs.
Qed.

Lemma displayScale_stale_after_load_witness :
  exists t,
    (getTexture (media planeOfImage) emptyStore).1 = Some t
    /\ Forall2 (fun render out =>
                  out = Some {| mesh_position := plane_position render.1;
                                mesh_scale := squareScale 15 |}
                  /\ forall w h,
                       naturalDimensions (render.2 !! instance t) = Some (w, h) ->
                       (0 < w)%Z -> (0 < h)%Z -> w <> h -> ~ 15 == 0 ->
                       forall mesh, out = Some mesh ->
                         ~ x (mesh_scale mesh) == 15 * inject_Z w / inject_Z h)
               [ (planeOfImage, imageLoaded) ]
               (MediaPlane_renders 7 [ (planeOfImage, imageLoaded) ]
                  (MediaPlane_mount 7 planeOfImage ∅ emptyStore).1).
Proof.
  exact (displayScale_stale_after_load 15 7 planeOfImage emptyStore ∅
           [ (planeOfImage, imageLoaded) ] eq_refl eq_refl eq_refl eq_refl).
Defined.

(** The trace of the witness, evaluated: the image has loaded as 200 by
    100, a fresh computation would give 30 by 15, and the plane shows 15
    by 15. *)
Lemma displayScale_stale_example :
  MediaPlane_renders 7 [ (planeOfImage, imageLoaded) ]
    (MediaPlane_mount 7 planeOfImage ∅ emptyStore).1
  = [ Some {| mesh_position := {| x := 10; y := 20; z := 30 |};
              mesh_scale := {| x := 15; y := 15; z := 1 |} |} ]
  /\ (forall t, (getTexture (media planeOfImage) emptyStore).1 = Some t ->
       naturalDimensions (imageLoaded !! instance t) = Some (200, 100)%Z
       /\ x (displayScaleCallback (plane_scale planeOfImage)
               (Some (textureState imageLoaded t))) == 30).
Proof.
  split; [vm_compute; reflexivity|].
  intros t [= <-]. split; vm_compute; reflexivity.
Qed.

(** The same for a video: its element reports no dimensions when the
    plane mounts, the scale is memoised square, and the metadata event
    only marks the plane ready. *)
Lemma displayScale_stale_after_metadata (H : Q) (scale_object : nat)
    (props : MediaPlaneProps) (st : Store) (images : gmap nat MediaElement)
    (later : list (MediaPlaneProps * gmap nat MediaElement)) (t : Texture) (st' : Store) :
  plane_scale props = squareScale H ->
  getTexture (media props) st = (Some t, st') ->
  images !! instance t = Some (HTMLVideoElement 0 0) ->
  Forall2 (fun render out =>
             out = Some {| mesh_position := plane_position render.1;
                           mesh_scale := squareScale H |})
          later
          (MediaPlane_renders scale_object later
             (MediaPlane_onMediaEvent "loadedmetadata"
                (MediaPlane_mount scale_object props images st).1)).
Proof.
  intros Hscale Hget Himg.
  assert ((MediaPlane_mount scale_object props images st).1
          = {| plane_texture := Some t; isReady := false; readyRef := false;
               displayScale_cell :=
                 Some {| memo_deps := (scale_object, Some (instance t));
                         memo_value := squareScale H |};
               listening := Some "loadedmetadata"%string |}) as ->.
  { unfold MediaPlane_mount. rewrite MediaPlane_first_render. cbn [snd].
    unfold MediaPlane_mediaEffect. rewrite Hget. unfold mbind, option_bind. rewrite Himg.
    cbn [readinessOnMount Z.ltb Z.compare andb displayScale_cell fst snd].
    unfold MediaPlane, displayScale, useMemo.
    cbn [displayScale_cell plane_texture isReady readyRef listening fst snd
         fmap option_fmap option_map memo_deps memo_value].
    destruct (decide ((scale_object, None) = (scale_object, Some (instance t)))) as [Heq|_];
      [discriminate Heq|].
    cbn [fst snd]. rewrite displayScaleCallback_unavailable, Hscale; [reflexivity|].
    unfold textureState. cbn [texture_image]. rewrite Himg. by left. }
  apply (MediaPlane_renders_keep_scale scale_object later _ t (squareScale H));
    reflexivity.
Qed.

(** ** Chunk renderer and scene root *)

Lemma Chunk_entries (Math_sin : Q -> Q) (cx cy cz : Z) (items : list MediaItem) (v : Q) :
  Forall (fun entry => forall props, entry = Some props -> media props ∈ items)
         (Chunk Math_sin cx cy cz items v).
Proof.
  unfold Chunk. apply Forall_fmap, Forall_forall. intros plane _ props. cbn.
  destruct (JS.index items _) as [mediaItem|] eqn:Hidx; [|done].
  intros [= <-]. cbn.
  unfold JS.index in Hidx. destruct (JS.rem _ _) as [i|]; [|done].
  destruct (i <? 0)%Z; [done|]. by eapply list_elem_of_lookup_2.
Qed.

(** C9. With an empty media list the scene root returns [null] before
    mounting the canvas, and the chunk renderer skips every placement: the
    index [mediaIndex % 0] is [NaN], the lookup yields no item, and nothing
    is rendered from it.  For any media list, a placement is rendered only
    with an item that the list holds. *)
Theorem empty_media_renders_nothing (Math_sin : Q -> Q) (cx cy cz : Z) (v : Q) :
  InfiniteCanvasScene [] = None
  /\ Chunk Math_sin cx cy cz [] v = [None; None; None; None; None]
  /\ Forall (fun plane => JS.rem (mediaIndex plane) 0 = None)
            (generateChunkPlanes Math_sin cx cy cz 0)
  /\ forall items : list MediaItem,
       Forall (fun entry => forall props, entry = Some props -> media props ∈ items)
              (Chunk Math_sin cx cy cz items v).
Proof.
  repeat split.
  - apply Forall_forall. done.
  - intros items. apply Chunk_entries.
Qed.

(** ** Per-frame integration *)

Lemma clamp_cases (v lo hi : Q) :
  lo <= hi ->
  (v <= lo /\ clamp v lo hi == lo)
  \/ (hi <= v /\ clamp v lo hi == hi)
  \/ (lo <= v <= hi /\ clamp v lo hi == v).
Proof.
  intros Hlh. unfold clamp.
  destruct (Q.min_spec hi v) as [[H1 ->]|[H1 ->]];
    destruct (Q.max_spec lo hi) as [[H2 H2']|[H2 H2']];
    destruct (Q.max_spec lo v) as [[H3 H3']|[H3 H3']];
    rewrite ?H2', ?H3'; lra.
Qed.

Lemma clamp_spec_axis (v : Q) :
  clamp v (- MAX_VELOCITY) MAX_VELOCITY == IntegrationSpec.clampAxis v.
Proof.
  unfold IntegrationSpec.clampAxis, MAX_VELOCITY.
  destruct (clamp_cases v (- 3.2) 3.2) as [[H ->]|[[H ->]|[H ->]]]; [lra| | |].
  - destruct (Qle_bool v (-3.2)) eqn:E; [reflexivity|].
    rewrite <- Qle_bool_iff in H. congruence.
  - destruct (Qle_bool v (-3.2)) eqn:E; [rewrite Qle_bool_iff in E; lra|].
    destruct (Qle_bool 3.2 v) eqn:E'; [reflexivity|].
    rewrite <- Qle_bool_iff in H. congruence.
  - destruct (Qle_bool v (-3.2)) eqn:E; [rewrite Qle_bool_iff in E; lra|].
    destruct (Qle_bool 3.2 v) eqn:E'; [rewrite Qle_bool_iff in E'; lra|reflexivity].
Qed.

#[local] Instance clamp_proper : Proper (Qeq ==> Qeq ==> Qeq ==> Qeq) clamp.
Proof. intros a a' Ha b b' Hb c c' Hc. unfold clamp. by rewrite Ha, Hb, Hc. Qed.

#[local] Instance lerp_proper : Proper (Qeq ==> Qeq ==> Qeq ==> Qeq) lerp.
Proof. intros a a' Ha b b' Hb c c' Hc. unfold lerp. by rewrite Ha, Hb, Hc. Qed.

#[local] Instance clampAxis_proper : Proper (Qeq ==> Qeq) IntegrationSpec.clampAxis.
Proof. intros a a' Ha. by rewrite <- !clamp_spec_axis, Ha. Qed.

Lemma keyIncrement_unfold (held : gset string) :
  IntegrationSpec.keyIncrement held
  = let inc (b : bool) (d acc : Vector3) :=
        if b then IntegrationSpec.vadd d acc else acc in
    let open := IntegrationSpec.vscale in
    inc (has held "w" || has held "arrowup") (open 0.18 IntegrationSpec.forward)
   (inc (has held "s" || has held "arrowdown") (open (- 0.18) IntegrationSpec.forward)
   (inc (has held "a" || has held "arrowleft") (open (- 0.18) IntegrationSpec.right)
   (inc (has held "d" || has held "arrowright") (open 0.18 IntegrationSpec.right)
   (inc (has held "q") (open (- 0.18) IntegrationSpec.up)
   (inc (has held "e") (open 0.18 IntegrationSpec.up)
   (inc (has held " ") (open (1.5 * 0.18) IntegrationSpec.forward)
        IntegrationSpec.zero)))))).
Proof.
  unfold IntegrationSpec.keyIncrement, IntegrationSpec.bindings, has.
  cbn [foldr existsb fst snd]. rewrite !orb_false_r. reflexivity.
Qed.

(** The callback in two parts: the key tests, then the integration. *)
Lemma useFrame_motion_split (s : Controller) :
  useFrame_motion s = integrate (applyKeyboard s).
Proof. reflexivity. Qed.

Lemma applyKeyboard_fields (s : Controller) :
  IntegrationSpec.veq (targetVel (applyKeyboard s))
    (IntegrationSpec.vadd (targetVel s) (IntegrationSpec.keyIncrement (keys s)))
  /\ camera (applyKeyboard s) = camera s
  /\ velocity (applyKeyboard s) = velocity s
  /\ scrollAccum (applyKeyboard s) = scrollAccum s
  /\ keys (applyKeyboard s) = keys s
  /\ chunks (applyKeyboard s) = chunks s
  /\ lastChunkKey (applyKeyboard s) = lastChunkKey s
  /\ (isDragging (applyKeyboard s), lastMouse (applyKeyboard s))
     = (isDragging s, lastMouse s)
  /\ (lastTouches (applyKeyboard s), lastTouchDist (applyKeyboard s))
     = (lastTouches s, lastTouchDist s).
Proof.
  rewrite keyIncrement_unfold. unfold applyKeyboard, IntegrationSpec.veq.
  generalize (has (keys s) "w" || has (keys s) "arrowup").
  generalize (has (keys s) "s" || has (keys s) "arrowdown").
  generalize (has (keys s) "a" || has (keys s) "arrowleft").
  generalize (has (keys s) "d" || has (keys s) "arrowright").
  generalize (has (keys s) "q"), (has (keys s) "e"), (has (keys s) " ").
  intros b7 b6 b5 b4 b3 b2 b1.
  destruct s as [cam ch lk vel [tx ty tz] acc k dr lm lt ltd cur].
  destruct b1, b2, b3, b4, b5, b6, b7; cbn; repeat split; lra.
Qed.

Lemma integrate_fields (s : Controller) :
  let M := MAX_VELOCITY in
  let tx := clamp (x (targetVel s)) (- M) M in
  let ty := clamp (y (targetVel s)) (- M) M in
  let tz := clamp (z (targetVel s) + scrollAccum s) (- M) M in
  let vx := lerp (x (velocity s)) tx 0.16 in
  let vy := lerp (y (velocity s)) ty 0.16 in
  let vz := lerp (z (velocity s)) tz 0.16 in
  integrate s
  = {| camera := {| x := x (camera s) + vx; y := y (camera s) + vy;
                    z := z (camera s) + vz |};
       chunks := chunks s; lastChunkKey := lastChunkKey s;
       velocity := {| x := vx; y := vy; z := vz |};
       targetVel := {| x := tx * 0.9; y := ty * 0.9; z := tz * 0.9 |};
       scrollAccum := scrollAccum s * 0.8;
       keys := keys s; isDragging := isDragging s; lastMouse := lastMouse s;
       lastTouches := lastTouches s; lastTouchDist := lastTouchDist s;
       cursor := cursor s |}.
Proof. reflexivity. Qed.

(** C5. Within one frame the controller (1) adds the per-key increments to
    target velocity, (2) adds the scroll accumulator to the forward axis and
    multiplies the accumulator by 0.8, (3) clamps each target-velocity axis
    to [-3.2, 3.2], (4) moves velocity toward the target by factor 0.16,
    (5) adds velocity to the camera position and (6) multiplies target
    velocity by 0.9, in that order: the motion state the code leaves is the
    composition of the six phases, and nothing else of the controller
    changes. *)
Theorem useFrame_motion_order (s : Controller) :
  IntegrationSpec.meq
    (motionOf (useFrame_motion s))
    (IntegrationSpec.decay
       (IntegrationSpec.move
          (IntegrationSpec.ease
             (IntegrationSpec.clampTarget
                (IntegrationSpec.foldScroll
                   (IntegrationSpec.applyKeys (keys s) (motionOf s)))))))
  /\ keys (useFrame_motion s) = keys s
  /\ chunks (useFrame_motion s) = chunks s
  /\ lastChunkKey (useFrame_motion s) = lastChunkKey s
  /\ (isDragging (useFrame_motion s), lastMouse (useFrame_motion s))
     = (isDragging s, lastMouse s)
  /\ (lastTouches (useFrame_motion s), lastTouchDist (useFrame_motion s))
     = (lastTouches s, lastTouchDist s).
Proof.
  rewrite useFrame_motion_split, integrate_fields.
  destruct (applyKeyboard_fields s)
    as ((Hx & Hy & Hz) & Hcam & Hvel & Hacc & Hk & Hch & Hlk & Hdrag & Htouch).
  cbn [keys chunks lastChunkKey isDragging lastMouse lastTouches lastTouchDist].
  repeat split; try assumption.
  all: unfold motionOf, IntegrationSpec.applyKeys;
    set (K := IntegrationSpec.keyIncrement (keys s)) in *; clearbody K;
    cbn -[clamp lerp Qplus Qmult Qminus Qopp Qdiv];
    rewrite ?Hcam, ?Hvel, ?Hacc, ?clamp_spec_axis, ?Hx, ?Hy, ?Hz;
    unfold lerp; cbn [IntegrationSpec.vadd x y z]; ring.
Qed.

(** ** Bounded motion *)

Lemma useFrame_chunks_motion (s : Controller) :
  camera (useFrame_chunks s) = camera s
  /\ velocity (useFrame_chunks s) = velocity s
  /\ targetVel (useFrame_chunks s) = targetVel s
  /\ scrollAccum (useFrame_chunks s) = scrollAccum s
  /\ keys (useFrame_chunks s) = keys s.
Proof. unfold useFrame_chunks. by case_bool_decide. Qed.

Lemma clamp_bounds (v : Q) :
  - MAX_VELOCITY <= clamp v (- MAX_VELOCITY) MAX_VELOCITY <= MAX_VELOCITY.
Proof.
  unfold MAX_VELOCITY.
  destruct (clamp_cases v (- 3.2) 3.2) as [[H ->]|[[H ->]|[H ->]]]; lra.
Qed.

Lemma within_iff (b : Q) (v : Vector3) :
  within b v <-> (- b <= x v <= b) /\ (- b <= y v <= b) /\ (- b <= z v <= b).
Proof. unfold within. by rewrite !Qabs_Qle_condition. Qed.

Lemma useFrame_target_bound (s : Controller) :
  within 2.88 (targetVel (useFrame s)).
Proof.
  unfold useFrame.
  destruct (useFrame_chunks_motion (useFrame_motion s)) as (_ & _ & -> & _).
  rewrite useFrame_motion_split, integrate_fields. cbn [targetVel].
  set (s' := applyKeyboard s).
  pose proof (clamp_bounds (x (targetVel s'))) as Hx.
  pose proof (clamp_bounds (y (targetVel s'))) as Hy.
  pose proof (clamp_bounds (z (targetVel s') + scrollAccum s')) as Hz.
  unfold MAX_VELOCITY in *. apply within_iff. cbn [x y z]. lra.
Qed.

Lemma useFrame_velocity_bound (s : Controller) :
  within MAX_VELOCITY (velocity s) -> within MAX_VELOCITY (velocity (useFrame s)).
Proof.
  rewrite !within_iff. intros (Hvx & Hvy & Hvz). unfold useFrame.
  destruct (useFrame_chunks_motion (useFrame_motion s)) as (_ & -> & _).
  rewrite useFrame_motion_split, integrate_fields. cbn [velocity].
  destruct (applyKeyboard_fields s) as (_ & _ & -> & _).
  set (s' := applyKeyboard s).
  pose proof (clamp_bounds (x (targetVel s'))) as Hx.
  pose proof (clamp_bounds (y (targetVel s'))) as Hy.
  pose proof (clamp_bounds (z (targetVel s') + scrollAccum s')) as Hz.
  unfold MAX_VELOCITY, lerp in *. cbn [x y z]. lra.
Qed.

Lemma useFrame_displacement (s : Controller) :
  IntegrationSpec.veq (displacement (camera s) (camera (useFrame s)))
                      (velocity (useFrame s)).
Proof.
  unfold useFrame.
  destruct (useFrame_chunks_motion (useFrame_motion s)) as (-> & -> & _).
  rewrite useFrame_motion_split, integrate_fields. cbn [velocity camera].
  destruct (applyKeyboard_fields s) as (_ & -> & _).
  unfold IntegrationSpec.veq, displacement. cbn [x y z]. repeat split; ring.
Qed.

Section Reachable.

Variable Math_sqrt : Q -> Q.

(** Device events leave velocity and camera alone. *)
Lemma handle_event_motion (e : Event) (s : Controller) :
  e <> Frame ->
  velocity (handle Math_sqrt e s) = velocity s
  /\ camera (handle Math_sqrt e s) = camera s
  /\ chunks (handle Math_sqrt e s) = chunks s.
Proof.
  intros He. destruct e; try done; cbn.
  - unfold onMouseMove. by destruct (isDragging s).
  - unfold onTouchMove.
    destruct touches as [|t [|t' ts]], (lastTouches s) as [|l ls]; try done;
      cbn; repeat (destruct (_ =? _)%nat); repeat (destruct (Qltb _ _)); done.
Qed.

Lemma Frame_or_event (e : Event) : e = Frame \/ e <> Frame.
Proof. destruct e; (by left) || (by right). Qed.

Lemma reachable_velocity (s : Controller) :
  reachable Math_sqrt s -> within MAX_VELOCITY (velocity s).
Proof.
  induction 1 as [|e s Hs IH].
  - apply within_iff. cbn. unfold MAX_VELOCITY. lra.
  - destruct (Frame_or_event e) as [->|He].
    + by apply useFrame_velocity_bound.
    + by destruct (handle_event_motion e s He) as (-> & _).
Qed.

(** Every trace of events and frames leads to a reachable state, and
every reachable state is the end of a trace. *)
Lemma reachable_run_from (trace : list Event) (s : Controller) :
  reachable Math_sqrt s -> reachable Math_sqrt (run Math_sqrt trace s).
Proof.
  revert s. induction trace as [|e trace IH]; intros s Hs; [exact Hs|].
  cbn. apply IH. by constructor.
Qed.

Lemma reachable_run (trace : list Event) :
  reachable Math_sqrt (run Math_sqrt trace mounted).
Proof. apply reachable_run_from. constructor. Qed.

Lemma reachable_trace (s : Controller) :
  reachable Math_sqrt s -> exists trace, s = run Math_sqrt trace mounted.
Proof.
  induction 1 as [|e s Hs [trace ->]].
  - by exists [].
  - exists (trace ++ [e]). unfold run. by rewrite foldl_app.
Qed.

End Reachable.

(** C10. After every frame each axis of target velocity is within 2.88 of
    zero, whatever the events before it; a velocity within 3.2 per axis
    stays within 3.2 over a frame; and in every state the controller can
    reach from its mount (velocity zero), under any events, velocity is
    within 3.2 per axis and a frame moves the camera by at most 3.2 per
    axis. *)
Theorem bounded_motion (Math_sqrt : Q -> Q) (s : Controller) :
  reachable Math_sqrt s ->
  within 2.88 (targetVel (useFrame s))
  /\ within 3.2 (velocity s)
  /\ within 3.2 (velocity (useFrame s))
  /\ within 3.2 (displacement (camera s) (camera (useFrame s)))
  /\ (forall s0, within 2.88 (targetVel (useFrame s0)))
  /\ (forall s0, within 3.2 (velocity s0) -> within 3.2 (velocity (useFrame s0))).
Proof.
  intros Hs.
  pose proof (reachable_velocity Math_sqrt s Hs) as Hv.
  pose proof (useFrame_velocity_bound s Hv) as Hv'.
  split; [apply useFrame_target_bound|].
  split; [exact Hv|]. split; [exact Hv'|].
  split; [|split; [apply useFrame_target_bound|apply useFrame_velocity_bound]].
  destruct (useFrame_displacement s) as (Hx & Hy & Hz).
  apply within_iff in Hv'. apply within_iff.
  unfold MAX_VELOCITY in Hv'. rewrite Hx, Hy, Hz. exact Hv'.
Qed.

Lemma bounded_motion_witness :
  let s := run sqrt_exact [ KeyDown "W"; Frame; Wheel 100; Frame; Frame ] mounted in
  within 3.2 (displacement (camera s) (camera (useFrame s))).
Proof.
  exact (proj1 (proj2 (proj2 (proj2
           (bounded_motion sqrt_exact _ (reachable_run sqrt_exact _)))))).
Defined.

(** ** Pinch direction *)

Lemma has_empty (key : string) : has ∅ key = false.
Proof. apply bool_decide_eq_false_2, not_elem_of_empty. Qed.

Lemma has_singleton (a key : string) :
  has ({[ a ]} ∪ ∅) key = bool_decide (a = key).
Proof.
  unfold has. apply bool_decide_ext. rewrite elem_of_union, elem_of_singleton.
  split; [intros [->| H]; [done|by apply not_elem_of_empty in H]|intros ->; by left].
Qed.

Lemma applyKeyboard_no_keys (s : Controller) :
  keys s = ∅ -> applyKeyboard s = s.
Proof. intros Hk. unfold applyKeyboard. rewrite Hk, !has_empty. done. Qed.

(** The view-axis target after a frame, when no key is held at its start. *)
Lemma useFrame_z_no_keys (s : Controller) :
  keys s = ∅ ->
  z (targetVel (useFrame s))
  = clamp (z (targetVel s) + scrollAccum s) (- MAX_VELOCITY) MAX_VELOCITY * 0.9.
Proof.
  intros Hk. unfold useFrame.
  destruct (useFrame_chunks_motion (useFrame_motion s)) as (_ & _ & -> & _).
  rewrite useFrame_motion_split, integrate_fields, (applyKeyboard_no_keys s Hk).
  reflexivity.
Qed.

Lemma clamp_sign (v : Q) :
  (0 < v -> 0 < clamp v (- MAX_VELOCITY) MAX_VELOCITY)
  /\ (v < 0 -> clamp v (- MAX_VELOCITY) MAX_VELOCITY < 0).
Proof.
  unfold MAX_VELOCITY.
  destruct (clamp_cases v (- 3.2) 3.2) as [[H ->]|[[H ->]|[H ->]]]; lra.
Qed.

Section Pinch.

Variable Math_sqrt : Q -> Q.

Lemma onTouchMove_pinch (touches : list Touch) (s : Controller) :
  length touches = 2%nat -> 0 < lastTouchDist s ->
  scrollAccum (onTouchMove Math_sqrt touches s)
  = scrollAccum s + (lastTouchDist s - getTouchDistance Math_sqrt touches) * 0.006
  /\ targetVel (onTouchMove Math_sqrt touches s) = targetVel s
  /\ keys (onTouchMove Math_sqrt touches s) = keys s
  /\ lastTouchDist (onTouchMove Math_sqrt touches s)
     = getTouchDistance Math_sqrt touches.
Proof.
  intros Hlen Hlast.
  destruct touches as [|t1 [|t2 [|t3 ts]]]; try done.
  assert (Qltb 0 (lastTouchDist s) = true) as Hlt.
  { unfold Qltb. destruct (Qle_bool (lastTouchDist s) 0) eqn:E; [|done].
    apply Qle_bool_iff in E. lra. }
  unfold onTouchMove. cbn [length Nat.eqb]. rewrite Hlt.
  by destruct (lastTouches s).
Qed.

Lemma onKeyDown_fields (k : string) (s : Controller) :
  keys (onKeyDown k s) = {[ toLowerCase k ]} ∪ keys s
  /\ targetVel (onKeyDown k s) = targetVel s
  /\ scrollAccum (onKeyDown k s) = scrollAccum s.
Proof. done. Qed.

End Pinch.

Lemma applyKeyboard_only_w (s : Controller) :
  keys s = {[ "w"%string ]} ∪ ∅ -> applyKeyboard s = upd_targetVel (subZ 0.18) s.
Proof. intros Hk. unfold applyKeyboard. rewrite Hk, !has_singleton. reflexivity. Qed.

Lemma applyKeyboard_only_s (s : Controller) :
  keys s = {[ "s"%string ]} ∪ ∅ -> applyKeyboard s = upd_targetVel (addZ 0.18) s.
Proof. intros Hk. unfold applyKeyboard. rewrite Hk, !has_singleton. reflexivity. Qed.

Lemma useFrame_z_key_w (s : Controller) :
  keys s = {[ "w"%string ]} ∪ ∅ ->
  z (targetVel (useFrame s))
  = clamp (z (targetVel s) - 0.18 + scrollAccum s) (- MAX_VELOCITY) MAX_VELOCITY * 0.9.
Proof.
  intros Hk. unfold useFrame.
  destruct (useFrame_chunks_motion (useFrame_motion s)) as (_ & _ & -> & _).
  rewrite useFrame_motion_split, (applyKeyboard_only_w s Hk), integrate_fields.
  reflexivity.
Qed.

Lemma useFrame_z_key_s (s : Controller) :
  keys s = {[ "s"%string ]} ∪ ∅ ->
  z (targetVel (useFrame s))
  = clamp (z (targetVel s) + 0.18 + scrollAccum s) (- MAX_VELOCITY) MAX_VELOCITY * 0.9.
Proof.
  intros Hk. unfold useFrame.
  destruct (useFrame_chunks_motion (useFrame_motion s)) as (_ & _ & -> & _).
  rewrite useFrame_motion_split, (applyKeyboard_only_s s Hk), integrate_fields.
  reflexivity.
Qed.

Lemma clamp_monotone (a b : Q) :
  a <= b ->
  clamp a (- MAX_VELOCITY) MAX_VELOCITY <= clamp b (- MAX_VELOCITY) MAX_VELOCITY.
Proof.
  intros Hab. unfold MAX_VELOCITY.
  destruct (clamp_cases a (- 3.2) 3.2) as [[H ->]|[[H ->]|[H ->]]]; [lra|..];
    destruct (clamp_cases b (- 3.2) 3.2) as [[H' ->]|[[H' ->]|[H' ->]]]; lra.
Qed.

(** The view-axis target after a frame, in general. *)
Lemma useFrame_z (s : Controller) :
  z (targetVel (useFrame s))
  == clamp (z (targetVel s) + z (IntegrationSpec.keyIncrement (keys s)) + scrollAccum s)
           (- MAX_VELOCITY) MAX_VELOCITY * 0.9.
Proof.
  unfold useFrame.
  destruct (useFrame_chunks_motion (useFrame_motion s)) as (_ & _ & -> & _).
  rewrite useFrame_motion_split, integrate_fields. cbn [targetVel z].
  destruct (applyKeyboard_fields s) as ((_ & _ & Hz) & _ & _ & -> & _).
  rewrite Hz. reflexivity.
Qed.

(** C7, as the code has it.  With two contacts and a previous distance on
    record, a pinch-in (the measured distance decreases) adds a positive
    amount to the scroll accumulator and a pinch-out a negative one; the
    next frame adds the accumulator to the view-axis target velocity, so a
    pinch-in never lowers it and a pinch-out never raises it.  From rest
    along the view axis a pinch-in leaves it positive, the direction of the
    S key (backward), and a pinch-out leaves it negative, the direction of
    the W key (forward). *)
Theorem pinch_in_drives_backward (Math_sqrt : Q -> Q) (touches : list Touch)
    (s : Controller) :
  length touches = 2%nat -> 0 < lastTouchDist s ->
  let d := getTouchDistance Math_sqrt touches in
  let pinched := onTouchMove Math_sqrt touches s in
  (d < lastTouchDist s ->
     scrollAccum s < scrollAccum pinched
     /\ z (targetVel (useFrame s)) <= z (targetVel (useFrame pinched)))
  /\ (lastTouchDist s < d ->
        scrollAccum pinched < scrollAccum s
        /\ z (targetVel (useFrame pinched)) <= z (targetVel (useFrame s)))
  /\ (restingAlongZ s ->
        (d < lastTouchDist s -> 0 < z (targetVel (useFrame pinched)))
        /\ (lastTouchDist s < d -> z (targetVel (useFrame pinched)) < 0)
        /\ z (targetVel (useFrame (onKeyDown "w" s))) < 0
        /\ 0 < z (targetVel (useFrame (onKeyDown "s" s)))).
Proof.
  intros Hlen Hlast. cbv zeta.
  destruct (onTouchMove_pinch Math_sqrt touches s Hlen Hlast) as (Ha & Ht & Hk' & _).
  set (d := getTouchDistance Math_sqrt touches) in *.
  set (pinched := onTouchMove Math_sqrt touches s) in *.
  split; [|split].
  - intros Hd. split; [rewrite Ha; lra|].
    rewrite !useFrame_z, Ha, Ht, Hk'.
    pose proof (clamp_monotone
      (z (targetVel s) + z (IntegrationSpec.keyIncrement (keys s)) + scrollAccum s)
      (z (targetVel s) + z (IntegrationSpec.keyIncrement (keys s))
       + (scrollAccum s + (lastTouchDist s - d) * 0.006))) as Hm.
    assert (z (targetVel s) + z (IntegrationSpec.keyIncrement (keys s)) + scrollAccum s
            <= z (targetVel s) + z (IntegrationSpec.keyIncrement (keys s))
               + (scrollAccum s + (lastTouchDist s - d) * 0.006)) as Hle by lra.
    specialize (Hm Hle). lra.
  - intros Hd. split; [rewrite Ha; lra|].
    rewrite !useFrame_z, Ha, Ht, Hk'.
    pose proof (clamp_monotone
      (z (targetVel s) + z (IntegrationSpec.keyIncrement (keys s))
       + (scrollAccum s + (lastTouchDist s - d) * 0.006))
      (z (targetVel s) + z (IntegrationSpec.keyIncrement (keys s)) + scrollAccum s)) as Hm.
    assert (z (targetVel s) + z (IntegrationSpec.keyIncrement (keys s))
            + (scrollAccum s + (lastTouchDist s - d) * 0.006)
            <= z (targetVel s) + z (IntegrationSpec.keyIncrement (keys s)) + scrollAccum s)
      as Hle by lra.
    specialize (Hm Hle). lra.
  - intros (Hk & Hacc & Hz).
    rewrite useFrame_z_no_keys by congruence. rewrite Ha, Ht.
    destruct (clamp_sign (z (targetVel s) + (scrollAccum s + (lastTouchDist s - d) * 0.006)))
      as [Hpos Hneg].
    split; [intros Hd; assert (0 < clamp (z (targetVel s) + (scrollAccum s + (lastTouchDist s - d) * 0.006)) (- MAX_VELOCITY) MAX_VELOCITY) by (apply Hpos; lra); lra|].
    split; [intros Hd; assert (clamp (z (targetVel s) + (scrollAccum s + (lastTouchDist s - d) * 0.006)) (- MAX_VELOCITY) MAX_VELOCITY < 0) by (apply Hneg; lra); lra|].
    assert (keys (onKeyDown "w" s) = {[ "w"%string ]} ∪ ∅) as Hw
      by (unfold onKeyDown; cbn; by rewrite Hk).
    assert (keys (onKeyDown "s" s) = {[ "s"%string ]} ∪ ∅) as Hs
      by (unfold onKeyDown; cbn; by rewrite Hk).
    rewrite (useFrame_z_key_w _ Hw), (useFrame_z_key_s _ Hs).
    change (targetVel (onKeyDown "w" s)) with (targetVel s).
    change (targetVel (onKeyDown "s" s)) with (targetVel s).
    change (scrollAccum (onKeyDown "w" s)) with (scrollAccum s).
    change (scrollAccum (onKeyDown "s" s)) with (scrollAccum s).
    destruct (clamp_sign (z (targetVel s) - 0.18 + scrollAccum s)) as [_ Hn].
    destruct (clamp_sign (z (targetVel s) + 0.18 + scrollAccum s)) as [Hp _].
    split.
    + assert (clamp (z (targetVel s) - 0.18 + scrollAccum s) (- MAX_VELOCITY) MAX_VELOCITY < 0)
        by (apply Hn; lra). lra.
    + assert (0 < clamp (z (targetVel s) + 0.18 + scrollAccum s) (- MAX_VELOCITY) MAX_VELOCITY)
        by (apply Hp; lra). lra.
Qed.

Lemma pinch_in_drives_backward_witness :
  let start :=
    run sqrt_exact
      [ TouchStart [ {| clientX := 0; clientY := 0 |}; {| clientX := 3; clientY := 4 |} ] ]
      mounted in
  let pinchIn := [ {| clientX := 0; clientY := 0 |}; {| clientX := 0; clientY := 3 |} ] in
  0 < z (targetVel (useFrame (onTouchMove sqrt_exact pinchIn start))).
Proof.
  cbv zeta.
  refine (proj1 (proj2 (proj2 (pinch_in_drives_backward sqrt_exact
                   [ {| clientX := 0; clientY := 0 |}; {| clientX := 0; clientY := 3 |} ]
                   (run sqrt_exact
                      [ TouchStart [ {| clientX := 0; clientY := 0 |};
                                     {| clientX := 3; clientY := 4 |} ] ]
                      mounted) _ _)) _) _).
  - reflexivity.
  - vm_compute. reflexivity.
  - repeat split.
  - vm_compute. reflexivity.
Defined.

(** C7 as stated fails: a pinch-in from distance 5 to distance 3, then one
    frame, leaves the view-axis target velocity at 0.0108, positive, while
    the W key held for one frame leaves it at -0.162. *)
Lemma pinch_in_is_not_forward :
  let fingers a b c d := [ {| clientX := a; clientY := b |}; {| clientX := c; clientY := d |} ] in
  let start := run sqrt_exact [ TouchStart (fingers 0 0 3 4) ] mounted in
  lastTouchDist start == 5
  /\ getTouchDistance sqrt_exact (fingers 0 0 0 3) == 3
  /\ z (targetVel (run sqrt_exact [ TouchMove (fingers 0 0 0 3); Frame ] start)) == 0.0108
  /\ z (targetVel (run sqrt_exact [ KeyDown "w"; Frame ] mounted)) == -0.162
  /\ ~ (z (targetVel (run sqrt_exact [ TouchMove (fingers 0 0 0 3); Frame ] start)) < 0).
Proof.
  cbv zeta. repeat split; try (vm_compute; reflexivity).
  vm_compute. discriminate.
Qed.

(** ** Chunk keys *)

Lemma pretty_N_char_noComma (n : N) : pretty_N_char n <> ","%char.
Proof. unfold pretty_N_char. by repeat case_match. Qed.

Lemma pretty_N_go_noComma (n : N) (s : string) :
  noComma s -> noComma (pretty_N_go n s).
Proof.
  revert s. induction (N.lt_wf_0 n) as [n _ IH]. intros s Hs.
  assert (n = 0 \/ 0 < n)%N as [->|Hpos] by lia.
  - by rewrite pretty_N_go_0.
  - rewrite pretty_N_go_step by done. apply IH.
    + by apply N.div_lt.
    + split; [apply pretty_N_char_noComma|done].
Qed.

Lemma pretty_N_noComma (n : N) : noComma (pretty n).
Proof.
  unfold pretty, pretty_N. case_decide; [by repeat split|].
  by apply pretty_N_go_noComma.
Qed.

Lemma numberToString_noComma (n : Z) : noComma (JS.numberToString n).
Proof.
  unfold JS.numberToString, pretty, pretty_Z. destruct n as [|p|p].
  - by repeat split.
  - apply pretty_N_noComma.
  - split; [done|]. apply pretty_N_noComma.
Qed.

Lemma append_comma_inj (a a' r r' : string) :
  noComma a -> noComma a' ->
  a +:+ "," +:+ r = a' +:+ "," +:+ r' -> a = a' /\ r = r'.
Proof.
  revert a'. induction a as [|c a IH]; intros [|c' a'] Ha Ha'; cbn.
  - intros [= Hr]. by subst.
  - intros [= Hc _]. destruct Ha' as [Hne _]. by subst.
  - intros [= Hc _]. destruct Ha as [Hne _]. by subst.
  - intros [= Hc Heq]. destruct Ha as [_ Ha], Ha' as [_ Ha'].
    destruct (IH a' Ha Ha' Heq) as [Haa Hrr]. by subst.
Qed.

Lemma chunkKey_inj (a b c a' b' c' : Z) :
  chunkKey a b c = chunkKey a' b' c' -> a = a' /\ b = b' /\ c = c'.
Proof.
  unfold chunkKey. intros H.
  apply append_comma_inj in H as [Ha H]; [|apply numberToString_noComma..].
  apply append_comma_inj in H as [Hb Hc]; [|apply numberToString_noComma..].
  unfold JS.numberToString in *.
  by apply (inj pretty) in Ha, Hb, Hc.
Qed.

(** ** The offset cube *)

Lemma elem_of_range (lo hi i : Z) : i ∈ range lo hi <-> (lo <= i <= hi)%Z.
Proof.
  unfold range. rewrite list_elem_of_fmap. split.
  - intros (n & -> & Hn). apply elem_of_seq in Hn. lia.
  - intros Hi. exists (Z.to_nat (i - lo)). split; [lia|].
    apply elem_of_seq. lia.
Qed.

Lemma elem_of_CHUNK_OFFSETS (o : Offset) :
  o ∈ CHUNK_OFFSETS
  <-> (Z.abs (dx o) <= 3 /\ Z.abs (dy o) <= 3 /\ Z.abs (dz o) <= 3
       /\ dist o = chebyshev (dx o) (dy o) (dz o))%Z.
Proof.
  unfold CHUNK_OFFSETS, chebyshev. change MAX_DIST with 3%Z.
  rewrite list_elem_of_bind. setoid_rewrite list_elem_of_bind.
  setoid_rewrite list_elem_of_bind. setoid_rewrite elem_of_range.
  split.
  - intros (a & (b & (c & Ho & Hc) & Hb) & Ha).
    destruct (Z.gtb_spec (Z.max (Z.max (Z.abs a) (Z.abs b)) (Z.abs c)) 3) as [?|?];
      [by apply elem_of_nil in Ho|].
    apply list_elem_of_singleton in Ho. subst o. cbn. lia.
  - intros (Ha & Hb & Hc & Hd). exists (dx o). split; [|lia].
    exists (dy o). split; [|lia]. exists (dz o). split; [|lia].
    destruct (Z.gtb_spec (Z.max (Z.max (Z.abs (dx o)) (Z.abs (dy o))) (Z.abs (dz o))) 3)
      as [?|?]; [lia|].
    apply list_elem_of_singleton. destruct o. cbn in *. by subst.
Qed.

Lemma NoDup_range (lo hi : Z) : NoDup (range lo hi).
Proof.
  unfold range. apply NoDup_fmap_2; [|apply NoDup_seq].
  intros i j. lia.
Qed.

Lemma NoDup_CHUNK_OFFSETS : NoDup CHUNK_OFFSETS.
Proof.
  unfold CHUNK_OFFSETS.
  apply NoDup_bind; [| |apply NoDup_range].
  - intros a a' o _ _ Ho Ho'.
    apply list_elem_of_bind in Ho as (b & Ho & _).
    apply list_elem_of_bind in Ho as (c & Ho & _).
    apply list_elem_of_bind in Ho' as (b' & Ho' & _).
    apply list_elem_of_bind in Ho' as (c' & Ho' & _).
    repeat case_match; try by apply elem_of_nil in Ho.
    all: try by apply elem_of_nil in Ho'.
    apply list_elem_of_singleton in Ho, Ho'. congruence.
  - intros a _. apply NoDup_bind; [| |apply NoDup_range].
    + intros b b' o _ _ Ho Ho'.
      apply list_elem_of_bind in Ho as (c & Ho & _).
      apply list_elem_of_bind in Ho' as (c' & Ho' & _).
      repeat case_match; try by apply elem_of_nil in Ho.
      all: try by apply elem_of_nil in Ho'.
      apply list_elem_of_singleton in Ho, Ho'. congruence.
    + intros b _. apply NoDup_bind; [| |apply NoDup_range].
      * intros c c' o _ _ Ho Ho'.
        repeat case_match; try by apply elem_of_nil in Ho.
        all: try by apply elem_of_nil in Ho'.
        apply list_elem_of_singleton in Ho, Ho'. congruence.
      * intros c _. case_match; [apply NoDup_nil_2|apply NoDup_singleton].
Qed.

(** ** The map of previous chunks *)

Lemma foldl_insert_other (prev : list ChunkData) (m : gmap string ChunkData) (k : string) :
  (forall c, c ∈ prev -> key c <> k) ->
  foldl (fun m c => <[key c := c]> m) m prev !! k = m !! k.
Proof.
  revert m. induction prev as [|c prev IH]; intros m Hk; [done|].
  cbn. rewrite IH.
  - apply lookup_insert_ne, Hk, list_elem_of_here.
  - intros c' Hc'. apply Hk. by apply list_elem_of_further.
Qed.

Lemma foldl_insert_member (prev : list ChunkData) (m : gmap string ChunkData)
    (c : ChunkData) :
  c ∈ prev -> NoDup (key <$> prev) ->
  foldl (fun m c => <[key c := c]> m) m prev !! key c = Some c.
Proof.
  revert m. induction prev as [|c0 prev IH]; intros m Hc Hnd.
  - by apply elem_of_nil in Hc.
  - cbn in Hnd. apply NoDup_cons in Hnd as [Hfresh Hnd]. cbn.
    apply elem_of_cons in Hc as [->|Hc].
    + rewrite foldl_insert_other; [apply lookup_insert_eq|].
      intros c' Hc' Heq. apply Hfresh. rewrite <- Heq.
      by apply list_elem_of_fmap_2.
    + by apply IH.
Qed.

Lemma findChunk_member (prev : list ChunkData) (c : ChunkData) :
  c ∈ prev -> NoDup (key <$> prev) -> findChunk (key c) prev = Some c.
Proof.
  induction prev as [|c0 prev IH]; intros Hc Hnd.
  - by apply elem_of_nil in Hc.
  - cbn in Hnd. apply NoDup_cons in Hnd as [Hfresh Hnd]. cbn.
    apply elem_of_cons in Hc as [->|Hc].
    + by rewrite decide_True.
    + rewrite decide_False; [by apply IH|].
      intros Heq. apply Hfresh. rewrite Heq. by apply list_elem_of_fmap_2.
Qed.

Lemma findChunk_Some (prev : list ChunkData) (k : string) (c : ChunkData) :
  findChunk k prev = Some c -> c ∈ prev /\ key c = k.
Proof.
  induction prev as [|c0 prev IH]; [done|]. cbn.
  case_decide as Hk.
  - intros [= ->]. split; [apply list_elem_of_here|done].
  - intros Hf. destruct (IH Hf). split; [by apply list_elem_of_further|done].
Qed.

Lemma findChunk_None (prev : list ChunkData) (k : string) :
  findChunk k prev = None -> forall c, c ∈ prev -> key c <> k.
Proof.
  induction prev as [|c0 prev IH]; intros Hf c Hc.
  - by apply elem_of_nil in Hc.
  - cbn in Hf. case_decide as Hk; [done|].
    apply elem_of_cons in Hc as [->|Hc]; [done|by apply IH].
Qed.

(** With distinct keys the map holds, for each key, the chunk of the list
    that has it. *)
Lemma prevMapOf_lookup (prev : list ChunkData) (k : string) :
  NoDup (key <$> prev) -> prevMapOf prev !! k = findChunk k prev.
Proof.
  intros Hnd. unfold prevMapOf.
  destruct (findChunk k prev) as [c|] eqn:Hf.
  - apply findChunk_Some in Hf as [Hc <-]. by apply foldl_insert_member.
  - rewrite foldl_insert_other; [done|]. by apply findChunk_None.
Qed.

Lemma prevMapOf_visibility (prev : list ChunkData) (k : string) :
  NoDup (key <$> prev) ->
  default 0 (visibility <$> prevMapOf prev !! k) = prevVisibility prev k.
Proof.
  intros Hnd. rewrite prevMapOf_lookup by done. unfold prevVisibility.
  by destruct (findChunk k prev).
Qed.

(** ** Fade gates *)

Lemma Qmax_cases (a b : Q) : (a <= b /\ Qmax a b == b) \/ (b <= a /\ Qmax a b == a).
Proof.
  destruct (Q.max_spec a b) as [[H E]|[H E]]; [left|right]; split; (lra || done).
Qed.

Lemma Qmin_cases (a b : Q) : (a <= b /\ Qmin a b == a) \/ (b <= a /\ Qmin a b == b).
Proof.
  destruct (Q.min_spec a b) as [[H E]|[H E]]; [left|right]; split; (lra || done).
Qed.

Lemma gridTargetOf_unit (o : Offset) : 0 <= gridTargetOf o <= 1.
Proof.
  unfold gridTargetOf. destruct (Z.leb_spec (dist o) RENDER_DISTANCE) as [H|H]; [lra|].
  change (Qmax (inject_Z CHUNK_FADE_MARGIN) 0.0001) with 1.
  assert (inject_Z RENDER_DISTANCE < inject_Z (dist o)) as Hq by (by rewrite <- Zlt_Qlt).
  change (inject_Z RENDER_DISTANCE) with 2 in *.
  set (d := inject_Z (dist o)) in *. clearbody d.
  unfold Qdiv. change (/ 1) with 1.
  destruct (Qmax_cases 0 (1 - (d - 2) * 1)) as [[H1 ->]|[H1 ->]]; lra.
Qed.

Lemma gridTargetOf_far (o : Offset) : (3 <= dist o)%Z -> gridTargetOf o == 0.
Proof.
  intros Hd. unfold gridTargetOf.
  destruct (Z.leb_spec (dist o) RENDER_DISTANCE) as [H|H];
    [unfold RENDER_DISTANCE in H; lia|].
  change (Qmax (inject_Z CHUNK_FADE_MARGIN) 0.0001) with 1.
  assert (inject_Z 3 <= inject_Z (dist o)) as Hq by (by rewrite <- Zle_Qle).
  change (inject_Z 3) with 3 in Hq. change (inject_Z RENDER_DISTANCE) with 2.
  set (d := inject_Z (dist o)) in *. clearbody d.
  unfold Qdiv. change (/ 1) with 1.
  destruct (Qmax_cases 0 (1 - (d - 2) * 1)) as [[H1 ->]|[H1 ->]]; lra.
Qed.

Lemma depthTargetOf_unit (absDepth : Q) : 0 <= depthTargetOf absDepth <= 1.
Proof.
  unfold depthTargetOf.
  destruct (Qle_bool absDepth DEPTH_FADE_START) eqn:E; [lra|].
  assert (DEPTH_FADE_START < absDepth) as Hlt.
  { apply Qnot_le_lt. intros Hle. apply Qle_bool_iff in Hle. congruence. }
  change (Qmax (DEPTH_FADE_END - DEPTH_FADE_START) 0.0001) with 120.
  unfold DEPTH_FADE_START in *.
  unfold Qdiv. change (/ 120) with (1 # 120).
  set (v := 1 - (absDepth - 140) * (1 # 120)).
  assert (v <= 1) as Hv by (unfold v; lra).
  destruct (Qmax_cases 0 v) as [[H1 H2]|[H1 H2]]; rewrite H2; nra.
Qed.

Lemma Qmin_unit (a b : Q) : 0 <= a <= 1 -> 0 <= b <= 1 -> 0 <= Qmin a b <= 1.
Proof. intros Ha Hb. destruct (Qmin_cases a b) as [[H ->]|[H ->]]; lra. Qed.

Lemma Qmin_zero_l (a b : Q) : a == 0 -> 0 <= b -> Qmin a b == 0.
Proof. intros Ha Hb. destruct (Qmin_cases a b) as [[H ->]|[H ->]]; lra. Qed.

Lemma chunkTarget_unit (p : Vector3) (c : ChunkData) : 0 <= chunkTarget p c <= 1.
Proof. apply Qmin_unit; [apply gridTargetOf_unit|apply depthTargetOf_unit]. Qed.

Lemma lerp_unit (a b : Q) : 0 <= a <= 1 -> 0 <= b <= 1 -> 0 <= lerp a b VISIBILITY_LERP <= 1.
Proof. unfold lerp, VISIBILITY_LERP. lra. Qed.

Lemma lerp_step (a b : Q) :
  Qabs (lerp a b VISIBILITY_LERP - a) == 0.18 * Qabs (b - a).
Proof.
  unfold lerp, VISIBILITY_LERP.
  assert (a + (b - a) * 0.18 - a == 0.18 * (b - a)) as -> by ring.
  rewrite Qabs_Qmult. reflexivity.
Qed.

Lemma fade_pos (k : nat) : 0 < fade k <= 1.
Proof. induction k as [|k IH]; cbn [fade]; lra. Qed.

(** ** The per-frame chunk update *)

Lemma Qltb_true_iff (a b : Q) : Qltb a b = true <-> a < b.
Proof.
  unfold Qltb. rewrite negb_true_iff. split.
  - intros E. apply Qnot_le_lt. intros Hle. apply Qle_bool_iff in Hle. congruence.
  - intros Hlt. destruct (Qle_bool b a) eqn:E; [|done].
    apply Qle_bool_iff in E. lra.
Qed.

Lemma retire_test (vis target : Q) :
  Qltb vis 0.01 && Qeq_bool target 0 = true <-> vis < 0.01 /\ target == 0.
Proof. by rewrite andb_true_iff, Qltb_true_iff, Qeq_bool_iff. Qed.

Lemma elem_of_nextChunks (ccx ccy ccz : Z) (cameraZ : Q) (prev : list ChunkData)
    (c : ChunkData) :
  c ∈ nextChunks ccx ccy ccz cameraZ prev
  <-> exists o, o ∈ CHUNK_OFFSETS
      /\ c = entryFor ccx ccy ccz cameraZ prev o
      /\ ~ (visibility c < 0.01 /\ targetFor ccz cameraZ o == 0).
Proof.
  unfold nextChunks. rewrite list_elem_of_omap. split.
  - intros (o & Ho & Hc). exists o. split; [done|].
    cbv zeta in Hc.
    destruct (Qltb _ _ && Qeq_bool _ _) eqn:E; [done|].
    injection Hc as <-. split; [reflexivity|].
    intros Hr. apply retire_test in Hr. exact (eq_true_false_abs _ Hr E).
  - intros (o & Ho & -> & Hkeep). exists o. split; [done|]. cbv zeta.
    destruct (Qltb _ _ && Qeq_bool _ _) eqn:E; [|reflexivity].
    destruct Hkeep. apply retire_test. exact E.
Qed.

Lemma useFrame_motion_chunks (s : Controller) : chunks (useFrame_motion s) = chunks s.
Proof.
  rewrite useFrame_motion_split, integrate_fields. cbn [chunks].
  destruct (applyKeyboard_fields s) as (_ & _ & _ & _ & _ & Hc & _). exact Hc.
Qed.

Lemma useFrame_chunks_fields (s : Controller) :
  chunks (useFrame_chunks s)
  = nextChunks (Qfloor (x (camera s) / CHUNK_SIZE)) (Qfloor (y (camera s) / CHUNK_SIZE))
               (Qfloor (z (camera s) / CHUNK_SIZE)) (z (camera s)) (chunks s).
Proof.
  unfold useFrame_chunks. case_bool_decide.
  all: unfold upd_chunks, set_lastChunkKey; cbn [chunks camera]; reflexivity.
Qed.

Lemma useFrame_chunks_eq (s : Controller) :
  let p := camera (useFrame s) in
  chunks (useFrame s)
  = nextChunks (Qfloor (x p / CHUNK_SIZE)) (Qfloor (y p / CHUNK_SIZE))
               (Qfloor (z p / CHUNK_SIZE)) (z p) (chunks s).
Proof.
  cbv zeta. unfold useFrame.
  destruct (useFrame_chunks_motion (useFrame_motion s)) as (-> & _).
  rewrite useFrame_chunks_fields, (useFrame_motion_chunks s). reflexivity.
Qed.

Lemma entryFor_offsetTo (p : Vector3) (prev : list ChunkData) (o : Offset) :
  o ∈ CHUNK_OFFSETS ->
  offsetTo p (entryFor (Qfloor (x p / CHUNK_SIZE)) (Qfloor (y p / CHUNK_SIZE))
                       (Qfloor (z p / CHUNK_SIZE)) (z p) prev o) = o.
Proof.
  intros Ho. apply elem_of_CHUNK_OFFSETS in Ho as (_ & _ & _ & Hd).
  unfold offsetTo, cameraChunk, entryFor. cbn [cx cy cz].
  generalize (Qfloor (x p / CHUNK_SIZE)), (Qfloor (y p / CHUNK_SIZE)),
    (Qfloor (z p / CHUNK_SIZE)). intros n1 n2 n3.
  destruct o as [a b c d]. cbn [dx dy dz dist] in *. subst d.
  replace (n1 + a - n1)%Z with a by lia.
  replace (n2 + b - n2)%Z with b by lia.
  replace (n3 + c - n3)%Z with c by lia.
  reflexivity.
Qed.

Lemma entryFor_target (p : Vector3) (prev : list ChunkData) (o : Offset) :
  o ∈ CHUNK_OFFSETS ->
  chunkTarget p (entryFor (Qfloor (x p / CHUNK_SIZE)) (Qfloor (y p / CHUNK_SIZE))
                          (Qfloor (z p / CHUNK_SIZE)) (z p) prev o)
  = targetFor (Qfloor (z p / CHUNK_SIZE)) (z p) o.
Proof.
  intros Ho. unfold chunkTarget. rewrite (entryFor_offsetTo p prev o Ho). reflexivity.
Qed.

(** What a chunk of the next active set looks like. *)
Lemma useFrame_chunk_shape (s : Controller) (c : ChunkData) :
  NoDup (key <$> chunks s) ->
  c ∈ chunks (useFrame s) ->
  let p := camera (useFrame s) in
  key c = chunkKey (cx c) (cy c) (cz c)
  /\ offsetTo p c ∈ CHUNK_OFFSETS
  /\ visibility c
     = lerp (prevVisibility (chunks s) (key c)) (chunkTarget p c) VISIBILITY_LERP
  /\ ~ (visibility c < 0.01 /\ chunkTarget p c == 0).
Proof.
  intros Hnd Hc. cbv zeta. rewrite useFrame_chunks_eq in Hc. cbv zeta in Hc.
  apply elem_of_nextChunks in Hc as (o & Ho & -> & Hkeep).
  rewrite entryFor_offsetTo, entryFor_target by exact Ho.
  split; [unfold entryFor; cbn [key cx cy cz]; reflexivity|].
  split; [exact Ho|]. split; [|exact Hkeep].
  unfold entryFor. cbn [visibility key].
  rewrite prevMapOf_visibility by exact Hnd. reflexivity.
Qed.

(** A chunk whose offset is in the cube is in the next active set unless
    the retirement test holds for it. *)
Lemma useFrame_chunk_kept (s : Controller) (c : ChunkData) :
  NoDup (key <$> chunks s) ->
  let p := camera (useFrame s) in
  let eased := lerp (prevVisibility (chunks s) (key c)) (chunkTarget p c) VISIBILITY_LERP in
  key c = chunkKey (cx c) (cy c) (cz c) ->
  offsetTo p c ∈ CHUNK_OFFSETS ->
  ~ (eased < 0.01 /\ chunkTarget p c == 0) ->
  {| key := key c; cx := cx c; cy := cy c; cz := cz c; visibility := eased |}
  ∈ chunks (useFrame s).
Proof.
  intros Hnd p eased Hkey Ho Hkeep.
  rewrite useFrame_chunks_eq. fold p. apply elem_of_nextChunks.
  exists (offsetTo p c).
  assert ((Qfloor (x p / CHUNK_SIZE) + dx (offsetTo p c))%Z = cx c
          /\ (Qfloor (y p / CHUNK_SIZE) + dy (offsetTo p c))%Z = cy c
          /\ (Qfloor (z p / CHUNK_SIZE) + dz (offsetTo p c))%Z = cz c) as (Hx & Hy & Hz).
  { unfold offsetTo, cameraChunk. cbn [dx dy dz]. lia. }
  assert (targetFor (Qfloor (z p / CHUNK_SIZE)) (z p) (offsetTo p c) = chunkTarget p c)
    as Htarget.
  { unfold targetFor, chunkTarget. rewrite Hz. reflexivity. }
  assert (entryFor (Qfloor (x p / CHUNK_SIZE)) (Qfloor (y p / CHUNK_SIZE))
                   (Qfloor (z p / CHUNK_SIZE)) (z p) (chunks s) (offsetTo p c)
          = {| key := key c; cx := cx c; cy := cy c; cz := cz c; visibility := eased |})
    as Hentry.
  { unfold entryFor. rewrite Hx, Hy, Hz, Htarget, <- Hkey.
    rewrite prevMapOf_visibility by exact Hnd. reflexivity. }
  split; [exact Ho|]. split; [rewrite Hentry; reflexivity|].
  rewrite Htarget. cbn [visibility]. exact Hkeep.
Qed.

(** ** Distance from the cube, along the camera's path *)

Lemma floor_chunk (p : Q) :
  inject_Z (Qfloor (p / CHUNK_SIZE)) * 110 <= p
  /\ p < (inject_Z (Qfloor (p / CHUNK_SIZE)) + 1) * 110.
Proof.
  pose proof (Qfloor_le (p / CHUNK_SIZE)) as Hlo.
  pose proof (Qlt_floor (p / CHUNK_SIZE)) as Hhi.
  rewrite inject_Z_plus in Hhi. change (inject_Z 1) with 1 in Hhi.
  set (n := inject_Z (Qfloor (p / CHUNK_SIZE))) in *. clearbody n.
  unfold Qdiv, CHUNK_SIZE in *. change (/ 110) with (1 # 110) in *.
  split; lra.
Qed.

Lemma inject_Z_minus (a b : Z) : inject_Z (a - b) == inject_Z a - inject_Z b.
Proof. unfold Z.sub. rewrite inject_Z_plus, inject_Z_opp. reflexivity. Qed.

Lemma inject_Z_le_minus (n X k : Z) : (n <= X - k)%Z -> inject_Z n <= inject_Z X - inject_Z k.
Proof. intros H. rewrite <- inject_Z_minus. by rewrite <- Zle_Qle. Qed.

Lemma inject_Z_lt_inv (n m : Z) : inject_Z n < inject_Z m -> (n < m)%Z.
Proof. by rewrite <- Zlt_Qlt. Qed.

Lemma axisDepth_inside (X : Z) (p : Q) :
  0 < axisDepth X p -> (3 <= Z.abs (X - Qfloor (p / CHUNK_SIZE)))%Z.
Proof.
  unfold axisDepth. destruct (floor_chunk p) as [Hlo Hhi].
  set (n := Qfloor (p / CHUNK_SIZE)) in *. clearbody n.
  intros Hd.
  destruct (Qmax_cases (110 * (inject_Z X - 2) - p) (p - 110 * (inject_Z X + 3)))
    as [[_ E]|[_ E]]; rewrite E in Hd; clear E.
  - assert (inject_Z (X + 3) < inject_Z (n + 1)) as H.
    { rewrite !inject_Z_plus. change (inject_Z 3) with 3. change (inject_Z 1) with 1. lra. }
    apply inject_Z_lt_inv in H. lia.
  - assert (inject_Z n < inject_Z (X - 2)) as H.
    { rewrite inject_Z_minus. change (inject_Z 2) with 2. lra. }
    apply inject_Z_lt_inv in H. lia.
Qed.

Lemma axisDepth_outside (X : Z) (p : Q) :
  (4 <= Z.abs (X - Qfloor (p / CHUNK_SIZE)))%Z -> 110 <= axisDepth X p.
Proof.
  unfold axisDepth. destruct (floor_chunk p) as [Hlo Hhi].
  set (n := Qfloor (p / CHUNK_SIZE)) in *. clearbody n.
  intros Hd.
  assert (n <= X - 4 \/ X + 4 <= n)%Z as [H|H] by lia.
  - apply inject_Z_le_minus in H. change (inject_Z 4) with 4 in H.
    destruct (Qmax_cases (110 * (inject_Z X - 2) - p) (p - 110 * (inject_Z X + 3)))
      as [[E1 E]|[E1 E]]; rewrite E; lra.
  - assert (inject_Z X + 4 <= inject_Z n) as H'.
    { change 4 with (inject_Z 4). rewrite <- inject_Z_plus. by rewrite <- Zle_Qle. }
    destruct (Qmax_cases (110 * (inject_Z X - 2) - p) (p - 110 * (inject_Z X + 3)))
      as [[E1 E]|[E1 E]]; rewrite E; lra.
Qed.

Lemma axisDepth_step (X : Z) (p p' : Q) :
  Qabs (p' - p) <= 3.2 -> axisDepth X p' <= axisDepth X p + 3.2.
Proof.
  intros H. apply Qabs_Qle_condition in H. unfold axisDepth.
  destruct (Qmax_cases (110 * (inject_Z X - 2) - p) (p - 110 * (inject_Z X + 3)))
    as [[E1 E]|[E1 E]]; rewrite E;
  destruct (Qmax_cases (110 * (inject_Z X - 2) - p') (p' - 110 * (inject_Z X + 3)))
    as [[E1' E']|[E1' E']]; rewrite E'; lra.
Qed.

Lemma Qmax3_cases (a b c : Q) :
  let m := Qmax (Qmax a b) c in
  (m == a \/ m == b \/ m == c) /\ a <= m /\ b <= m /\ c <= m.
Proof.
  cbv zeta.
  destruct (Qmax_cases a b) as [[H1 E1]|[H1 E1]];
  destruct (Qmax_cases (Qmax a b) c) as [[H2 E2]|[H2 E2]];
    rewrite E2, ?E1 in *; repeat split; try lra; auto; try (right; left; reflexivity);
    try (left; reflexivity); try (right; right; reflexivity).
Qed.

Lemma zoneDepth_inside (p : Vector3) (c : ChunkData) :
  0 < zoneDepth p c -> (3 <= dist (offsetTo p c))%Z.
Proof.
  unfold zoneDepth, offsetTo, cameraChunk, chebyshev. cbn [dist]. intros Hd.
  destruct (Qmax3_cases (axisDepth (cx c) (x p)) (axisDepth (cy c) (y p))
                        (axisDepth (cz c) (z p))) as ([E|[E|E]] & _);
    rewrite E in Hd; apply axisDepth_inside in Hd; lia.
Qed.

Lemma zoneDepth_outside (p : Vector3) (c : ChunkData) :
  (4 <= dist (offsetTo p c))%Z -> 110 <= zoneDepth p c.
Proof.
  unfold zoneDepth, offsetTo, cameraChunk, chebyshev. cbn [dist]. intros Hd.
  destruct (Qmax3_cases (axisDepth (cx c) (x p)) (axisDepth (cy c) (y p))
                        (axisDepth (cz c) (z p))) as (_ & Hx & Hy & Hz).
  set (n1 := Qfloor (x p / CHUNK_SIZE)) in *.
  set (n2 := Qfloor (y p / CHUNK_SIZE)) in *.
  set (n3 := Qfloor (z p / CHUNK_SIZE)) in *.
  assert (4 <= Z.abs (cx c - n1) \/ 4 <= Z.abs (cy c - n2) \/ 4 <= Z.abs (cz c - n3))%Z
    as [H|[H|H]] by lia; apply axisDepth_outside in H; lra.
Qed.

Lemma zoneDepth_step (p p' : Vector3) (c : ChunkData) :
  within MAX_VELOCITY (displacement p p') -> zoneDepth p' c <= zoneDepth p c + 3.2.
Proof.
  unfold within, displacement, MAX_VELOCITY. cbn [x y z]. intros (Hx & Hy & Hz).
  apply (axisDepth_step (cx c)) in Hx. apply (axisDepth_step (cy c)) in Hy.
  apply (axisDepth_step (cz c)) in Hz. unfold zoneDepth.
  destruct (Qmax3_cases (axisDepth (cx c) (x p)) (axisDepth (cy c) (y p))
                        (axisDepth (cz c) (z p))) as (_ & H1 & H2 & H3).
  destruct (Qmax3_cases (axisDepth (cx c) (x p')) (axisDepth (cy c) (y p'))
                        (axisDepth (cz c) (z p'))) as ([E|[E|E]] & _);
    rewrite E; lra.
Qed.

(** The offset of a chunk is in the cube exactly when it is at most three
    chunks away. *)
Lemma offsetTo_in_cube (p : Vector3) (c : ChunkData) :
  offsetTo p c ∈ CHUNK_OFFSETS <-> (dist (offsetTo p c) <= 3)%Z.
Proof.
  rewrite elem_of_CHUNK_OFFSETS. unfold offsetTo, cameraChunk, chebyshev.
  cbn [dx dy dz dist]. lia.
Qed.

(** ** The invariant of the active set *)

Lemma NoDup_fmap_omap {A B C} (f : A -> option B) (g : B -> C) (l : list A) :
  NoDup l ->
  (forall a a' b b', a ∈ l -> a' ∈ l -> f a = Some b -> f a' = Some b' ->
                     g b = g b' -> a = a') ->
  NoDup (g <$> omap f l).
Proof.
  induction l as [|a l IH]; intros Hnd Hinj; [constructor|].
  apply NoDup_cons in Hnd as [Ha Hnd]. cbn.
  assert (NoDup (g <$> omap f l)) as IH'.
  { apply IH; [done|]. intros a1 a2 b1 b2 H1 H2.
    apply Hinj; by apply list_elem_of_further. }
  destruct (f a) as [b|] eqn:Hfa; [|done]. cbn.
  apply NoDup_cons. split; [|done].
  intros Hin. apply list_elem_of_fmap in Hin as (b' & Hg & Hb').
  apply list_elem_of_omap in Hb' as (a' & Ha' & Hfa').
  assert (a = a') as <-; [|done].
  eapply Hinj; [apply list_elem_of_here|by apply list_elem_of_further|done..].
Qed.

Lemma nextChunks_omap (ccx ccy ccz : Z) (cameraZ : Q) (prev : list ChunkData) :
  nextChunks ccx ccy ccz cameraZ prev
  = omap (fun o =>
            if Qltb (visibility (entryFor ccx ccy ccz cameraZ prev o)) 0.01
               && Qeq_bool (targetFor ccz cameraZ o) 0
            then None else Some (entryFor ccx ccy ccz cameraZ prev o))
         CHUNK_OFFSETS.
Proof. reflexivity. Qed.

Lemma offset_eq (o o' : Offset) :
  o ∈ CHUNK_OFFSETS -> o' ∈ CHUNK_OFFSETS ->
  dx o = dx o' -> dy o = dy o' -> dz o = dz o' -> o = o'.
Proof.
  intros Ho Ho' Hx Hy Hz.
  apply elem_of_CHUNK_OFFSETS in Ho as (_ & _ & _ & Hd).
  apply elem_of_CHUNK_OFFSETS in Ho' as (_ & _ & _ & Hd').
  destruct o, o'. cbn in *. congruence.
Qed.

Lemma nextChunks_keys_distinct (ccx ccy ccz : Z) (cameraZ : Q) (prev : list ChunkData) :
  NoDup (key <$> nextChunks ccx ccy ccz cameraZ prev).
Proof.
  rewrite nextChunks_omap. apply NoDup_fmap_omap; [apply NoDup_CHUNK_OFFSETS|].
  intros o o' c c' Ho Ho' Hc Hc' Hk.
  destruct (Qltb _ _ && _); [done|]. destruct (Qltb _ _ && _); [done|].
  injection Hc as <-. injection Hc' as <-.
  unfold entryFor in Hk. cbn [key] in Hk.
  apply chunkKey_inj in Hk as (Hx & Hy & Hz).
  apply offset_eq; [done|done|lia..].
Qed.

Lemma nextChunks_keys_match (ccx ccy ccz : Z) (cameraZ : Q) (prev : list ChunkData) :
  Forall (fun c => key c = chunkKey (cx c) (cy c) (cz c))
         (nextChunks ccx ccy ccz cameraZ prev).
Proof.
  apply Forall_forall. intros c Hc.
  apply elem_of_nextChunks in Hc as (o & _ & -> & _).
  unfold entryFor. cbn [key cx cy cz]. reflexivity.
Qed.

Lemma prevVisibility_unit (prev : list ChunkData) (k : string) :
  Forall (fun c => 0 <= visibility c <= 1) prev -> 0 <= prevVisibility prev k <= 1.
Proof.
  intros Hall. unfold prevVisibility.
  destruct (findChunk k prev) as [c|] eqn:Hf; [|lra].
  apply findChunk_Some in Hf as [Hc _].
  by apply (proj1 (Forall_forall _ _) Hall).
Qed.

Lemma useFrame_displacement_within (s : Controller) :
  within MAX_VELOCITY (velocity s) ->
  within MAX_VELOCITY (displacement (camera s) (camera (useFrame s))).
Proof.
  intros Hv. apply useFrame_velocity_bound in Hv.
  destruct (useFrame_displacement s) as (Hx & Hy & Hz).
  apply within_iff in Hv. apply within_iff. rewrite Hx, Hy, Hz. exact Hv.
Qed.

Lemma zoneDepth_coords (p : Vector3) (c c' : ChunkData) :
  cx c = cx c' -> cy c = cy c' -> cz c = cz c' -> zoneDepth p c = zoneDepth p c'.
Proof. unfold zoneDepth. by intros -> -> ->. Qed.

Lemma fade_succ_scale (k : nat) (v : Q) : v <= fade k -> 0.82 * v <= fade (S k).
Proof. cbn [fade]. lra. Qed.

Lemma inject_nat_succ (k : nat) :
  inject_Z (Z.of_nat (S k)) == inject_Z (Z.of_nat k) + 1.
Proof. rewrite Nat2Z.inj_succ. unfold Z.succ. by rewrite inject_Z_plus. Qed.

Lemma inject_nat_nonneg (k : nat) : 0 <= inject_Z (Z.of_nat k).
Proof. change 0 with (inject_Z 0). rewrite <- Zle_Qle. lia. Qed.

Lemma chunkTarget_far (p : Vector3) (c : ChunkData) :
  (3 <= dist (offsetTo p c))%Z -> chunkTarget p c == 0.
Proof.
  intros Hd. unfold chunkTarget. apply Qmin_zero_l.
  - by apply gridTargetOf_far.
  - apply depthTargetOf_unit.
Qed.

Lemma useFrame_invariant (s : Controller) :
  chunksInvariant s -> chunksInvariant (useFrame s).
Proof.
  intros [Hnd Hkeys Hunit Hvel Hfaded].
  assert (Forall (fun c => 0 <= visibility c <= 1) (chunks (useFrame s))) as Hunit'.
  { apply Forall_forall. intros c Hc.
    destruct (useFrame_chunk_shape s c Hnd Hc) as (_ & _ & -> & _).
    apply lerp_unit; [by apply prevVisibility_unit|apply chunkTarget_unit]. }
  split.
  - rewrite useFrame_chunks_eq. apply nextChunks_keys_distinct.
  - rewrite useFrame_chunks_eq. apply nextChunks_keys_match.
  - exact Hunit'.
  - by apply useFrame_velocity_bound.
  - apply Forall_forall. intros c Hc [|k] Hdepth.
    { cbn [fade]. by apply (proj1 (Forall_forall _ _) Hunit'). }
    pose proof (inject_nat_nonneg k) as Hk0.
    rewrite inject_nat_succ in Hdepth. unfold MAX_VELOCITY in Hdepth.
    destruct (useFrame_chunk_shape s c Hnd Hc) as (Hkey & _ & Hvis & _).
    assert (chunkTarget (camera (useFrame s)) c == 0) as Htarget.
    { apply chunkTarget_far, zoneDepth_inside. lra. }
    pose proof (zoneDepth_step (camera s) (camera (useFrame s)) c
                  (useFrame_displacement_within s Hvel)) as Hstep.
    rewrite Hvis. unfold lerp, VISIBILITY_LERP. rewrite Htarget.
    unfold prevVisibility.
    destruct (findChunk (key c) (chunks s)) as [c0|] eqn:Hf.
    + apply findChunk_Some in Hf as [Hc0 Hk].
      pose proof (proj1 (Forall_forall _ _) Hkeys c0 Hc0) as Hkey0. cbn beta in Hkey0.
      rewrite Hkey, Hkey0 in Hk. apply chunkKey_inj in Hk as (Hx & Hy & Hz).
      pose proof (proj1 (Forall_forall _ _) Hfaded c0 Hc0 k) as Hfade0. cbn beta in Hfade0.
      rewrite (zoneDepth_coords _ c0 c Hx Hy Hz) in Hfade0.
      assert (visibility c0 <= fade k) as Hle.
      { apply Hfade0. unfold MAX_VELOCITY. lra. }
      pose proof (fade_succ_scale k _ Hle). lra.
    + pose proof (fade_pos (S k)). lra.
Qed.

Lemma invariant_same_chunks (s s' : Controller) :
  chunks s' = chunks s -> camera s' = camera s -> velocity s' = velocity s ->
  chunksInvariant s -> chunksInvariant s'.
Proof.
  intros Hc Hp Hv [H1 H2 H3 H4 H5].
  split; rewrite ?Hc, ?Hp, ?Hv; assumption.
Qed.

Lemma elem_of_initialChunks (c : ChunkData) :
  c ∈ initialChunks
  <-> exists o, o ∈ CHUNK_OFFSETS
      /\ c = {| key := chunkKey (dx o) (dy o) (dz o);
                cx := dx o; cy := dy o; cz := dz o;
                visibility :=
                  Qmin (gridTargetOf o)
                       (depthTargetOf (Qabs ((inject_Z (dz o) + 0.5) * CHUNK_SIZE))) |}.
Proof.
  unfold initialChunks. rewrite list_elem_of_fmap. split.
  - intros (o & -> & Ho). by exists o.
  - intros (o & Ho & ->). by exists o.
Qed.

Lemma mounted_cameraChunk : cameraChunk (camera mounted) = (0, 0, 0)%Z.
Proof. vm_compute. reflexivity. Qed.

Lemma mounted_invariant : chunksInvariant mounted.
Proof.
  split.
  - change (chunks mounted) with initialChunks. unfold initialChunks.
    rewrite <- list_fmap_compose.
    apply NoDup_fmap_2_strong; [|apply NoDup_CHUNK_OFFSETS].
    intros o o' Ho Ho' Hk. cbn in Hk.
    apply chunkKey_inj in Hk as (Hx & Hy & Hz). by apply offset_eq.
  - apply Forall_forall. intros c Hc. change (chunks mounted) with initialChunks in Hc.
    apply elem_of_initialChunks in Hc as (o & _ & ->). reflexivity.
  - apply Forall_forall. intros c Hc. change (chunks mounted) with initialChunks in Hc.
    apply elem_of_initialChunks in Hc as (o & _ & ->). cbn [visibility].
    apply Qmin_unit; [apply gridTargetOf_unit|apply depthTargetOf_unit].
  - apply within_iff. cbn. unfold MAX_VELOCITY. lra.
  - apply Forall_forall. intros c Hc k Hdepth.
    change (chunks mounted) with initialChunks in Hc.
    apply elem_of_initialChunks in Hc as (o & Ho & ->).
    pose proof (inject_nat_nonneg k) as Hk0. unfold MAX_VELOCITY in Hdepth.
    assert (0 < zoneDepth (camera mounted)
                  {| key := chunkKey (dx o) (dy o) (dz o); cx := dx o; cy := dy o;
                     cz := dz o;
                     visibility :=
                       Qmin (gridTargetOf o)
                            (depthTargetOf (Qabs ((inject_Z (dz o) + 0.5) * CHUNK_SIZE))) |})
      as Hpos by lra.
    apply zoneDepth_inside in Hpos.
    unfold offsetTo in Hpos. rewrite mounted_cameraChunk in Hpos. cbn [dist cx cy cz] in Hpos.
    apply elem_of_CHUNK_OFFSETS in Ho as (_ & _ & _ & Hd).
    assert (3 <= dist o)%Z as Hfar by (unfold chebyshev in *; lia).
    cbn [visibility].
    rewrite (Qmin_zero_l _ _ (gridTargetOf_far o Hfar)) by apply depthTargetOf_unit.
    pose proof (fade_pos k). lra.
Qed.

Lemma reachable_invariant (Math_sqrt : Q -> Q) (s : Controller) :
  reachable Math_sqrt s -> chunksInvariant s.
Proof.
  induction 1 as [|e s Hs IH].
  - apply mounted_invariant.
  - destruct (Frame_or_event e) as [->|He].
    + by apply useFrame_invariant.
    + destruct (handle_event_motion Math_sqrt e s He) as (Hv & Hp & Hc).
      by apply (invariant_same_chunks s).
Qed.

(** ** Visibility and retirement *)

(** C2. On every frame every chunk of the active set has visibility in
    [0, 1], and the visibility of a chunk of the next active set differs
    from its previous value (0 for a chunk that was not in the set) by 0.18
    times the distance between that previous value and the target, hence
    by at most 0.18. *)
Theorem visibility_bounded_and_eased (Math_sqrt : Q -> Q) (s : Controller) :
  reachable Math_sqrt s ->
  Forall (fun c => 0 <= visibility c <= 1) (chunks s)
  /\ Forall (fun c =>
               let previous := prevVisibility (chunks s) (key c) in
               let target := chunkTarget (camera (useFrame s)) c in
               0 <= visibility c <= 1
               /\ Qabs (visibility c - previous) == 0.18 * Qabs (target - previous)
               /\ Qabs (visibility c - previous) <= 0.18)
            (chunks (useFrame s)).
Proof.
  intros Hs. pose proof (reachable_invariant Math_sqrt s Hs) as Hinv.
  pose proof (useFrame_invariant s Hinv) as Hinv'.
  split; [apply (visibility_unit s Hinv)|].
  apply Forall_forall. intros c Hc. cbv zeta.
  split; [by apply (proj1 (Forall_forall _ _) (visibility_unit _ Hinv'))|].
  destruct (useFrame_chunk_shape s c (keys_distinct s Hinv) Hc) as (_ & _ & Hvis & _).
  pose proof (prevVisibility_unit (chunks s) (key c) (visibility_unit s Hinv)) as Hprev.
  pose proof (chunkTarget_unit (camera (useFrame s)) c) as Htarget.
  rewrite Hvis, lerp_step. split; [reflexivity|].
  assert (Qabs (chunkTarget (camera (useFrame s)) c - prevVisibility (chunks s) (key c)) <= 1)
    as Hle by (apply Qabs_Qle_condition; lra).
  lra.
Qed.

Lemma visibility_bounded_and_eased_witness :
  let s := run sqrt_exact [ KeyDown "d"; Frame; Wheel (-250); Frame ] mounted in
  Forall (fun c => 0 <= visibility c <= 1) (chunks s).
Proof.
  exact (proj1 (visibility_bounded_and_eased sqrt_exact _ (reachable_run sqrt_exact _))).
Defined.

Lemma fade_33 : 0.82 * fade 33 < 0.01.
Proof. vm_compute. reflexivity. Qed.

(** A chunk of the active set that the next frame finds outside the cube
    has already faded. *)
Lemma outside_cube_faded (s : Controller) (c : ChunkData) :
  chunksInvariant s -> c ∈ chunks s ->
  (4 <= dist (offsetTo (camera (useFrame s)) c))%Z ->
  visibility c <= fade 33.
Proof.
  intros Hinv Hc Hd.
  apply zoneDepth_outside in Hd.
  pose proof (zoneDepth_step (camera s) (camera (useFrame s)) c
                (useFrame_displacement_within s (velocity_bounded s Hinv))) as Hstep.
  apply (proj1 (Forall_forall _ _) (faded_outside s Hinv) c Hc 33%nat).
  change (inject_Z (Z.of_nat 33)) with 33. unfold MAX_VELOCITY. lra.
Qed.

(** C3. A chunk of the active set is absent from the next active set only
    when its target visibility that frame is exactly 0 and its eased
    visibility is below 0.01; a chunk with positive target visibility, or
    with eased visibility at or above 0.01, stays in the set under its key,
    with the eased visibility. *)
Theorem chunk_retirement (Math_sqrt : Q -> Q) (s : Controller) (c : ChunkData) :
  reachable Math_sqrt s -> c ∈ chunks s ->
  let target := chunkTarget (camera (useFrame s)) c in
  let eased := lerp (visibility c) target VISIBILITY_LERP in
  ((forall c', c' ∈ chunks (useFrame s) -> key c' <> key c) ->
     target == 0 /\ eased < 0.01)
  /\ (0 < target \/ 0.01 <= eased ->
        exists c', c' ∈ chunks (useFrame s) /\ key c' = key c
                   /\ (cx c', cy c', cz c') = (cx c, cy c, cz c)
                   /\ visibility c' = eased).
Proof.
  intros Hs Hc target eased.
  pose proof (reachable_invariant Math_sqrt s Hs) as Hinv.
  pose proof (keys_distinct s Hinv) as Hnd.
  pose proof (proj1 (Forall_forall _ _) (keys_match s Hinv) c Hc) as Hkey. cbn beta in Hkey.
  pose proof (proj1 (Forall_forall _ _) (visibility_unit s Hinv) c Hc) as Hunit.
  cbn beta in Hunit.
  assert (prevVisibility (chunks s) (key c) = visibility c) as Hprev.
  { unfold prevVisibility. by rewrite (findChunk_member _ _ Hc Hnd). }
  assert ((4 <= dist (offsetTo (camera (useFrame s)) c))%Z -> target == 0 /\ eased < 0.01)
    as Hout.
  { intros Hd. pose proof (outside_cube_faded s c Hinv Hc Hd) as Hfaded.
    assert (target == 0) as Ht by (apply chunkTarget_far; lia).
    split; [exact Ht|]. unfold eased, lerp, VISIBILITY_LERP. rewrite Ht.
    pose proof fade_33. lra. }
  assert (~ (eased < 0.01 /\ target == 0) ->
          (dist (offsetTo (camera (useFrame s)) c) <= 3)%Z ->
          {| key := key c; cx := cx c; cy := cy c; cz := cz c; visibility := eased |}
          ∈ chunks (useFrame s)) as Hin.
  { intros Hkeep Hd. apply offsetTo_in_cube in Hd.
    pose proof (useFrame_chunk_kept s c Hnd Hkey Hd) as Hkept. cbv zeta in Hkept.
    rewrite Hprev in Hkept. by apply Hkept. }
  split.
  - intros Habsent.
    destruct (Z_le_gt_dec (dist (offsetTo (camera (useFrame s)) c)) 3) as [Hd|Hd];
      [|apply Hout; lia].
    destruct (Qlt_le_dec eased 0.01) as [He|He];
      [destruct (Qeq_dec target 0) as [Ht|Ht]; [done|]|].
    + exfalso. eapply Habsent; [apply Hin; [|exact Hd]|reflexivity].
      by intros [_ ?].
    + exfalso. eapply Habsent; [apply Hin; [|exact Hd]|reflexivity].
      intros [? _]. lra.
  - intros Hlive.
    assert (~ (eased < 0.01 /\ target == 0)) as Hkeep.
    { intros [He Ht]. destruct Hlive as [Hpos|Hge]; lra. }
    destruct (Z_le_gt_dec (dist (offsetTo (camera (useFrame s)) c)) 3) as [Hd|Hd].
    + eexists. split; [by apply Hin|]. by repeat split.
    + destruct Hkeep. destruct Hout as [Ht He]; [lia|]. by split.
Qed.

Lemma chunk_retirement_witness :
  let c := {| key := chunkKey 3 0 0; cx := 3; cy := 0; cz := 0;
              visibility :=
                Qmin (gridTargetOf {| dx := 3; dy := 0; dz := 0; dist := 3 |})
                     (depthTargetOf (Qabs ((inject_Z 0 + 0.5) * CHUNK_SIZE))) |} in
  chunkTarget (camera (useFrame mounted)) c == 0
  /\ lerp (visibility c) (chunkTarget (camera (useFrame mounted)) c) VISIBILITY_LERP < 0.01.
Proof.
  cbv zeta.
  refine (proj1 (chunk_retirement sqrt_exact mounted _ (reachable_mounted _) _) _).
  - apply elem_of_initialChunks.
    exists {| dx := 3; dy := 0; dz := 0; dist := 3 |}.
    split; [|reflexivity]. apply elem_of_CHUNK_OFFSETS. vm_compute. repeat split; discriminate.
  - apply Forall_forall.
    refine (bool_decide_unpack (Forall (fun c' => key c' <> chunkKey 3 0 0) (chunks (useFrame mounted))) _).
    vm_compute. exact I.
Defined.

(** ** Evaluations *)

Example hashString_origin : hashString "0,0,0" = 45687352%Z.
Proof. vm_compute. reflexivity. Qed.

Example hashString_wraps : hashString "-12,345,-6789" = 1543857241%Z.
Proof. vm_compute. reflexivity. Qed.

Example chunkKey_negative : chunkKey (-1) 0 12 = "-1,0,12"%string.
Proof. vm_compute. reflexivity. Qed.

Example CHUNK_OFFSETS_count : length CHUNK_OFFSETS = 343%nat.
Proof. vm_compute. reflexivity. Qed.

Example first_frame_keeps_the_inner_cube :
  length (chunks mounted) = 343%nat /\ length (chunks (useFrame mounted)) = 125%nat.
Proof. split; vm_compute; reflexivity. Qed.

Example getTexture_same_url_other_type :
  (getTextures [ {| url := "a"; type := image |}; {| url := "a"; type := video |} ]
               emptyStore).1
  = [ Some {| instance := 0; source := LoadedImage "a";
              minFilter := LinearMipmapLinearFilter; magFilter := LinearFilter;
              generateMipmaps := true; anisotropy := 4 |};
      Some {| instance := 0; source := LoadedImage "a";
              minFilter := LinearMipmapLinearFilter; magFilter := LinearFilter;
              generateMipmaps := true; anisotropy := 4 |} ].
Proof. vm_compute. reflexivity. Qed.

(** * Further properties *)

(** ** Seeds, hashes and placements *)

(** X1. [seededRandom] returns a value in the half-open unit interval for
    every seed, whatever [Math.sin] returns for it. *)
Theorem seededRandom_in_unit_interval (Math_sin : Q -> Q) (seed : Q) :
  0 <= seededRandom Math_sin seed /\ seededRandom Math_sin seed < 1.
Proof. apply seededRandom_unit. Qed.

Lemma toInt32_range (v : Z) : (- 2 ^ 31 <= JS.toInt32 v < 2 ^ 31)%Z.
Proof.
  unfold JS.toInt32.
  pose proof (Z.mod_pos_bound (v + 2 ^ 31) (2 ^ 32) ltac:(lia)). lia.
Qed.

Lemma hash_fold_range (codes : list Z) (h : Z) :
  (- 2 ^ 31 <= h < 2 ^ 31)%Z ->
  (- 2 ^ 31 <= fold_left (fun h c => JS.toInt32 (JS.shl32 h 5 - h + c)) codes h < 2 ^ 31)%Z.
Proof.
  revert h. induction codes as [|c codes IH]; intros h Hh; [exact Hh|].
  cbn [fold_left]. apply IH, toInt32_range.
Qed.

(** X2. [hashString] returns a non-negative integer of at most 2^31 for
    every string, and 0 for the empty string. *)
Theorem hashString_range (str : string) :
  (0 <= hashString str <= 2 ^ 31)%Z /\ hashString "" = 0%Z.
Proof.
  split; [|reflexivity]. unfold hashString.
  pose proof (hash_fold_range (JS.charCodes str) 0 ltac:(lia)). lia.
Qed.

Lemma Qfloor_range (v : Q) (n : Z) :
  0 <= v -> v < inject_Z n -> (0 <= Qfloor v < n)%Z.
Proof.
  intros Hlo Hhi.
  pose proof (Qfloor_le v) as Hfl. pose proof (Qlt_floor v) as Hfu.
  split.
  - assert (inject_Z 0 < inject_Z (Qfloor v + 1)) as H by (change (inject_Z 0) with 0; lra).
    rewrite <- Zlt_Qlt in H. lia.
  - assert (inject_Z (Qfloor v) < inject_Z n) as H by lra.
    by rewrite <- Zlt_Qlt in H.
Qed.

Lemma generateChunkPlanes_mediaIndex (Math_sin : Q -> Q) (cx cy cz mediaCount : Z) :
  (0 < mediaCount)%Z ->
  Forall (fun p => (0 <= mediaIndex p < mediaCount)%Z)
         (generateChunkPlanes Math_sin cx cy cz mediaCount).
Proof.
  intros Hn. unfold generateChunkPlanes. apply Forall_fmap, Forall_forall.
  intros i _. unfold compose. cbn beta. unfold generatePlane. cbn [mediaIndex].
  match goal with
  | |- (0 <= Qfloor (seededRandom _ ?a * _) < _)%Z =>
    pose proof (seededRandom_unit Math_sin a) as [Hlo Hhi];
    set (r := seededRandom Math_sin a) in *; clearbody r
  end.
  assert (0 < inject_Z mediaCount) as Hq by (change 0 with (inject_Z 0); by rewrite <- Zlt_Qlt).
  apply Qfloor_range.
  - apply Qmult_le_0_compat; [exact Hlo|apply Qlt_le_weak, Hq].
  - assert (r * inject_Z mediaCount < 1 * inject_Z mediaCount) as H
      by (apply Qmult_lt_compat_r; [exact Hq|exact Hhi]).
    by rewrite Qmult_1_l in H.
Qed.

(** X3. For a positive [mediaCount] every placement's media index lies in
    [0, mediaCount): it indexes the media list without wrapping. *)
Theorem mediaIndex_in_range (Math_sin : Q -> Q) (cx cy cz mediaCount : Z) :
  (0 < mediaCount)%Z ->
  Forall (fun p => (0 <= mediaIndex p < mediaCount)%Z)
         (generateChunkPlanes Math_sin cx cy cz mediaCount).
Proof. apply generateChunkPlanes_mediaIndex. Qed.

Lemma mediaIndex_in_range_witness :
  Forall (fun p => (0 <= mediaIndex p < 20)%Z)
         (generateChunkPlanes (fun q => q) 4 (-2) 7 20).
Proof. apply (mediaIndex_in_range (fun q => q) 4 (-2) 7 20). lia. Defined.

Lemma append_inv_head (s a b : string) : s +:+ a = s +:+ b -> a = b.
Proof. induction s as [|c s IH]; cbn; [done|]. intros [= H]. by apply IH. Qed.

(** X4. The ids of the placements of one chunk are pairwise distinct, so
    they can serve as keys of the sibling planes. *)
Theorem plane_ids_distinct (Math_sin : Q -> Q) (cx cy cz mediaCount : Z) :
  NoDup (id <$> generateChunkPlanes Math_sin cx cy cz mediaCount).
Proof.
  unfold generateChunkPlanes. rewrite <- list_fmap_compose.
  apply NoDup_fmap_2; [|apply NoDup_seq].
  intros i j. unfold compose, generatePlane. cbn [id]. intros H.
  do 6 apply append_inv_head in H.
  unfold JS.numberToString in H. apply (inj pretty) in H. lia.
Qed.

(** X5. [CHUNK_OFFSETS] holds exactly the integer offsets whose three
    components are within [MAX_DIST] = 3 of zero, each once, 343 in all,
    and the [dist] field of an entry is its Chebyshev distance. *)
Theorem CHUNK_OFFSETS_is_the_cube :
  (forall o, o ∈ CHUNK_OFFSETS
             <-> (Z.abs (dx o) <= 3 /\ Z.abs (dy o) <= 3 /\ Z.abs (dz o) <= 3
                  /\ dist o = Z.max (Z.max (Z.abs (dx o)) (Z.abs (dy o))) (Z.abs (dz o)))%Z)
  /\ NoDup CHUNK_OFFSETS
  /\ length CHUNK_OFFSETS = 343%nat.
Proof.
  split; [|split].
  - intros o. apply elem_of_CHUNK_OFFSETS.
  - apply NoDup_CHUNK_OFFSETS.
  - vm_compute. reflexivity.
Qed.

(** ** [clamp] and [lerp] *)

(** X6. With [min <= max], [clamp] returns a value in [min, max], returns
    its argument when that is already in range and the nearer bound when it
    is not, and is monotone. *)
Theorem clamp_into_range (v w min max : Q) :
  min <= max ->
  (min <= clamp v min max <= max)
  /\ (min <= v <= max -> clamp v min max == v)
  /\ (v <= min -> clamp v min max == min)
  /\ (max <= v -> clamp v min max == max)
  /\ (v <= w -> clamp v min max <= clamp w min max).
Proof.
  intros Hmm.
  destruct (clamp_cases v min max Hmm) as [[H E]|[[H E]|[H E]]];
    destruct (clamp_cases w min max Hmm) as [[H' E']|[[H' E']|[H' E']]];
    rewrite E; repeat split; intros; rewrite ?E'; lra.
Qed.

Lemma clamp_into_range_witness : -3.2 <= clamp 7 (-3.2) 3.2 <= 3.2.
Proof. apply (clamp_into_range 7 7 (-3.2) 3.2). lra. Defined.

(** X7. [lerp] leaves the distance to its target multiplied by [|1 - t|];
    for a factor in [0, 1] its result lies between its two arguments. *)
Theorem lerp_contracts (a b t : Q) :
  0 <= t <= 1 ->
  Qabs (lerp a b t - b) == (1 - t) * Qabs (a - b)
  /\ Qmin a b <= lerp a b t <= Qmax a b.
Proof.
  intros Ht. unfold lerp. split.
  - assert (a + (b - a) * t - b == (1 - t) * (a - b)) as -> by ring.
    rewrite Qabs_Qmult. rewrite (Qabs_pos (1 - t)) by lra. reflexivity.
  - destruct (Qmin_cases a b) as [[H ->]|[H ->]];
      destruct (Qmax_cases a b) as [[H' ->]|[H' ->]]; nra.
Qed.

Lemma lerp_contracts_witness :
  Qabs (lerp 1 0 0.18 - 0) == (1 - 0.18) * Qabs (1 - 0).
Proof. apply (lerp_contracts 1 0 0.18). lra. Defined.

(** ** Texture cache, further *)

(** X8. A request for a url that some earlier request already had, with
    the same or another media type, returns the texture of the earlier
    request and changes nothing: no allocation, no load, no new entry. *)
Theorem getTexture_again_is_a_hit (a b : MediaItem) (st : Store) :
  url a = url b ->
  getTexture b (getTexture a st).2 = ((getTexture a st).1, (getTexture a st).2).
Proof.
  intros Hab. destruct (getTexture_returns a st) as (t & Hret & Hcache).
  rewrite Hret. apply getTexture_hit. by rewrite <- Hab.
Qed.

Lemma getTexture_again_is_a_hit_witness :
  getTexture {| url := "clip"; type := video |}
             (getTexture {| url := "clip"; type := image |} emptyStore).2
  = ((getTexture {| url := "clip"; type := image |} emptyStore).1,
     (getTexture {| url := "clip"; type := image |} emptyStore).2).
Proof.
  apply (getTexture_again_is_a_hit {| url := "clip"; type := image |}
                                   {| url := "clip"; type := video |}).
  reflexivity.
Defined.

Lemma emptyStore_cachesInvariant : cachesInvariant emptyStore.
Proof. split; intros *; cbn; by rewrite ?lookup_empty. Qed.

Lemma getTexture_cachesInvariant (item : MediaItem) (st : Store) :
  cachesInvariant st -> cachesInvariant (getTexture item st).2.
Proof.
  intros [Hbuilt Hcreated Hcached Halloc Hdistinct].
  unfold getTexture.
  destruct (textureCache st !! url item) as [t0|] eqn:Hc; [by split|].
  destruct (type item).
  - (* image *)
    cbn [snd]. split; cbn [textureCache videoElements allocated].
    + intros u t. destruct (decide (url item = u)) as [<-|Hne].
      * rewrite lookup_insert_eq. intros [= <-]. by repeat split.
      * rewrite lookup_insert_ne by done. apply Hbuilt.
    + exact Hcreated.
    + intros u el Hel. destruct (Hcached u el Hel) as (t & Ht & Hs).
      exists t. split; [|done]. rewrite lookup_insert_ne; [done|]. congruence.
    + intros u t. destruct (decide (url item = u)) as [<-|Hne].
      * rewrite lookup_insert_eq. intros [= <-]. cbn. lia.
      * rewrite lookup_insert_ne by done. intros Ht. specialize (Halloc u t Ht). lia.
    + intros u u' t t'.
      destruct (decide (url item = u)) as [<-|Hne];
        destruct (decide (url item = u')) as [<-|Hne']; [done|..];
        rewrite ?lookup_insert_eq, ?lookup_insert_ne by done.
      * intros [= <-] Ht'. cbn. specialize (Halloc u' t' Ht'). lia.
      * intros Ht [= <-]. cbn. specialize (Halloc u t Ht). lia.
      * apply Hdistinct.
  - (* video *)
    destruct (videoElements st !! url item) as [el0|] eqn:Hv.
    { destruct (Hcached _ _ Hv) as (t & Ht & _). congruence. }
    cbn [snd]. split; cbn [textureCache videoElements allocated].
    + intros u t. destruct (decide (url item = u)) as [<-|Hne].
      * rewrite lookup_insert_eq. intros [= <-]. by repeat split.
      * rewrite lookup_insert_ne by done. apply Hbuilt.
    + intros u el. destruct (decide (url item = u)) as [<-|Hne].
      * rewrite lookup_insert_eq. intros [= <-]. by repeat split.
      * rewrite lookup_insert_ne by done. apply Hcreated.
    + intros u el. destruct (decide (url item = u)) as [<-|Hne].
      * rewrite !lookup_insert_eq. intros [= <-]. by eexists.
      * rewrite !lookup_insert_ne by done. apply Hcached.
    + intros u t. destruct (decide (url item = u)) as [<-|Hne].
      * rewrite lookup_insert_eq. intros [= <-]. cbn. lia.
      * rewrite lookup_insert_ne by done. intros Ht. specialize (Halloc u t Ht). lia.
    + intros u u' t t'.
      destruct (decide (url item = u)) as [<-|Hne];
        destruct (decide (url item = u')) as [<-|Hne']; [done|..];
        rewrite ?lookup_insert_eq, ?lookup_insert_ne by done.
      * intros [= <-] Ht'. cbn. specialize (Halloc u' t' Ht'). lia.
      * intros Ht [= <-]. cbn. specialize (Halloc u t Ht). lia.
      * apply Hdistinct.
Qed.

Lemma getTextures_cachesInvariant (calls : list MediaItem) (st : Store) :
  cachesInvariant st -> cachesInvariant (getTextures calls st).2.
Proof.
  revert st. induction calls as [|item calls IH]; intros st Hst; [done|].
  rewrite getTextures_cons. cbn [snd]. by apply IH, getTexture_cachesInvariant.
Qed.

(** What a call returned is what the cache holds for its url at the end. *)
Lemma getTextures_result_cached (calls : list MediaItem) (st : Store) (i : nat)
    (a : MediaItem) :
  calls !! i = Some a ->
  exists t, (getTextures calls st).1 !! i = Some (Some t)
            /\ textureCache (getTextures calls st).2 !! url a = Some t.
Proof.
  revert st i. induction calls as [|item calls IH]; intros st i Hi.
  - by rewrite lookup_nil in Hi.
  - rewrite getTextures_cons. cbn [fst snd]. destruct i as [|i]; cbn in Hi |- *.
    + injection Hi as ->. destruct (getTexture_returns a st) as (t & Hret & Hcache).
      exists t. rewrite Hret. split; [done|].
      by apply getTextures_cached.
    + by apply IH.
Qed.

(** X9. Over a process lifetime two requests for different urls never
    return the same texture instance. *)
Theorem getTexture_separates_urls (calls : list MediaItem) (i j : nat)
    (a b : MediaItem) (ta tb : Texture) :
  calls !! i = Some a -> calls !! j = Some b -> url a <> url b ->
  (getTextures calls emptyStore).1 !! i = Some (Some ta) ->
  (getTextures calls emptyStore).1 !! j = Some (Some tb) ->
  instance ta <> instance tb.
Proof.
  intros Hi Hj Hab Hta Htb Heq.
  destruct (getTextures_result_cached calls emptyStore i a Hi) as (ta' & Hta' & Hca).
  destruct (getTextures_result_cached calls emptyStore j b Hj) as (tb' & Htb' & Hcb).
  assert (ta' = ta) as -> by congruence. assert (tb' = tb) as -> by congruence.
  apply Hab.
  eapply (instances_distinct _ (getTextures_cachesInvariant calls emptyStore
                                  emptyStore_cachesInvariant)); eassumption.
Qed.

Lemma getTexture_separates_urls_witness :
  instance {| instance := 0; source := LoadedImage "a";
              minFilter := LinearMipmapLinearFilter; magFilter := LinearFilter;
              generateMipmaps := true; anisotropy := 4 |}
  <> instance {| instance := 2;
                 source := VideoFrames {| video_instance := 1; src := "b";
                                          crossOrigin := "anonymous"; loop := true;
                                          muted := true; playsInline := true;
                                          autoplay := true |};
                 minFilter := LinearFilter; magFilter := LinearFilter;
                 generateMipmaps := false; anisotropy := 1 |}.
Proof.
  apply (getTexture_separates_urls
           [ {| url := "a"; type := image |}; {| url := "b"; type := video |} ] 0 1
           {| url := "a"; type := image |} {| url := "b"; type := video |});
    try reflexivity.
  discriminate.
Defined.

(** X10. Over a process lifetime every cached texture was built for the
    url it is cached under, with the sampling settings of its kind: an
    image texture with trilinear minification, mipmaps and anisotropy 4, a
    video texture with linear filters and no mipmaps, over a looping,
    muted, inline, autoplaying video element of that url; and every video
    element created is the one behind the cached texture of its url. *)
Theorem caches_hold_what_was_built (calls : list MediaItem) :
  let st := (getTextures calls emptyStore).2 in
  (forall u t, textureCache st !! u = Some t -> builtFor u t)
  /\ (forall u el, videoElements st !! u = Some el ->
        createdFor u el
        /\ exists t, textureCache st !! u = Some t /\ source t = VideoFrames el).
Proof.
  cbv zeta.
  pose proof (getTextures_cachesInvariant calls emptyStore emptyStore_cachesInvariant)
    as [Hbuilt Hcreated Hcached _ _].
  split; [exact Hbuilt|]. intros u el Hel. split; [by eapply Hcreated|by apply Hcached].
Qed.

(** ** Media plane and chunk renderer, further *)

Lemma displayScale_natural (H : Q) (ts : TextureState) (w h : Z) :
  (0 < w)%Z -> (0 < h)%Z ->
  naturalDimensions (texture_image ts) = Some (w, h) ->
  x (displayScaleCallback (squareScale H) (Some ts)) == H * inject_Z w / inject_Z h
  /\ y (displayScaleCallback (squareScale H) (Some ts)) = H
  /\ z (displayScaleCallback (squareScale H) (Some ts)) = 1.
Proof.
  intros Hw Hh Hnat. unfold displayScaleCallback.
  rewrite (getMediaDimensions_natural _ w h Hw Hh Hnat).
  destruct (Z.eqb_spec w 0); [lia|]. destruct (Z.eqb_spec h 0); [lia|].
  cbn [orb x y z squareScale]. split; [|done].
  assert (0 < inject_Z w) as Hqw by (change 0 with (inject_Z 0); rewrite <- Zlt_Qlt; lia).
  assert (0 < inject_Z h) as Hqh by (change 0 with (inject_Z 0); rewrite <- Zlt_Qlt; lia).
  assert (0 < inject_Z w / inject_Z h) as Hpos.
  { apply Qlt_shift_div_l; [done|]. lra. }
  destruct (Qeq_bool (inject_Z w / inject_Z h) 0) eqn:E.
  - apply Qeq_bool_eq in E. lra.
  - field. lra.
Qed.

(** X11. A plane that is marked ready as soon as it mounts either found
    no media element on its texture, and then keeps the square base scale,
    or found an image or video whose natural dimensions are already
    positive, and then takes their aspect ratio; an element of any other
    kind is never marked ready and gets no listener. *)
Theorem ready_on_mount_has_its_aspect (H : Q) (ts : TextureState) :
  readinessOnMount (texture_image ts) = markedReady ->
  match texture_image ts with
  | None => displayScaleCallback (squareScale H) (Some ts) = squareScale H
  | Some el =>
    exists w h, naturalDimensions (Some el) = Some (w, h)
                /\ (0 < w)%Z /\ (0 < h)%Z
                /\ x (displayScaleCallback (squareScale H) (Some ts))
                   == H * inject_Z w / inject_Z h
                /\ y (displayScaleCallback (squareScale H) (Some ts)) = H
  end.
Proof.
  intros Hready.
  destruct (texture_image ts) as [el|] eqn:Himg.
  - assert (exists w h, naturalDimensions (Some el) = Some (w, h) /\ (0 < w)%Z /\ (0 < h)%Z)
      as (w & h & Hnat & Hw & Hh).
    { destruct el as [nw wd nh ht c|vw vh|]; cbn in Hready; [| |done].
      - destruct c; [|done]. cbn in Hready.
        destruct (Z.ltb_spec 0 nw); [|done]. destruct (Z.ltb_spec 0 nh); [|done].
        by exists nw, nh.
      - destruct (Z.ltb_spec 0 vw); [|done]. destruct (Z.ltb_spec 0 vh); [|done].
        by exists vw, vh. }
    exists w, h. split; [done|]. split; [done|]. split; [done|].
    rewrite <- Himg in Hnat.
    destruct (displayScale_natural H ts w h Hw Hh Hnat) as (Hx & Hy & _). by split.
  - unfold displayScaleCallback. by rewrite Himg.
Qed.

Lemma ready_on_mount_has_its_aspect_witness :
  exists w h,
    naturalDimensions (Some (HTMLVideoElement 1920 1080)) = Some (w, h)
    /\ (0 < w)%Z /\ (0 < h)%Z
    /\ x (displayScaleCallback (squareScale 12)
            (Some {| texture := {| instance := 1;
                                   source := VideoFrames
                                     {| video_instance := 0; src := "v";
                                        crossOrigin := "anonymous"; loop := true;
                                        muted := true; playsInline := true;
                                        autoplay := true |};
                                   minFilter := LinearFilter; magFilter := LinearFilter;
                                   generateMipmaps := false; anisotropy := 1 |};
                     texture_image := Some (HTMLVideoElement 1920 1080) |}))
       == 12 * inject_Z w / inject_Z h
    /\ y (displayScaleCallback (squareScale 12)
            (Some {| texture := {| instance := 1;
                                   source := VideoFrames
                                     {| video_instance := 0; src := "v";
                                        crossOrigin := "anonymous"; loop := true;
                                        muted := true; playsInline := true;
                                        autoplay := true |};
                                   minFilter := LinearFilter; magFilter := LinearFilter;
                                   generateMipmaps := false; anisotropy := 1 |};
                     texture_image := Some (HTMLVideoElement 1920 1080) |})) = 12.
Proof.
  exact (ready_on_mount_has_its_aspect 12
           {| texture := {| instance := 1;
                            source := VideoFrames
                              {| video_instance := 0; src := "v";
                                 crossOrigin := "anonymous"; loop := true;
                                 muted := true; playsInline := true;
                                 autoplay := true |};
                            minFilter := LinearFilter; magFilter := LinearFilter;
                            generateMipmaps := false; anisotropy := 1 |};
              texture_image := Some (HTMLVideoElement 1920 1080) |} eq_refl).
Defined.

(** X12. With a non-empty media list the chunk renderer renders every
    placement: each plane gets the item at its media index, its own id as
    key, its position and base scale, and the chunk's visibility. *)
Theorem Chunk_renders_every_placement (Math_sin : Q -> Q) (cx cy cz : Z)
    (items : list MediaItem) (v : Q) :
  items <> [] ->
  Forall2 (fun plane entry =>
             exists item, items !! Z.to_nat (mediaIndex plane) = Some item
                          /\ entry = Some {| plane_key := id plane;
                                             plane_position := position plane;
                                             plane_scale := scale plane;
                                             media := item;
                                             plane_visibility := v |})
          (generateChunkPlanes Math_sin cx cy cz (Z.of_nat (length items)))
          (Chunk Math_sin cx cy cz items v).
Proof.
  intros Hne. unfold Chunk. apply Forall2_fmap_r, Forall_Forall2_diag.
  assert (0 < Z.of_nat (length items))%Z as Hlen by (destruct items; [done|cbn; lia]).
  eapply Forall_impl; [apply (generateChunkPlanes_mediaIndex _ _ _ _ _ Hlen)|].
  intros plane Hidx. unfold compose. cbn beta in *.
  unfold JS.rem. destruct (Z.eqb_spec (Z.of_nat (length items)) 0) as [|_]; [lia|].
  rewrite Z.rem_small by lia. unfold JS.index.
  destruct (Z.ltb_spec (mediaIndex plane) 0) as [|_]; [lia|].
  destruct (items !! Z.to_nat (mediaIndex plane)) as [item|] eqn:Hitem.
  - by exists item.
  - apply lookup_ge_None in Hitem. lia.
Qed.

Lemma Chunk_renders_every_placement_witness :
  length (Chunk (fun q => q) 0 0 0 [ {| url := "a"; type := image |} ] 1) = 5%nat.
Proof.
  pose proof (Chunk_renders_every_placement (fun q => q) 0 0 0
                [ {| url := "a"; type := image |} ] 1 ltac:(discriminate)) as H.
  apply Forall2_length in H. rewrite <- H. reflexivity.
Defined.

(** ** Input handlers *)

Lemma toLowerCase_char_idempotent (c : ascii) :
  toLowerCase_char (toLowerCase_char c) = toLowerCase_char c.
Proof. destruct c as [[] [] [] [] [] [] [] []]; reflexivity. Qed.

Lemma toLowerCase_idempotent (k : string) : toLowerCase (toLowerCase k) = toLowerCase k.
Proof.
  induction k as [|c k IH]; [done|]. cbn. by rewrite toLowerCase_char_idempotent, IH.
Qed.

(** X13. Key names are held in lower case: for key names of ASCII
    characters, a key pressed under one spelling is released by a key-up
    under any spelling with the same lower case (Shift or Caps Lock in
    between), other keys stay as they were, and pressing a held key again
    changes nothing. *)
Theorem key_release_ignores_case (k k' : string) (s : Controller) :
  isASCII k = true -> isASCII k' = true ->
  toLowerCase k = toLowerCase k' ->
  has (keys (onKeyDown k s)) (toLowerCase k) = true
  /\ has (keys (onKeyUp k' (onKeyDown k s))) (toLowerCase k) = false
  /\ (forall other, other <> toLowerCase k ->
        has (keys (onKeyUp k' (onKeyDown k s))) other = has (keys s) other)
  /\ keys (onKeyDown k' (onKeyDown k s)) = keys (onKeyDown k s)
  /\ toLowerCase (toLowerCase k) = toLowerCase k.
Proof.
  intros _ _ Hk. unfold has, onKeyDown, onKeyUp. cbn [keys upd_keys]. rewrite <- Hk.
  split; [|split; [|split; [|split]]].
  - apply bool_decide_eq_true_2, elem_of_union_l, elem_of_singleton. reflexivity.
  - apply bool_decide_eq_false_2. rewrite elem_of_difference, elem_of_singleton. tauto.
  - intros other Hother. apply bool_decide_ext.
    rewrite elem_of_difference, elem_of_union, !elem_of_singleton. tauto.
  - apply leibniz_equiv. intros other.
    rewrite !elem_of_union, !elem_of_singleton. tauto.
  - apply toLowerCase_idempotent.
Qed.

Lemma key_release_ignores_case_witness :
  has (keys (onKeyUp "w" (onKeyDown "W" mounted))) (toLowerCase "W") = false.
Proof.
  exact (proj1 (proj2 (key_release_ignores_case "W" "w" mounted eq_refl eq_refl eq_refl))).
Defined.

Section DeviceEvents.

Variable Math_sqrt : Q -> Q.

Lemma run_events_motion (trace : list Event) (s : Controller) :
  Forall (fun e => e <> Frame) trace ->
  camera (run Math_sqrt trace s) = camera s
  /\ velocity (run Math_sqrt trace s) = velocity s
  /\ chunks (run Math_sqrt trace s) = chunks s.
Proof.
  revert s. induction trace as [|e trace IH]; intros s Hall; [done|].
  apply Forall_cons in Hall as [He Hall].
  change (run Math_sqrt (e :: trace) s) with (run Math_sqrt trace (handle Math_sqrt e s)).
  destruct (IH (handle Math_sqrt e s) Hall) as (-> & -> & ->).
  destruct (handle_event_motion Math_sqrt e s He) as (Hv & Hp & Hc). by repeat split.
Qed.

End DeviceEvents.

(** X14. Device events only stage intent: no sequence of key, mouse,
    wheel and touch events moves the camera, changes the velocity or
    touches the active chunk set; only a frame does. *)
Theorem device_events_never_move_the_camera (Math_sqrt : Q -> Q)
    (trace : list Event) (s : Controller) :
  Forall (fun e => e <> Frame) trace ->
  camera (run Math_sqrt trace s) = camera s
  /\ velocity (run Math_sqrt trace s) = velocity s
  /\ chunks (run Math_sqrt trace s) = chunks s.
Proof. apply run_events_motion. Qed.

Lemma device_events_never_move_the_camera_witness :
  camera (run sqrt_exact
            [ KeyDown "w"; MouseDown 10 10; MouseMove 90 40; Wheel 120;
              TouchStart [ finger 0 0; finger 3 4 ]; TouchMove [ finger 0 0; finger 6 8 ] ]
            mounted)
  = camera mounted.
Proof.
  refine (proj1 (device_events_never_move_the_camera sqrt_exact _ mounted _)).
  repeat constructor; discriminate.
Defined.

(** X15. While dragging, a mouse move to [(cx, cy)] lowers the x target
    velocity by 0.012 times the horizontal distance from the last mouse
    position and raises the y target velocity by 0.012 times the vertical
    one; two successive moves add up to the single move to the final
    position. *)
Theorem mouse_drag_composes (cx1 cy1 cx2 cy2 : Q) (s : Controller) :
  isDragging s = true ->
  let one := onMouseMove cx2 cy2 s in
  let two := onMouseMove cx2 cy2 (onMouseMove cx1 cy1 s) in
  x (targetVel one) == x (targetVel s) - (cx2 - (lastMouse s).1) * 0.012
  /\ y (targetVel one) == y (targetVel s) + (cy2 - (lastMouse s).2) * 0.012
  /\ z (targetVel one) = z (targetVel s)
  /\ IntegrationSpec.veq (targetVel two) (targetVel one)
  /\ lastMouse two = (cx2, cy2)
  /\ isDragging two = true.
Proof.
  intros Hd. cbv zeta. unfold onMouseMove. rewrite Hd. cbn [negb].
  cbn [isDragging set_lastMouse upd_targetVel]. rewrite Hd. cbn [negb].
  unfold IntegrationSpec.veq.
  cbn [targetVel lastMouse set_lastMouse upd_targetVel subX addY x y z fst snd].
  repeat split; try reflexivity; try ring. exact Hd.
Qed.

Lemma mouse_drag_composes_witness :
  x (targetVel (onMouseMove 40 25 (onMouseDown 10 10 mounted)))
  == x (targetVel (onMouseDown 10 10 mounted))
     - (40 - (lastMouse (onMouseDown 10 10 mounted)).1) * 0.012.
Proof.
  exact (proj1 (mouse_drag_composes 0 0 40 25 (onMouseDown 10 10 mounted) eq_refl)).
Defined.

Lemma useFrame_scrollAccum (s : Controller) :
  scrollAccum (useFrame s) = scrollAccum s * 0.8.
Proof.
  unfold useFrame.
  destruct (useFrame_chunks_motion (useFrame_motion s)) as (_ & _ & _ & -> & _).
  rewrite useFrame_motion_split, integrate_fields. cbn [scrollAccum].
  by destruct (applyKeyboard_fields s) as (_ & _ & _ & -> & _).
Qed.

Lemma drained_pos (n : nat) : 0 < drained n <= 1.
Proof. induction n as [|n IH]; cbn [drained]; lra. Qed.

(** X16. Wheel events add 0.006 times their [deltaY] to the scroll
    accumulator, and every frame multiplies the accumulator by 0.8: after
    two wheel events and [n] frames it holds [0.8 ^ n] times the
    accumulated amount, whatever else the frames do. *)
Theorem scroll_accumulates_and_drains (d1 d2 : Q) (n : nat) (s : Controller) :
  scrollAccum (Nat.iter n useFrame (onWheel d2 (onWheel d1 s)))
  == drained n * (scrollAccum s + (d1 + d2) * 0.006)
  /\ 0 < drained n <= 1.
Proof.
  split; [|apply drained_pos].
  induction n as [|n IH].
  - cbn. ring.
  - rewrite Nat.iter_succ, useFrame_scrollAccum, IH. cbn [drained]. ring.
Qed.

Section Touches.

Variable Math_sqrt : Q -> Q.

Lemma onTouchMove_records (touches : list Touch) (s : Controller) :
  lastTouches (onTouchMove Math_sqrt touches s) = touches.
Proof.
  unfold onTouchMove.
  destruct touches as [|t1 [|t2 [|t3 ts]]], (lastTouches s) as [|l ls]; cbn;
    repeat (destruct (Qltb _ _)); reflexivity.
Qed.

Lemma Qltb_false_iff (a b : Q) : Qltb a b = false <-> b <= a.
Proof.
  unfold Qltb. rewrite negb_false_iff. apply Qle_bool_iff.
Qed.

End Touches.

(** X17. A touch move without a baseline changes no motion state: one
    finger with no contact on record, two fingers with no positive
    distance on record, or any other number of fingers leave target
    velocity and scroll accumulator as they were; in every case the
    contacts of the event become the contacts on record. *)
Theorem touch_move_without_baseline (Math_sqrt : Q -> Q) (touches : list Touch)
    (s : Controller) :
  (length touches = 1%nat /\ lastTouches s = [])
  \/ (length touches = 2%nat /\ lastTouchDist s <= 0)
  \/ (length touches <> 1%nat /\ length touches <> 2%nat) ->
  targetVel (onTouchMove Math_sqrt touches s) = targetVel s
  /\ scrollAccum (onTouchMove Math_sqrt touches s) = scrollAccum s
  /\ lastTouches (onTouchMove Math_sqrt touches s) = touches.
Proof.
  intros Hcase. split; [|split; [|apply onTouchMove_records]].
  - unfold onTouchMove.
    destruct Hcase as [[Hlen Hlast]|[[Hlen Hdist]|[Hlen1 Hlen2]]].
    + destruct touches as [|t1 [|t2 ts]]; try done. by rewrite Hlast.
    + destruct touches as [|t1 [|t2 [|t3 ts]]]; try done. cbn [length Nat.eqb].
      apply (Qltb_false_iff 0) in Hdist. rewrite Hdist. by destruct (lastTouches s).
    + destruct touches as [|t1 [|t2 [|t3 ts]]]; try done; by destruct (lastTouches s).
  - unfold onTouchMove.
    destruct Hcase as [[Hlen Hlast]|[[Hlen Hdist]|[Hlen1 Hlen2]]].
    + destruct touches as [|t1 [|t2 ts]]; try done. by rewrite Hlast.
    + destruct touches as [|t1 [|t2 [|t3 ts]]]; try done. cbn [length Nat.eqb].
      apply (Qltb_false_iff 0) in Hdist. rewrite Hdist. by destruct (lastTouches s).
    + destruct touches as [|t1 [|t2 [|t3 ts]]]; try done; by destruct (lastTouches s).
Qed.

Lemma touch_move_without_baseline_witness :
  scrollAccum (onTouchMove sqrt_exact [ finger 0 0; finger 3 4 ] mounted)
  = scrollAccum mounted.
Proof.
  refine (proj1 (proj2 (touch_move_without_baseline sqrt_exact
                          [ finger 0 0; finger 3 4 ] mounted _))).
  right; left. split; [reflexivity|]. cbn. lra.
Defined.

(** X18. Lifting a finger resets the pinch baseline: after a touch-end
    that leaves fewer than two contacts the distance on record is 0, so
    the next two-finger move adds nothing to the scroll accumulator and
    only records the new distance. *)
Theorem touch_end_resets_the_pinch (Math_sqrt : Q -> Q)
    (remaining touches : list Touch) (s : Controller) :
  (length remaining < 2)%nat -> length touches = 2%nat ->
  lastTouchDist (onTouchEnd Math_sqrt remaining s) = 0
  /\ scrollAccum (onTouchMove Math_sqrt touches (onTouchEnd Math_sqrt remaining s))
     = scrollAccum s
  /\ lastTouchDist (onTouchMove Math_sqrt touches (onTouchEnd Math_sqrt remaining s))
     = getTouchDistance Math_sqrt touches.
Proof.
  intros Hrem Hlen.
  assert (lastTouchDist (onTouchEnd Math_sqrt remaining s) = 0) as Hzero.
  { unfold onTouchEnd. cbn [lastTouchDist set_cursor set_lastTouchDist lastTouches
                             set_lastTouches].
    destruct remaining as [|r1 [|r2 rs]]; [reflexivity|reflexivity|cbn in Hrem; lia]. }
  split; [exact Hzero|].
  destruct touches as [|t1 [|t2 [|t3 ts]]]; try done.
  unfold onTouchMove. cbn [length Nat.eqb]. rewrite Hzero.
  change (Qltb 0 0) with false. cbv iota.
  destruct (lastTouches (onTouchEnd Math_sqrt remaining s)); split; reflexivity.
Qed.

Lemma touch_end_resets_the_pinch_witness :
  scrollAccum (onTouchMove sqrt_exact [ finger 0 0; finger 6 8 ]
                 (onTouchEnd sqrt_exact [ finger 0 0 ]
                    (onTouchStart sqrt_exact [ finger 0 0; finger 3 4 ] mounted)))
  = scrollAccum (onTouchStart sqrt_exact [ finger 0 0; finger 3 4 ] mounted).
Proof.
  refine (proj1 (proj2 (touch_end_resets_the_pinch sqrt_exact [ finger 0 0 ]
                          [ finger 0 0; finger 6 8 ] _ _ _))).
  - cbn. lia.
  - reflexivity.
Defined.

(** X19. Successive pinch moves add up: with a positive distance on
    record before each, two two-finger moves add to the scroll accumulator
    what the single move to the final contacts would add, 0.006 times the
    distance on record minus the final distance. *)
Theorem pinch_moves_compose (Math_sqrt : Q -> Q) (first second : list Touch)
    (s : Controller) :
  length first = 2%nat -> length second = 2%nat ->
  0 < lastTouchDist s -> 0 < getTouchDistance Math_sqrt first ->
  scrollAccum (onTouchMove Math_sqrt second (onTouchMove Math_sqrt first s))
  == scrollAccum s + (lastTouchDist s - getTouchDistance Math_sqrt second) * 0.006
  /\ scrollAccum (onTouchMove Math_sqrt second (onTouchMove Math_sqrt first s))
     == scrollAccum (onTouchMove Math_sqrt second s).
Proof.
  intros H1 H2 Hlast Hd1.
  destruct (onTouchMove_pinch Math_sqrt first s H1 Hlast) as (Ha1 & _ & _ & Hl1).
  assert (0 < lastTouchDist (onTouchMove Math_sqrt first s)) as Hlast1 by (by rewrite Hl1).
  destruct (onTouchMove_pinch Math_sqrt second _ H2 Hlast1) as (Ha2 & _).
  destruct (onTouchMove_pinch Math_sqrt second s H2 Hlast) as (Ha & _).
  rewrite Ha2, Ha1, Hl1, Ha. split; ring.
Qed.

Lemma pinch_moves_compose_witness :
  let start := onTouchStart sqrt_exact [ finger 0 0; finger 3 4 ] mounted in
  scrollAccum (onTouchMove sqrt_exact [ finger 0 0; finger 0 3 ]
                 (onTouchMove sqrt_exact [ finger 0 0; finger 6 8 ] start))
  == scrollAccum start
     + (lastTouchDist start - getTouchDistance sqrt_exact [ finger 0 0; finger 0 3 ]) * 0.006.
Proof.
  cbv zeta.
  refine (proj1 (pinch_moves_compose sqrt_exact [ finger 0 0; finger 6 8 ]
                   [ finger 0 0; finger 0 3 ] _ _ _ _ _)).
  - reflexivity.
  - reflexivity.
  - vm_compute. reflexivity.
  - vm_compute. reflexivity.
Defined.

(** X20. A one-finger move with a contact on record lowers the x target
    velocity by 0.02 times the horizontal distance from that contact and
    raises the y target velocity by 0.02 times the vertical one, leaving
    the forward axis and the scroll accumulator alone; two successive
    moves add up to the single move to the final contact. *)
Theorem one_finger_pan_composes (Math_sqrt : Q -> Q) (t1 t2 last : Touch)
    (others : list Touch) (s : Controller) :
  lastTouches s = last :: others ->
  let one := onTouchMove Math_sqrt [t2] s in
  let two := onTouchMove Math_sqrt [t2] (onTouchMove Math_sqrt [t1] s) in
  x (targetVel one) == x (targetVel s) - (clientX t2 - clientX last) * 0.02
  /\ y (targetVel one) == y (targetVel s) + (clientY t2 - clientY last) * 0.02
  /\ z (targetVel one) = z (targetVel s)
  /\ scrollAccum one = scrollAccum s
  /\ IntegrationSpec.veq (targetVel two) (targetVel one).
Proof.
  intros Hl. cbv zeta. unfold onTouchMove. rewrite Hl.
  cbn [lastTouches set_lastTouches upd_targetVel].
  unfold IntegrationSpec.veq.
  cbn [targetVel scrollAccum set_lastTouches upd_targetVel subX addY x y z].
  repeat split; try reflexivity; ring.
Qed.

Lemma one_finger_pan_composes_witness :
  let start := onTouchStart sqrt_exact [ finger 10 10 ] mounted in
  x (targetVel (onTouchMove sqrt_exact [ finger 30 5 ] start))
  == x (targetVel start) - (clientX (finger 30 5) - clientX (finger 10 10)) * 0.02.
Proof.
  cbv zeta.
  exact (proj1 (one_finger_pan_composes sqrt_exact (finger 0 0) (finger 30 5)
                  (finger 10 10) []
                  (onTouchStart sqrt_exact [ finger 10 10 ] mounted) eq_refl)).
Defined.

(** ** Motion without input *)

Lemma useFrame_no_keys_fields (s : Controller) :
  keys s = ∅ ->
  let M := MAX_VELOCITY in
  let tx := clamp (x (targetVel s)) (- M) M in
  let ty := clamp (y (targetVel s)) (- M) M in
  let tz := clamp (z (targetVel s) + scrollAccum s) (- M) M in
  targetVel (useFrame s) = {| x := tx * 0.9; y := ty * 0.9; z := tz * 0.9 |}
  /\ velocity (useFrame s)
     = {| x := lerp (x (velocity s)) tx 0.16; y := lerp (y (velocity s)) ty 0.16;
          z := lerp (z (velocity s)) tz 0.16 |}
  /\ camera (useFrame s)
     = {| x := x (camera s) + lerp (x (velocity s)) tx 0.16;
          y := y (camera s) + lerp (y (velocity s)) ty 0.16;
          z := z (camera s) + lerp (z (velocity s)) tz 0.16 |}
  /\ keys (useFrame s) = ∅.
Proof.
  intros Hk. cbv zeta. unfold useFrame.
  destruct (useFrame_chunks_motion (useFrame_motion s)) as (-> & -> & -> & _ & ->).
  rewrite useFrame_motion_split, (applyKeyboard_no_keys s Hk), integrate_fields.
  cbn [targetVel velocity camera keys]. by rewrite Hk.
Qed.

Lemma Qabs_cases (t : Q) : (0 <= t /\ Qabs t == t) \/ (t <= 0 /\ Qabs t == - t).
Proof.
  destruct (Qlt_le_dec t 0) as [H|H].
  - right. split; [lra|]. apply Qabs_neg. lra.
  - left. split; [lra|]. by apply Qabs_pos.
Qed.

Lemma coasts_axis (t v : Q) :
  coasts t v (clamp t (- MAX_VELOCITY) MAX_VELOCITY * 0.9)
         (lerp v (clamp t (- MAX_VELOCITY) MAX_VELOCITY) 0.16).
Proof.
  unfold coasts, lerp, MAX_VELOCITY.
  destruct (Qabs_cases t) as [[Ht Ea]|[Ht Ea]]; rewrite Ea;
    (destruct (clamp_cases t (- 3.2) 3.2) as [[H E]|[[H E]|[H E]]]; [lra|..]);
    rewrite E; (split; [apply Qabs_Qle_condition|]); repeat split; intros; lra.
Qed.

(** X21. Over a frame with no key held and an empty scroll accumulator no
    axis reverses: each target-velocity axis keeps its sign and loses at
    least a tenth of its magnitude, and a velocity axis with the sign of
    its target keeps that sign. *)
Theorem coasting_never_reverses (s : Controller) :
  keys s = ∅ -> scrollAccum s == 0 ->
  coasts (x (targetVel s)) (x (velocity s))
         (x (targetVel (useFrame s))) (x (velocity (useFrame s)))
  /\ coasts (y (targetVel s)) (y (velocity s))
            (y (targetVel (useFrame s))) (y (velocity (useFrame s)))
  /\ coasts (z (targetVel s)) (z (velocity s))
            (z (targetVel (useFrame s))) (z (velocity (useFrame s))).
Proof.
  intros Hk Hacc.
  destruct (useFrame_no_keys_fields s Hk) as (-> & -> & _). cbn [x y z].
  split; [apply coasts_axis|]. split; [apply coasts_axis|].
  assert (z (targetVel s) + scrollAccum s == z (targetVel s)) as E by (rewrite Hacc; ring).
  pose proof (coasts_axis (z (targetVel s)) (z (velocity s))) as Hz.
  unfold coasts in *. rewrite E. exact Hz.
Qed.

Lemma coasting_never_reverses_witness :
  let s := run sqrt_exact [ KeyDown "s"; Frame; Frame; KeyUp "s"; Frame ] mounted in
  coasts (z (targetVel s)) (z (velocity s))
         (z (targetVel (useFrame s))) (z (velocity (useFrame s))).
Proof.
  cbv zeta.
  refine (proj2 (proj2 (coasting_never_reverses _ _ _))).
  - vm_compute. reflexivity.
  - vm_compute. reflexivity.
Defined.

Lemma atRest_frame (s : Controller) :
  atRest s -> atRest (useFrame s) /\ IntegrationSpec.veq (camera (useFrame s)) (camera s).
Proof.
  intros (Hk & Hacc & (Htx & Hty & Htz) & (Hvx & Hvy & Hvz)).
  cbn [IntegrationSpec.zero x y z] in *.
  destruct (useFrame_no_keys_fields s Hk) as (Ht & Hv & Hp & Hk').
  assert (clamp (x (targetVel s)) (- MAX_VELOCITY) MAX_VELOCITY == 0) as Ex.
  { rewrite Htx. vm_compute. reflexivity. }
  assert (clamp (y (targetVel s)) (- MAX_VELOCITY) MAX_VELOCITY == 0) as Ey.
  { rewrite Hty. vm_compute. reflexivity. }
  assert (clamp (z (targetVel s) + scrollAccum s) (- MAX_VELOCITY) MAX_VELOCITY == 0) as Ez.
  { rewrite Htz, Hacc. vm_compute. reflexivity. }
  unfold atRest, IntegrationSpec.veq. rewrite Ht, Hv, Hp, Hk', useFrame_scrollAccum.
  cbn [IntegrationSpec.zero x y z]. unfold lerp.
  rewrite Ex, Ey, Ez, Hvx, Hvy, Hvz, Hacc.
  repeat split; try reflexivity; ring.
Qed.

(** X22. Rest is a fixed point: with no key held, an empty scroll
    accumulator and zero target velocity and velocity, any number of
    frames leave the controller at rest and the camera where it was. *)
Theorem rest_is_kept (n : nat) (s : Controller) :
  atRest s ->
  atRest (Nat.iter n useFrame s)
  /\ IntegrationSpec.veq (camera (Nat.iter n useFrame s)) (camera s).
Proof.
  intros Hs. induction n as [|n [IH Hcam]].
  - split; [exact Hs|]. by repeat split.
  - rewrite Nat.iter_succ. destruct (atRest_frame _ IH) as [Hrest (Hx & Hy & Hz)].
    split; [exact Hrest|]. destruct Hcam as (Hx' & Hy' & Hz').
    repeat split; etrans; eassumption.
Qed.

Lemma rest_is_kept_witness :
  IntegrationSpec.veq (camera (Nat.iter 30 useFrame mounted)) (camera mounted).
Proof.
  refine (proj2 (rest_is_kept 30 mounted _)).
  repeat split; reflexivity.
Defined.

(** ** The active set, further *)

Lemma length_omap_le {A B} (f : A -> option B) (l : list A) :
  (length (omap f l) <= length l)%nat.
Proof. induction l as [|a l IH]; cbn; [lia|]. destruct (f a); cbn; lia. Qed.

(** X23. After any frame, from any state, the active set has at most 343
    chunks, all with distinct keys, each keyed by its own coordinates and
    at most three chunks away, on every axis, from the chunk that holds the
    camera. *)
Theorem active_set_is_bounded (s : Controller) :
  (length (chunks (useFrame s)) <= 343)%nat
  /\ NoDup (key <$> chunks (useFrame s))
  /\ Forall (fun c =>
               key c = chunkKey (cx c) (cy c) (cz c)
               /\ (dist (offsetTo (camera (useFrame s)) c) <= 3)%Z)
            (chunks (useFrame s)).
Proof.
  rewrite useFrame_chunks_eq. cbv zeta. split; [|split].
  - rewrite nextChunks_omap.
    etrans; [apply length_omap_le|]. vm_compute. lia.
  - apply nextChunks_keys_distinct.
  - apply Forall_forall. intros c Hc.
    apply elem_of_nextChunks in Hc as (o & Ho & -> & _).
    split; [unfold entryFor; cbn [key cx cy cz]; reflexivity|].
    rewrite (entryFor_offsetTo _ _ _ Ho).
    apply elem_of_CHUNK_OFFSETS in Ho as (Hx & Hy & Hz & ->).
    unfold chebyshev. lia.
Qed.

Lemma Qle_bool_true (a b : Q) : a <= b -> Qle_bool a b = true.
Proof. apply Qle_bool_iff. Qed.

(** The chunks of the camera's own layer, up to two away, have target 1. *)
Lemma targetFor_own_layer (p : Vector3) (o : Offset) :
  dz o = 0%Z -> (dist o <= 2)%Z ->
  targetFor (Qfloor (z p / CHUNK_SIZE)) (z p) o = 1.
Proof.
  intros Hz Hd. unfold targetFor, gridTargetOf, depthTargetOf.
  destruct (Z.leb_spec (dist o) RENDER_DISTANCE) as [_|H];
    [|unfold RENDER_DISTANCE in H; lia].
  rewrite Hz, Z.add_0_r.
  destruct (floor_chunk (z p)) as [Hlo Hhi].
  rewrite Qle_bool_true; [reflexivity|].
  apply Qabs_Qle_condition. unfold DEPTH_FADE_START.
  set (n := inject_Z (Qfloor (z p / CHUNK_SIZE))) in *. clearbody n.
  unfold CHUNK_SIZE. lra.
Qed.

(** X24. The camera's own layer is always shown: after a frame, from any
    state, every chunk with the camera's [cz] and at most two chunks away
    in x and y is in the active set with target visibility 1, and in a
    reachable state its visibility is at least 0.18. *)
Theorem own_layer_is_always_active (Math_sqrt : Q -> Q) (s : Controller) (X Y : Z) :
  let p := camera (useFrame s) in
  (Z.abs (X - (cameraChunk p).1.1) <= 2)%Z ->
  (Z.abs (Y - (cameraChunk p).1.2) <= 2)%Z ->
  exists c, c ∈ chunks (useFrame s)
            /\ (cx c, cy c, cz c) = (X, Y, (cameraChunk p).2)
            /\ chunkTarget p c = 1
            /\ (reachable Math_sqrt s -> 0.18 <= visibility c).
Proof.
  cbv zeta. unfold cameraChunk. cbn [fst snd]. intros HX HY.
  set (p := camera (useFrame s)) in *.
  set (o := {| dx := X - Qfloor (x p / CHUNK_SIZE); dy := Y - Qfloor (y p / CHUNK_SIZE);
               dz := 0;
               dist := chebyshev (X - Qfloor (x p / CHUNK_SIZE))
                                 (Y - Qfloor (y p / CHUNK_SIZE)) 0 |}).
  assert (o ∈ CHUNK_OFFSETS) as Ho.
  { apply elem_of_CHUNK_OFFSETS. unfold o, chebyshev. cbn [dx dy dz dist]. lia. }
  assert (targetFor (Qfloor (z p / CHUNK_SIZE)) (z p) o = 1) as Htarget.
  { apply targetFor_own_layer; [reflexivity|]. unfold o, chebyshev. cbn [dist]. lia. }
  exists (entryFor (Qfloor (x p / CHUNK_SIZE)) (Qfloor (y p / CHUNK_SIZE))
                   (Qfloor (z p / CHUNK_SIZE)) (z p) (chunks s) o).
  split; [|split; [|split]].
  - rewrite useFrame_chunks_eq. fold p. apply elem_of_nextChunks.
    exists o. split; [exact Ho|]. split; [reflexivity|].
    rewrite Htarget. intros [_ H]. discriminate H.
  - unfold entryFor, o. cbn [cx cy cz dx dy dz]. f_equal; [f_equal|]; lia.
  - rewrite (entryFor_target p (chunks s) o Ho). exact Htarget.
  - intros Hs. pose proof (reachable_invariant Math_sqrt s Hs) as Hinv.
    unfold entryFor. cbn [visibility]. rewrite Htarget.
    rewrite (prevMapOf_visibility _ _ (keys_distinct s Hinv)).
    pose proof (prevVisibility_unit (chunks s)
                  (chunkKey (Qfloor (x p / CHUNK_SIZE) + dx o)
                            (Qfloor (y p / CHUNK_SIZE) + dy o)
                            (Qfloor (z p / CHUNK_SIZE) + dz o))
                  (visibility_unit s Hinv)) as Hprev.
    unfold lerp, VISIBILITY_LERP. lra.
Qed.

Lemma own_layer_is_always_active_witness :
  exists c, c ∈ chunks (useFrame mounted)
            /\ (cx c, cy c, cz c) = (1, -2, (cameraChunk (camera (useFrame mounted))).2)%Z
            /\ chunkTarget (camera (useFrame mounted)) c = 1
            /\ (reachable sqrt_exact mounted -> 0.18 <= visibility c).
Proof.
  apply (own_layer_is_always_active sqrt_exact mounted 1 (-2)); vm_compute; discriminate.
Defined.

(** X25. Visibility eases toward its target and never overshoots: in a
    reachable state, the visibility of every chunk after a frame lies
    between its previous value and its target, and its distance to the
    target is 0.82 times what it was. *)
Theorem visibility_never_overshoots (Math_sqrt : Q -> Q) (s : Controller) :
  reachable Math_sqrt s ->
  Forall (fun c =>
            let previous := prevVisibility (chunks s) (key c) in
            let target := chunkTarget (camera (useFrame s)) c in
            Qmin previous target <= visibility c <= Qmax previous target
            /\ Qabs (visibility c - target) == 0.82 * Qabs (previous - target))
         (chunks (useFrame s)).
Proof.
  intros Hs. pose proof (reachable_invariant Math_sqrt s Hs) as Hinv.
  apply Forall_forall. intros c Hc. cbv zeta.
  destruct (useFrame_chunk_shape s c (keys_distinct s Hinv) Hc) as (_ & _ & Hvis & _).
  rewrite Hvis. set (a := prevVisibility (chunks s) (key c)).
  set (b := chunkTarget (camera (useFrame s)) c). clearbody a b.
  unfold lerp, VISIBILITY_LERP. split.
  - destruct (Qmin_cases a b) as [[H ->]|[H ->]];
      destruct (Qmax_cases a b) as [[H' ->]|[H' ->]]; lra.
  - assert (a + (b - a) * 0.18 - b == 0.82 * (a - b)) as -> by ring.
    rewrite Qabs_Qmult. reflexivity.
Qed.

Lemma visibility_never_overshoots_witness :
  let s := run sqrt_exact [ KeyDown " "; Frame; Frame ] mounted in
  Forall (fun c =>
            let previous := prevVisibility (chunks s) (key c) in
            let target := chunkTarget (camera (useFrame s)) c in
            Qmin previous target <= visibility c <= Qmax previous target
            /\ Qabs (visibility c - target) == 0.82 * Qabs (previous - target))
         (chunks (useFrame s)).
Proof.
  exact (visibility_never_overshoots sqrt_exact _ (reachable_run sqrt_exact _)).
Defined.

Lemma chunkTarget_coords (p : Vector3) (c c' : ChunkData) :
  cx c = cx c' -> cy c = cy c' -> cz c = cz c' -> chunkTarget p c = chunkTarget p c'.
Proof. unfold chunkTarget, offsetTo. by intros -> -> ->. Qed.

Lemma fade_antitone (n m : nat) : (n <= m)%nat -> fade m <= fade n.
Proof.
  induction 1 as [|m Hle IH]; [lra|]. cbn [fade]. pose proof (fade_pos m). lra.
Qed.

Lemma fade_24 : fade 24 < 0.01.
Proof. vm_compute. reflexivity. Qed.

Section Retirement.

Variable Math_sqrt : Q -> Q.

Lemma framesWithEvents_nil (s : Controller) : framesWithEvents Math_sqrt [] s = s.
Proof. reflexivity. Qed.

Lemma framesWithEvents_cons (events : list Event) (steps : list (list Event))
    (s : Controller) :
  framesWithEvents Math_sqrt (events :: steps) s
  = framesWithEvents Math_sqrt steps (useFrame (run Math_sqrt events s)).
Proof. reflexivity. Qed.

(** One frame on which the target of [c] is 0. *)
Lemma zero_target_frame (c : ChunkData) (events : list Event) (s : Controller) (B : Q) :
  reachable Math_sqrt s ->
  key c = chunkKey (cx c) (cy c) (cz c) ->
  Forall (fun e => e <> Frame) events ->
  chunkTarget (camera (useFrame (run Math_sqrt events s))) c == 0 ->
  0 <= B ->
  (forall c0, c0 ∈ chunks s -> key c0 = key c -> visibility c0 <= B) ->
  forall c', c' ∈ chunks (useFrame (run Math_sqrt events s)) -> key c' = key c ->
    visibility c' <= 0.82 * B /\ 0.01 <= visibility c'.
Proof.
  intros Hs Hkey Hev Hzero HB Hbound c' Hc' Hk'.
  set (s1 := run Math_sqrt events s) in *.
  assert (reachable Math_sqrt s1) as Hs1 by (by apply reachable_run_from).
  pose proof (reachable_invariant Math_sqrt s1 Hs1) as Hinv1.
  assert (chunks s1 = chunks s) as Hchunks
    by (by destruct (run_events_motion Math_sqrt events s Hev) as (_ & _ & ?)).
  destruct (useFrame_chunk_shape s1 c' (keys_distinct s1 Hinv1) Hc')
    as (Hkey' & _ & Hvis & Hkeep).
  rewrite Hk', Hkey in Hkey'. apply chunkKey_inj in Hkey' as (Hx & Hy & Hz).
  rewrite (chunkTarget_coords _ c' c) in Hvis, Hkeep by done.
  assert (prevVisibility (chunks s1) (key c') <= B /\ 0 <= prevVisibility (chunks s1) (key c'))
    as [Hprev Hprev0].
  { pose proof (prevVisibility_unit (chunks s1) (key c') (visibility_unit s1 Hinv1)) as Hu.
    split; [|lra]. unfold prevVisibility. rewrite Hchunks.
    destruct (findChunk (key c') (chunks s)) as [c0|] eqn:Hf; [|exact HB].
    apply findChunk_Some in Hf as [Hc0 Hk0]. apply Hbound; [done|congruence]. }
  assert (visibility c' == 0.82 * prevVisibility (chunks s1) (key c')) as Hv.
  { rewrite Hvis. unfold lerp, VISIBILITY_LERP. rewrite Hzero. ring. }
  split; [lra|].
  destruct (Qlt_le_dec (visibility c') 0.01) as [Hlt|Hge]; [|exact Hge].
  destruct Hkeep. by split.
Qed.

Lemma zero_target_frames (c : ChunkData) (steps : list (list Event)) :
  key c = chunkKey (cx c) (cy c) (cz c) ->
  forall (s : Controller) (B : Q),
  reachable Math_sqrt s ->
  Forall (Forall (fun e => e <> Frame)) steps ->
  zeroTargetAlong Math_sqrt c steps s ->
  0 <= B ->
  (forall c0, c0 ∈ chunks s -> key c0 = key c -> visibility c0 <= B) ->
  forall c', c' ∈ chunks (framesWithEvents Math_sqrt steps s) -> key c' = key c ->
    visibility c' <= fade (length steps) * B
    /\ (steps <> [] -> 0.01 <= visibility c').
Proof.
  intros Hkey. induction steps as [|events steps IH]; intros s B Hs Hev Hzero HB Hbound c' Hc' Hk'.
  - rewrite framesWithEvents_nil in Hc'. split; [|done].
    specialize (Hbound c' Hc' Hk'). cbn [length fade]. lra.
  - apply Forall_cons in Hev as [Hev Hevs]. destruct Hzero as [Hz Hzs].
    rewrite framesWithEvents_cons in Hc'.
    pose proof (zero_target_frame c events s B Hs Hkey Hev Hz HB Hbound) as Hstep.
    assert (reachable Math_sqrt (useFrame (run Math_sqrt events s))) as Hs2.
    { apply (reachable_step Math_sqrt Frame). by apply reachable_run_from. }
    assert (0 <= 0.82 * B) as HB' by lra.
    destruct (IH _ (0.82 * B) Hs2 Hevs Hzs HB' (fun c0 H0 H1 => proj1 (Hstep c0 H0 H1))
                 c' Hc' Hk') as [Hle Hge].
    split.
    + cbn [length fade]. lra.
    + intros _. destruct steps as [|e2 steps]; [|by apply Hge].
      rewrite framesWithEvents_nil in Hc'. exact (proj2 (Hstep c' Hc' Hk')).
Qed.

End Retirement.

(** X26. A chunk whose target visibility is 0 on 24 or more consecutive
    frames, with any device events in between, is no longer in the active
    set after them. *)
Theorem zero_target_retires_within_24_frames (Math_sqrt : Q -> Q) (c : ChunkData)
    (steps : list (list Event)) (s : Controller) :
  reachable Math_sqrt s ->
  key c = chunkKey (cx c) (cy c) (cz c) ->
  Forall (Forall (fun e => e <> Frame)) steps ->
  zeroTargetAlong Math_sqrt c steps s ->
  (24 <= length steps)%nat ->
  forall c', c' ∈ chunks (framesWithEvents Math_sqrt steps s) -> key c' <> key c.
Proof.
  intros Hs Hkey Hev Hzero Hlen c' Hc' Hk'.
  pose proof (reachable_invariant Math_sqrt s Hs) as Hinv.
  destruct (zero_target_frames Math_sqrt c steps Hkey s 1 Hs Hev Hzero ltac:(lra)) with (c' := c')
    as [Hle Hge]; try done.
  { intros c0 Hc0 _. by apply (proj1 (Forall_forall _ _) (visibility_unit s Hinv) c0 Hc0). }
  assert (steps <> []) as Hne by (destruct steps; [cbn in Hlen; lia|done]).
  specialize (Hge Hne).
  pose proof (fade_antitone 24 (length steps) Hlen). pose proof fade_24. lra.
Qed.

Lemma depthTargetOf_compat (a b : Q) : a == b -> depthTargetOf a == depthTargetOf b.
Proof.
  intros Hab. unfold depthTargetOf.
  assert (Qle_bool a DEPTH_FADE_START = Qle_bool b DEPTH_FADE_START) as ->.
  { destruct (Qle_bool b DEPTH_FADE_START) eqn:E.
    - apply Qle_bool_iff. apply Qle_bool_iff in E. by rewrite Hab.
    - destruct (Qle_bool a DEPTH_FADE_START) eqn:E'; [|done].
      apply Qle_bool_iff in E'. rewrite Hab in E'. apply Qle_bool_iff in E'. congruence. }
  destruct (Qle_bool b DEPTH_FADE_START); [reflexivity|]. by rewrite Hab.
Qed.

Lemma chunkTarget_veq (p q : Vector3) (c : ChunkData) :
  IntegrationSpec.veq p q -> chunkTarget p c == chunkTarget q c.
Proof.
  intros (Hx & Hy & Hz). unfold chunkTarget, offsetTo, cameraChunk.
  assert (Qfloor (x p / CHUNK_SIZE) = Qfloor (x q / CHUNK_SIZE)) as -> by (by rewrite Hx).
  assert (Qfloor (y p / CHUNK_SIZE) = Qfloor (y q / CHUNK_SIZE)) as -> by (by rewrite Hy).
  assert (Qfloor (z p / CHUNK_SIZE) = Qfloor (z q / CHUNK_SIZE)) as -> by (by rewrite Hz).
  assert (depthTargetOf (Qabs ((inject_Z (cz c) + 0.5) * CHUNK_SIZE - z p))
          == depthTargetOf (Qabs ((inject_Z (cz c) + 0.5) * CHUNK_SIZE - z q))) as ->.
  { apply depthTargetOf_compat. by rewrite Hz. }
  reflexivity.
Qed.

Lemma zeroTargetAlong_at_rest (Math_sqrt : Q -> Q) (c : ChunkData) (n : nat) (s : Controller) :
  atRest s -> chunkTarget (camera s) c == 0 ->
  zeroTargetAlong Math_sqrt c (replicate n []) s.
Proof.
  revert s. induction n as [|n IH]; intros s Hrest Hzero; [exact I|].
  change (chunkTarget (camera (useFrame s)) c == 0
          /\ zeroTargetAlong Math_sqrt c (replicate n []) (useFrame s)).
  destruct (atRest_frame s Hrest) as [Hrest' Hcam].
  assert (chunkTarget (camera (useFrame s)) c == 0) as Hzero'.
  { rewrite (chunkTarget_veq _ _ c Hcam). exact Hzero. }
  split; [exact Hzero'|]. by apply IH.
Qed.

Lemma zero_target_retires_within_24_frames_witness :
  Forall (fun c' => key c' <> chunkKey 3 0 0)
         (chunks (framesWithEvents sqrt_exact (replicate 24 []) mounted)).
Proof.
  apply Forall_forall.
  refine (zero_target_retires_within_24_frames sqrt_exact
            {| key := chunkKey 3 0 0; cx := 3; cy := 0; cz := 0; visibility := 0 |}
            (replicate 24 []) mounted (reachable_mounted _) _ _ _ _).
  - reflexivity.
  - apply Forall_replicate. constructor.
  - apply zeroTargetAlong_at_rest.
    + vm_compute. repeat split.
    + vm_compute. reflexivity.
  - rewrite length_replicate. lia.
Defined.
(** X27. The mount effect seeds the active set with all 343 offsets of
    the cube around chunk (0,0,0), none retired, each keyed by its
    coordinates and with the target visibility for a camera at the origin
    as its visibility, not eased; the chunk (0,0,0) itself starts at 1. *)
Theorem initial_chunks_are_targets_at_origin :
  length initialChunks = 343%nat
  /\ NoDup (key <$> initialChunks)
  /\ Forall (fun c =>
               key c = chunkKey (cx c) (cy c) (cz c)
               /\ (Z.abs (cx c) <= 3 /\ Z.abs (cy c) <= 3 /\ Z.abs (cz c) <= 3)%Z
               /\ visibility c == chunkTarget origin c
               /\ ((cx c, cy c, cz c) = (0, 0, 0)%Z -> visibility c == 1))
            initialChunks.
Proof.
  split; [vm_compute; reflexivity|]. split; [apply (keys_distinct mounted mounted_invariant)|].
  apply Forall_forall. intros c Hc.
  apply elem_of_initialChunks in Hc as (o & Ho & ->). cbn [key cx cy cz visibility].
  pose proof Ho as Ho'. apply elem_of_CHUNK_OFFSETS in Ho' as (Hx & Hy & Hz & Hd).
  split; [reflexivity|]. split; [lia|].
  assert (Qmin (gridTargetOf o) (depthTargetOf (Qabs ((inject_Z (dz o) + 0.5) * CHUNK_SIZE)))
          == chunkTarget origin
               {| key := chunkKey (dx o) (dy o) (dz o); cx := dx o; cy := dy o; cz := dz o;
                  visibility :=
                    Qmin (gridTargetOf o)
                         (depthTargetOf (Qabs ((inject_Z (dz o) + 0.5) * CHUNK_SIZE))) |})
    as Htarget.
  { unfold chunkTarget, offsetTo.
    change (cameraChunk origin) with (0, 0, 0)%Z. cbn [cx cy cz z origin].
    rewrite !Z.sub_0_r.
    assert ({| dx := dx o; dy := dy o; dz := dz o;
               dist := chebyshev (dx o) (dy o) (dz o) |} = o) as ->
      by (destruct o; cbn in *; by subst).
    assert (depthTargetOf (Qabs ((inject_Z (dz o) + 0.5) * CHUNK_SIZE))
            == depthTargetOf (Qabs ((inject_Z (dz o) + 0.5) * CHUNK_SIZE - 0))) as ->.
    { apply depthTargetOf_compat, Qabs_wd. ring. }
    reflexivity. }
  split; [exact Htarget|].
  intros [= H0x H0y H0z].
  assert (o = {| dx := 0; dy := 0; dz := 0; dist := 0 |}) as ->
    by (destruct o; cbn in *; subst; reflexivity).
  vm_compute. reflexivity.
Qed.
(** ** The FPS readout *)

Lemma fpsReports_cons (now : Q) (nows : list Q) (c : FpsCounter) :
  fpsReports (now :: nows) c
  = (useFrame_fps now c).1 :: fpsReports nows (useFrame_fps now c).2.
Proof. reflexivity. Qed.

Lemma inject_Z_succ_nat (a : nat) : inject_Z (Z.of_nat (S a)) == inject_Z (Z.of_nat a) + 1.
Proof. rewrite Nat2Z.inj_succ. unfold Z.succ. rewrite inject_Z_plus. reflexivity. Qed.

Lemma fpsReports_steady (t0 d : Q) (n : nat) :
  0 < d ->
  forall (a : nat) (j : Z) (t : Q),
    (0 <= j)%Z ->
    inject_Z j * d < 400 ->
    t == t0 + (inject_Z (Z.of_nat a) - inject_Z j) * d ->
    let reports :=
      fpsReports ((fun i => t0 + inject_Z (Z.of_nat i) * d) <$> seq (S a) n)
                 {| frames := j; lastTime := t |} in
    Forall (fun r => r = None \/ r = Some (Math_round (1000 / d))) reports
    /\ (400 <= (inject_Z j + inject_Z (Z.of_nat n)) * d ->
        Some (Math_round (1000 / d)) ∈ reports).
Proof.
  intros Hd. induction n as [|n IH]; intros a j t Hj Hlow Ht reports; subst reports.
  - split; [constructor|]. intros Hhigh. change (inject_Z (Z.of_nat 0)) with 0 in Hhigh. lra.
  - change (seq (S a) (S n)) with (S a :: seq (S (S a)) n).
    rewrite fmap_cons, fpsReports_cons.
    pose proof (inject_Z_succ_nat a) as Ha. pose proof (inject_Z_succ_nat n) as Hn.
    assert (0 <= inject_Z j) as Hj' by (change 0 with (inject_Z 0); by rewrite <- Zle_Qle).
    assert (t0 + inject_Z (Z.of_nat (S a)) * d - t == (inject_Z j + 1) * d) as Hgap.
    { rewrite Ht, Ha. ring. }
    unfold useFrame_fps. cbn [frames lastTime].
    destruct (Qle_bool 400 (t0 + inject_Z (Z.of_nat (S a)) * d - t)) eqn:E; cbn [fst snd].
    + assert (Math_round (inject_Z (j + 1) / ((t0 + inject_Z (Z.of_nat (S a)) * d - t) / 1000))
              = Math_round (1000 / d)) as ->.
      { unfold Math_round. apply Qfloor_comp. rewrite Hgap, inject_Z_plus.
        change (inject_Z 1) with 1. field. split; lra. }
      destruct (IH (S a) 0%Z (t0 + inject_Z (Z.of_nat (S a)) * d)) as [Hall _].
      * lia.
      * change (inject_Z 0) with 0. lra.
      * change (inject_Z 0) with 0. ring.
      * split; [constructor; [by right|exact Hall]|]. intros _. apply list_elem_of_here.
    + assert (~ 400 <= t0 + inject_Z (Z.of_nat (S a)) * d - t) as Hno.
      { intros H. apply Qle_bool_iff in H. congruence. }
      rewrite Hgap in Hno. apply Qnot_le_lt in Hno.
      destruct (IH (S a) (j + 1)%Z t) as [Hall Hsome].
      * lia.
      * rewrite inject_Z_plus. exact Hno.
      * rewrite Ht, Ha, inject_Z_plus. change (inject_Z 1) with 1. ring.
      * split; [constructor; [by left|exact Hall]|]. intros Hhigh.
        apply list_elem_of_further, Hsome. rewrite inject_Z_plus. change (inject_Z 1) with 1.
        rewrite Hn in Hhigh. lra.
Qed.

(** X28. When frames arrive at a steady interval of [d] milliseconds
    after the counter's last reset, every FPS value reported is
    [Math.round(1000 / d)], and one is reported as soon as 400 ms have
    passed. *)
Theorem steady_clock_reports_the_rate (t0 d : Q) (n : nat) :
  0 < d ->
  let reports := fpsReports (steadyClock t0 d n) {| frames := 0; lastTime := t0 |} in
  Forall (fun r => r = None \/ r = Some (Math_round (1000 / d))) reports
  /\ (400 <= inject_Z (Z.of_nat n) * d -> Some (Math_round (1000 / d)) ∈ reports).
Proof.
  intros Hd reports. subst reports. unfold steadyClock.
  destruct (fpsReports_steady t0 d n Hd 0 0%Z t0) as [Hall Hsome].
  - lia.
  - change (inject_Z 0) with 0. lra.
  - change (inject_Z (Z.of_nat 0)) with 0. change (inject_Z 0) with 0. ring.
  - split; [exact Hall|]. intros Hhigh. apply Hsome.
    change (inject_Z 0) with 0. lra.
Qed.

Lemma steady_clock_reports_the_rate_witness :
  Some 63%Z ∈ fpsReports (steadyClock 1000 16 25) {| frames := 0; lastTime := 1000 |}.
Proof.
  refine (proj2 (steady_clock_reports_the_rate 1000 16 25 _) _).
  - reflexivity.
  - vm_compute. discriminate.
Defined.
(** ** The media plane as a component, further *)




(** ** Chunks by key *)

(** X30. A chunk key names one place, whatever happened before: in any
    two states the controller can reach, chunks of the active sets with
    the same key have the same coordinates, and so the same placements;
    a chunk that retires and is entered again shows the layout it had. *)
Theorem same_key_same_layout (Math_sin Math_sqrt : Q -> Q) (s1 s2 : Controller)
    (c1 c2 : ChunkData) (mediaCount : Z) :
  reachable Math_sqrt s1 -> reachable Math_sqrt s2 ->
  c1 ∈ chunks s1 -> c2 ∈ chunks s2 ->
  key c1 = key c2 ->
  (cx c1, cy c1, cz c1) = (cx c2, cy c2, cz c2)
  /\ generateChunkPlanes Math_sin (cx c1) (cy c1) (cz c1) mediaCount
     = generateChunkPlanes Math_sin (cx c2) (cy c2) (cz c2) mediaCount.
Proof.
  intros Hs1 Hs2 Hc1 Hc2 Hkey.
  pose proof (keys_match s1 (reachable_invariant Math_sqrt s1 Hs1)) as Hk1.
  pose proof (keys_match s2 (reachable_invariant Math_sqrt s2 Hs2)) as Hk2.
  rewrite Forall_forall in Hk1, Hk2.
  rewrite (Hk1 c1 Hc1), (Hk2 c2 Hc2) in Hkey.
  apply chunkKey_inj in Hkey as (-> & -> & ->). by split.
Qed.

Lemma same_key_same_layout_witness :
  generateChunkPlanes (fun q => q) 1 0 0 20
  = generateChunkPlanes (fun q => q)
      (cx {| key := chunkKey 1 0 0; cx := 1; cy := 0; cz := 0; visibility := 1 |})
      (cy {| key := chunkKey 1 0 0; cx := 1; cy := 0; cz := 0; visibility := 1 |})
      (cz {| key := chunkKey 1 0 0; cx := 1; cy := 0; cz := 0; visibility := 1 |}) 20.
Proof.
  assert ({| key := chunkKey 1 0 0; cx := 1; cy := 0; cz := 0;
             visibility :=
               Qmin (gridTargetOf {| dx := 1; dy := 0; dz := 0; dist := 1 |})
                    (depthTargetOf (Qabs ((inject_Z 0 + 0.5) * CHUNK_SIZE))) |}
          ∈ initialChunks) as Hin.
  { apply elem_of_initialChunks.
    exists {| dx := 1; dy := 0; dz := 0; dist := 1 |}. split; [|reflexivity].
    apply elem_of_CHUNK_OFFSETS. cbn. repeat split; lia. }
  exact (proj2 (same_key_same_layout (fun q => q) sqrt_exact mounted
                  (run sqrt_exact [ KeyDown "w"; MouseDown 3 4 ] mounted) _ _ 20
                  (reachable_mounted _)
                  (reachable_run_from sqrt_exact [ KeyDown "w"; MouseDown 3 4 ] mounted
                     (reachable_mounted _))
                  Hin Hin eq_refl)).
Defined.
